(* ===== verification/_CoqProject ===== *)
-Q . S2P
Prelude.v
Word32.v
Double.v
FloatSpec.v
Hasher.v
Hash.v
HashSpec.v
Heap.v
Table.v
Items.v
Abstract.v
Bucket.v
Rep.v
Exec.v
Refine.v
Run.v
Examples.v
Frame.v
MapSpec.v
Clients.v
Correct.v
Faults.v
