(* ===== verification/Prelude.v ===== *)
(** * numskull hashmap: a verification development for [src/hashmap.c]

    ** The program

    [src/hashmap.c] is a table from doubles to doubles.  A key is hashed
    by [hashFunction] (lines 10-32), which mixes the eight bytes of the
    double with two rotations; the low 16 bits of the hash select one of
    65536 buckets.  A bucket ([bucket_t], lines 42-46) points to an array
    of items ([bucketItem_t], key and value) with a length and a count.
    [hashmapCreate] (53-57) allocates the table, [hashmapRead] (59-77)
    returns the value stored under a key or the key itself when there is
    none, [hashmapWrite] (107-140) stores a value, or deletes the key when
    the value equals it, and [hashmapDelete] (79-105) removes a key by
    moving the last item of the bucket into its place and frees the array
    when the bucket becomes empty.  [main] returns 0.

    ** The model, file by file

    - Prelude (this file): the outcome of a C operation ([result]: a value,
      or the [error] at which the program leaves defined behaviour), the
      monad [M St] of operations on a state that can stop with an error,
      its notations, the tactics and lemmas the other files share.
    - Word32: [unsigned int] as a [Z] with its wrap-around written out
      ([wrap32]); [size_t] is 64 bits wide (LP64).  Shifts are given by a
      [ShiftSem] with two instances, [shift_iso] (a count outside 0..31 is
      an error, as in ISO C) and [shift_x86] (the count is taken modulo
      32), and the laws every lawful semantics satisfies.
    - Double: a double as its 64-bit pattern; [double_bytes] is the view
      through the union [double_u] on a little-endian machine, [feq] the
      comparison [==] of C (false on a NaN, true on two zeros).
    - FloatSpec: [decode], the number a bit pattern denotes in the
      Standard Library's specification of IEEE-754 arithmetic, and the
      proof that [feq] is the equality [SFeqb] of that specification.
    - Hasher: the interface between the table and its hash function, a
      function that may fail ([Hasher]) and the promise that it returns
      ([HasherOk]).  The table is verified against it.
    - Hash: [rotateLeft], [rotateRight], [hashFunction] expression by
      expression, over any [ShiftSem]; the instances of [Hasher].
    - HashSpec: the hash as the specification words it ([ref_hash]), a
      fold over the bytes with counts modulo 32, over the sum the code
      computes ([sum32]) or the 8-bit sum the specification asks for
      ([sum8]).
    - Heap: [calloc], [realloc], [free] and the accesses through a
      pointer.  The heap maps locations to blocks of 8-byte cells; a freed
      block is removed, so a pointer that outlives it dangles; every
      access is checked against the block; the allocator fails, returning
      [NULL], when a request exceeds the bytes it has left.
    - Table: the structs as records, the bucket array as a finite map in
      which an absent index is the all-zero bucket, and [hashmapCreate],
      [hashmapRead], [hashmapDelete], [hashmapWrite] statement by
      statement in [M heap], the loops as fixpoints with fuel.
    - Items: the items of a bucket as a list and the three loops as
      functions on the list: [find_value]; [find_item] with the two
      updates of [hashmapWrite], [overwrite_item] (line 125) and
      [append_item] (lines 137-139); [delete_items].  [write_items] is
      what a write that returns leaves and [delete_first] the removal
      that stops at the first match.
    - Bucket: the loops of Table on a block that holds a list of items
      are the functions of Items.
    - Abstract: the abstract table.  A bucket is [Fresh], [Stored cap its]
      or [Freed cap]; [abs_create], [abs_read], [abs_write], [abs_delete]
      are the four functions on this state, with the errors they stop
      with; [atable_ok] is its invariant.
    - Rep: [rep h t a], the table [t] in the heap [h] represents the
      abstract table [a]; how [rep] is re-established when one bucket and
      its block change.
    - Exec: each function of Table on a bucket in a known state, as an
      equation.  From here on the functions are used through these
      equations.
    - Refine: each function of Table implements its abstract operation
      ([refines]).
    - Run: sequences of calls ([run], [behaviour]) and the states a client
      can reach ([state_reachable], [reachable]); runs in storage
      simulate abstract runs.
    - Examples: concrete tables, computed by running the model with the
      hash function of the source.
    - Frame: what a call leaves alone ([touches]: the other buckets and
      the other blocks) and what the heap holds ([owned]: the arrays of
      the buckets, nothing else).
    - MapSpec: the contract of the specification, a finite map with the
      equality of bit patterns, and the runs on it.
    - Clients: the runs that store at most [HASHMAP_BUCKET_INITSIZE]
      items and store nothing after a removal ([stores], [removes],
      [store_count]), with the invariant of their growing phase
      ([grown]).
    - Correct, Faults: the theorems on the functions of Table.

    ** What is proved

    - Refinement: what a client sees of a table in storage, for any
      storage and any sequence of calls, is what it sees of the abstract
      table (Run); every reachable table represents a reachable abstract
      table that satisfies [atable_ok].
    - The finite map (MapSpec): on keys that are neither NaNs nor zeros
      a run that returns reads what a finite map reads.
    - Runs that return (Clients): a run of at most eight stores followed
      by reads and removals only, on a table created with storage for
      the table and one block per store, returns from every call,
      whatever the hash function.  Both bounds are needed: a ninth
      store may find its bucket full and a store after a removal may
      find its bucket freed (Faults).
    - The contract (Correct): read after write, read after delete, no
      effect on other keys, reads are safe and change nothing, writes of
      present keys happen in place, deleting an absent key changes
      nothing, writing a value equal to the key deletes, a returned value
      equal to the key means absence, [hashmapDelete] always returns and
      when [hashmapWrite] returns.
    - Frame and storage (Frame): a call changes the bucket of its key and
      the block of that bucket, nothing else; after any run from an empty
      heap every live block is the array of a bucket that has items, so
      that no storage is lost.
    - The faults (Faults): a write to a full bucket goes out of bounds
      ([realloc] is given bytes, not items), a write to a bucket emptied
      by a deletion uses freed storage, a table created without storage is
      used through a null pointer, under ISO C every call is undefined;
      NaN keys are never found and pile up; a write is not seen by the
      keys of other buckets, so the two zeros, which compare equal and
      hash apart, are one key in two buckets; the count of the table is
      never maintained; no bucket ever has a length other than 8.
    - The loops (Bucket, Items): each loop, run as its function runs it,
      is its function on lists; the loop of [hashmapDelete], which goes on
      after a match, removes exactly the key when the keys of the bucket
      differ pairwise.
    - The hash (Hash, HashSpec, Double): under the x86 semantics
      [hashFunction] returns a 32-bit word whose halves are equal, the
      rotations rotate by the count modulo 32, and the function is the
      hash of the specification on 32-bit sums, hence on 8-bit sums for
      the keys none of whose bytes overflows; round by round, the value
      the code mixes in is the one of the specification exactly when the
      byte does not overflow; the bytes determine the double.
    - The comparison (FloatSpec): [decode] yields valid binary64 numbers
      and [feq] is the IEEE-754 equality on them.

    ** Fuel and bounds

    The loop of [hashFunction] runs with fuel 8, its trip count.  The
    loops of the table run with fuel equal to the count of the bucket on
    entry; a loop over [i < itemCount] with [i] counting up from 0 and the
    count never increasing makes at most that many iterations, and the
    theorems of Bucket show that the fuel is never exhausted
    ([OutOfFuel] is not the outcome of any loop on a well-formed bucket).
    Counts, lengths and indices are 32-bit values; the invariant bounds a
    count by the length, which is 8, so no counter wraps.  The storage at
    hand is a parameter ([hp_avail]) of every statement.

    ** Assumptions, and what is not modelled

    LP64, little-endian, IEEE-754 doubles.  The value of padding and the
    addresses of blocks are not modelled: a location is an abstract name,
    every allocation gets a fresh one, also when [realloc] moves a block,
    and the address of a freed block is never handed out again; the
    invariant that no two buckets share a block rests on this.  Comparing
    a pointer with [NULL] is defined also when the block it pointed to
    has been freed (lines 64, 84 and 116 after the [free] of line 93);
    using such a pointer is the error [DanglingPointer].  The table
    object and the bucket array are values, not blocks of the heap: only
    their allocation, and its failure, is modelled; an operation reads the
    selected bucket as a value ([get_bucket]) and puts it back when it
    returns ([set_bucket]), which is what the stores through the pointer
    [bucket] amount to since nothing else reads the bucket in between.
    The hash function is a parameter of the table ([Hasher]); the theorems
    on the table hold for every hash function that returns ([HasherOk]),
    which [hashFunction] does under the x86 semantics and does not under
    ISO C.  Floating-point arithmetic is not modelled, the code having
    none.  [main] is not modelled.  The code has no function that
    releases a table. *)

From Stdlib Require Export ZArith Lia.
From stdpp Require Export base tactics numbers option list gmap.

#[global] Open Scope Z_scope.

(** ** Outcomes of a C operation

    An operation of the model either returns a value or stops with the
    reason why the C program has no defined behaviour at that point. *)

Inductive error : Type :=
| NullDeref        (* an access through a null pointer *)
| DanglingPointer  (* an access to, or a free of, storage that is not live *)
| OutOfBounds      (* an access past the end of a live allocation *)
| UninitRead       (* a read of storage that holds an indeterminate value *)
| UndefinedShift   (* a shift whose count is negative or not below the width *)
| OutOfFuel.       (* a loop of the model ran out of fuel *)

Inductive result (A : Type) : Type :=
| Ok (a : A)
| Err (e : error).

Arguments Ok {A} a.
Arguments Err {A} e.

#[export] Instance error_eq_dec : EqDecision error.
Proof. solve_decision. Defined.

#[export] Instance result_eq_dec `{EqDecision A} : EqDecision (result A).
Proof. solve_decision. Defined.

Definition is_Ok {A} (r : result A) : Prop :=
  match r with Ok _ => True | Err _ => False end.

Definition is_Err {A} (r : result A) : Prop :=
  match r with Ok _ => False | Err _ => True end.

#[export] Instance is_Ok_dec {A} (r : result A) : Decision (is_Ok r).
Proof. destruct r; simpl; apply _. Defined.

#[export] Instance is_Err_dec {A} (r : result A) : Decision (is_Err r).
Proof. destruct r; simpl; apply _. Defined.

(** [result] is a monad; with these instances stdpp's notation
    [x ← m; k] sequences pure computations that may fail. *)

#[export] Instance result_ret : MRet result := fun A a => Ok a.

#[export] Instance result_bind : MBind result := fun A B k m =>
  match m with Ok a => k a | Err e => Err e end.

#[export] Instance result_fmap : FMap result := fun A B f m =>
  match m with Ok a => Ok (f a) | Err e => Err e end.

Definition result_of_option {A} (e : error) (o : option A) : result A :=
  match o with Some a => Ok a | None => Err e end.

(** ** The state-and-error monad

    [M St A] is a computation that reads and updates a state of type [St]
    and either returns an [A] with the new state or stops with an [error].
    An error carries no state: after undefined behaviour nothing is known. *)

Section monad.
Context {St : Type}.

Definition M (A : Type) : Type := St -> result (A * St).

Definition ret {A} (a : A) : M A := fun s => Ok (a, s).

Definition bind {A B} (m : M A) (k : A -> M B) : M B :=
  fun s => match m s with
           | Ok (a, s') => k a s'
           | Err e => Err e
           end.

Definition raise {A} (e : error) : M A := fun _ => Err e.

Definition lift_result {A} (r : result A) : M A :=
  fun s => match r with Ok a => Ok (a, s) | Err e => Err e end.

End monad.

Arguments M : clear implicits.

Declare Scope hm_scope.
Delimit Scope hm_scope with hm.

Notation "'let*' x ':=' m 'in' k" := (bind m (fun x => k))
  (at level 10, x name, m at level 100, k at level 200, only parsing) : hm_scope.
Notation "m ';;' k" := (bind m (fun _ => k))
  (at level 100, k at level 200, right associativity) : hm_scope.

#[global] Open Scope hm_scope.

(** ** Tactics of the development *)

(** [simplify_result] rewrites with the equations between outcomes that
    are in the context and discards the contradictory ones. *)
Ltac simplify_result :=
  repeat match goal with
  | H : Ok _ = Ok _ |- _ => injection H as H; subst
  | H : Err _ = Err _ |- _ => injection H as H; subst
  | H : Ok _ = Err _ |- _ => discriminate H
  | H : Err _ = Ok _ |- _ => discriminate H
  | H : (_, _) = (_, _) |- _ => injection H as ? ?; subst
  end.

(** [mod_lia] is [lia] for goals with [mod] and [/] by constants. *)
Ltac mod_lia := Z.div_mod_to_equations; lia.

Create HintDb hm discriminated.
Create Rewrite HintDb hm_rw.

(** ** Laws of the pure error monad *)

Lemma is_Ok_inv {A} (r : result A) : is_Ok r -> exists a, r = Ok a.
Proof. destruct r; [eauto|done]. Qed.

Lemma is_Err_inv {A} (r : result A) : is_Err r -> exists e, r = Err e.
Proof. destruct r; [done|eauto]. Qed.

Lemma rbind_Ok {A B} (k : A -> result B) (m : result A) a :
  m = Ok a -> m ≫= k = k a.
Proof. by intros ->. Qed.

Lemma rbind_Err {A B} (k : A -> result B) (m : result A) e :
  m = Err e -> m ≫= k = Err e.
Proof. by intros ->. Qed.

Lemma rbind_Ok_inv {A B} (k : A -> result B) (m : result A) b :
  m ≫= k = Ok b -> exists a, m = Ok a /\ k a = Ok b.
Proof. destruct m; [eauto|done]. Qed.

Lemma rbind_Err_inv {A B} (k : A -> result B) (m : result A) e :
  m ≫= k = Err e -> m = Err e \/ exists a, m = Ok a /\ k a = Err e.
Proof. destruct m; [eauto|]. intros [= ->]. by left. Qed.

(** ** Laws of the state-and-error monad *)

Section monad_laws.
Context {St : Type}.
Implicit Types (s : St).

Lemma bind_ret_l {A B} (a : A) (k : A -> M St B) s :
  bind (ret a) k s = k a s.
Proof. reflexivity. Qed.

Lemma bind_ret_r {A} (m : M St A) s : bind m ret s = m s.
Proof. unfold bind, ret. by destruct (m s) as [[??]|]. Qed.

Lemma bind_assoc {A B C} (m : M St A) (k : A -> M St B) (h : B -> M St C) s :
  bind (bind m k) h s = bind m (fun a => bind (k a) h) s.
Proof. unfold bind. by destruct (m s) as [[??]|]. Qed.

Lemma bind_Ok {A B} (m : M St A) (k : A -> M St B) s a s' :
  m s = Ok (a, s') -> bind m k s = k a s'.
Proof. unfold bind. by intros ->. Qed.

Lemma bind_Err {A B} (m : M St A) (k : A -> M St B) s e :
  m s = Err e -> bind m k s = Err e.
Proof. unfold bind. by intros ->. Qed.

Lemma bind_Ok_inv {A B} (m : M St A) (k : A -> M St B) s r :
  bind m k s = Ok r -> exists a s', m s = Ok (a, s') /\ k a s' = Ok r.
Proof. unfold bind. destruct (m s) as [[a s']|]; [eauto|done]. Qed.

Lemma bind_Err_inv {A B} (m : M St A) (k : A -> M St B) s e :
  bind m k s = Err e ->
  m s = Err e \/ exists a s', m s = Ok (a, s') /\ k a s' = Err e.
Proof. unfold bind. destruct (m s) as [[a s']|]; [eauto|]. intros [= ->]. by left. Qed.

End monad_laws.

#[export] Hint Rewrite @bind_ret_l @bind_ret_r @bind_assoc : hm_rw.

(** [inv_bind] takes apart the hypotheses that say a sequence of
    computations returned: each step returned, and the rest did. *)
Ltac inv_bind :=
  repeat match goal with
  | H : mbind _ _ = Ok _ |- _ =>
      let a := fresh "a" in let Ha := fresh "H" a in
      apply rbind_Ok_inv in H as (a & Ha & H)
  | H : bind _ _ _ = Ok _ |- _ =>
      let a := fresh "a" in let s := fresh "s" in let Ha := fresh "H" a in
      apply bind_Ok_inv in H as (a & s & Ha & H)
  end; simplify_result.

(** ** Bits of bounded integers *)

Lemma testbit_above w z i : 0 <= z < 2 ^ w -> w <= i -> Z.testbit z i = false.
Proof.
  intros [??] ?. destruct (decide (z = 0)) as [->|]; [apply Z.bits_0|].
  apply Z.bits_above_log2; [lia|].
  apply Z.lt_le_trans with w; [|done]. apply Z.log2_lt_pow2; lia.
Qed.

Lemma testbit_mod_pow2 w z i :
  0 <= w -> 0 <= i ->
  Z.testbit (z mod 2 ^ w) i = bool_decide (i < w) && Z.testbit z i.
Proof.
  intros. rewrite Z.testbit_mod_pow2 by lia. f_equal. case_bool_decide; lia.
Qed.

Lemma land_ones_range w z : 0 <= w -> 0 <= Z.land z (Z.ones w) < 2 ^ w.
Proof. intros. rewrite Z.land_ones by done. apply Z.mod_pos_bound. lia. Qed.

(** ** Lists *)

Lemma take_insert_comm {A} (l : list A) n j x :
  take n (<[j := x]> l) = <[j := x]> (take n l).
Proof.
  rewrite take_insert. case_decide; [done|].
  symmetry. apply list_insert_ge. rewrite length_take. lia.
Qed.

