(* ===== verification/Word32.v ===== *)
(** * Word32: the arithmetic of C's [unsigned int]

    [unsigned int] is taken to be 32 bits wide and [size_t] 64 bits wide (the
    LP64 data model).  A value is a [Z] in [[0, 2^32)]; every operation
    writes its wrap-around out.  The shifts [<<] and [>>] are given by a
    [ShiftSem]: ISO C leaves a shift by a count outside [[0, 32)]
    undefined, the x86 instructions use the count modulo 32.  Both
    semantics are instances, and [ShiftSemOk] states what every semantics
    must satisfy: it agrees with ISO C wherever ISO C defines the shift. *)

From S2P Require Import Prelude.
From coqutil Require Import Z.bitblast.

(** ** Widths and wrap-around *)

Definition UINT_BITS : Z := 32.

Definition wrap32 (z : Z) : Z := z mod 2 ^ 32.

Definition wrap64 (z : Z) : Z := z mod 2 ^ 64.

Definition is_u32 (z : Z) : Prop := 0 <= z < 2 ^ 32.

Definition is_u8 (z : Z) : Prop := 0 <= z < 2 ^ 8.

#[export] Instance is_u32_dec z : Decision (is_u32 z).
Proof. unfold is_u32. apply _. Defined.

#[export] Instance is_u8_dec z : Decision (is_u8 z).
Proof. unfold is_u8. apply _. Defined.

(** ** Shift semantics *)

Class ShiftSem : Type := {
  shl : Z -> Z -> result Z;   (* [n << k] on an [unsigned int] [n] *)
  shr : Z -> Z -> result Z;   (* [n >> k] on an [unsigned int] [n] *)
}.

(** ISO C (C11 6.5.7): the behaviour is undefined when the count is negative
    or at least the width of the promoted left operand. *)
Definition shift_iso : ShiftSem := {|
  shl n k := if decide (0 <= k < UINT_BITS) then Ok (wrap32 (Z.shiftl n k))
             else Err UndefinedShift;
  shr n k := if decide (0 <= k < UINT_BITS) then Ok (Z.shiftr n k)
             else Err UndefinedShift;
|}.

(** x86 [shl]/[shr] on a 32-bit operand: the count is masked to 5 bits. *)
Definition shift_x86 : ShiftSem := {|
  shl n k := Ok (wrap32 (Z.shiftl n (k mod UINT_BITS)));
  shr n k := Ok (Z.shiftr n (k mod UINT_BITS));
|}.

Class ShiftSemOk (sem : ShiftSem) : Prop := {
  shl_defined n k : 0 <= k < UINT_BITS -> shl n k = Ok (wrap32 (Z.shiftl n k));
  shr_defined n k : 0 <= k < UINT_BITS -> shr n k = Ok (Z.shiftr n k);
  shl_range n k r : shl n k = Ok r -> is_u32 r;
  shr_range n k r : is_u32 n -> shr n k = Ok r -> is_u32 r;
  shl_error n k e : shl n k = Err e -> e = UndefinedShift;
  shr_error n k e : shr n k = Err e -> e = UndefinedShift;
}.

(** A semantics is total when no shift is undefined. *)
Class ShiftTotal (sem : ShiftSem) : Prop := {
  shl_total n k : is_Ok (shl n k);
  shr_total n k : is_Ok (shr n k);
}.

(** ** Reference rotations

    [rol32 n k] rotates the 32-bit word [n] left by [k mod 32] places and
    [ror32 n k] right; [rol32_spec] and [ror32_spec] say so bit by bit. *)

Definition rol32 (n k : Z) : Z :=
  let s := k mod 32 in Z.lor (wrap32 (Z.shiftl n s)) (Z.shiftr n (32 - s)).

Definition ror32 (n k : Z) : Z :=
  let s := k mod 32 in Z.lor (Z.shiftr n s) (wrap32 (Z.shiftl n (32 - s))).

(** ** Lemmas on ranges *)

Lemma wrap32_range z : is_u32 (wrap32 z).
Proof. unfold is_u32, wrap32. apply Z.mod_pos_bound. lia. Qed.

Lemma wrap32_small z : is_u32 z -> wrap32 z = z.
Proof. unfold is_u32, wrap32. intros. by apply Z.mod_small. Qed.

Lemma wrap32_le z : 0 <= z -> 0 <= wrap32 z <= z.
Proof. unfold wrap32. intros. mod_lia. Qed.

Lemma wrap32_idemp z : wrap32 (wrap32 z) = wrap32 z.
Proof. apply wrap32_small, wrap32_range. Qed.

Lemma wrap32_land z : wrap32 z = Z.land z (Z.ones 32).
Proof. unfold wrap32. by rewrite Z.land_ones. Qed.

Lemma is_u32_land z : is_u32 z <-> Z.land z (Z.ones 32) = z.
Proof.
  rewrite <- wrap32_land. split; [apply wrap32_small|].
  intros <-. apply wrap32_range.
Qed.

Lemma is_u8_u32 z : is_u8 z -> is_u32 z.
Proof. unfold is_u8, is_u32. lia. Qed.

Lemma lor_u32 a b : is_u32 a -> is_u32 b -> is_u32 (Z.lor a b).
Proof.
  rewrite !is_u32_land. intros Ha Hb.
  rewrite <- Ha, <- Hb at 2. Z.bitblast.
Qed.

Lemma lxor_u32 a b : is_u32 a -> is_u32 b -> is_u32 (Z.lxor a b).
Proof.
  rewrite !is_u32_land. intros Ha Hb.
  rewrite <- Ha, <- Hb at 2. Z.bitblast.
Qed.

Lemma land_u32_l a b : is_u32 a -> is_u32 (Z.land a b).
Proof.
  rewrite !is_u32_land. intros Ha.
  rewrite <- Ha at 2. Z.bitblast.
Qed.

Lemma land_u32_r a b : is_u32 b -> is_u32 (Z.land a b).
Proof. rewrite Z.land_comm. apply land_u32_l. Qed.

Lemma shiftr_u32 a k : is_u32 a -> 0 <= k -> is_u32 (Z.shiftr a k).
Proof.
  unfold is_u32. intros [H0 H1] Hk. rewrite Z.shiftr_div_pow2 by done.
  assert (0 < 2 ^ k) by (apply Z.pow_pos_nonneg; lia).
  split; [by apply Z.div_pos|].
  apply Z.le_lt_trans with a; [|done]. apply Z.div_le_upper_bound; nia.
Qed.

#[export] Hint Resolve wrap32_range lor_u32 lxor_u32 land_u32_l land_u32_r
  shiftr_u32 is_u8_u32 : hm.

(** ** The two semantics are lawful *)

#[export] Instance shift_iso_ok : ShiftSemOk shift_iso.
Proof.
  split; simpl; intros *.
  - intros. by rewrite decide_True.
  - intros. by rewrite decide_True.
  - case_decide; [|done]. intros [= <-]. apply wrap32_range.
  - intros Hn. case_decide; [|done]. intros [= <-]. apply shiftr_u32; [done|lia].
  - case_decide; [done|]. by intros [= <-].
  - case_decide; [done|]. by intros [= <-].
Qed.

Lemma mod_bits_small k : 0 <= k < UINT_BITS -> k mod UINT_BITS = k.
Proof. intros. by apply Z.mod_small. Qed.

Lemma mod_bits_range k : 0 <= k mod UINT_BITS < UINT_BITS.
Proof. apply Z.mod_pos_bound. done. Qed.

#[export] Instance shift_x86_ok : ShiftSemOk shift_x86.
Proof.
  split; simpl; intros *.
  - intros. by rewrite mod_bits_small.
  - intros. by rewrite mod_bits_small.
  - intros [= <-]. apply wrap32_range.
  - intros Hn [= <-]. apply shiftr_u32; [done|]. apply mod_bits_range.
  - done.
  - done.
Qed.

#[export] Instance shift_x86_total : ShiftTotal shift_x86.
Proof. by split. Qed.

(** Wherever ISO C defines a shift, every lawful semantics returns the
    same value: the x86 behaviour refines the ISO one. *)
Lemma shift_iso_refined `{!ShiftSemOk sem} n k r :
  @shl shift_iso n k = Ok r -> @shl sem n k = Ok r.
Proof.
  simpl. case_decide; [|done]. intros [= <-]. by apply shl_defined.
Qed.

Lemma shift_iso_refined_r `{!ShiftSemOk sem} n k r :
  @shr shift_iso n k = Ok r -> @shr sem n k = Ok r.
Proof.
  simpl. case_decide; [|done]. intros [= <-]. by apply shr_defined.
Qed.

(** ** Bits of 32-bit words and of the rotations *)

Lemma testbit_u32_high n i : is_u32 n -> 32 <= i -> Z.testbit n i = false.
Proof. apply testbit_above. Qed.

Lemma testbit_wrap32 z i :
  0 <= i -> Z.testbit (wrap32 z) i = bool_decide (i < 32) && Z.testbit z i.
Proof. intros. by apply testbit_mod_pow2. Qed.

Lemma u32_bits_inj a b :
  is_u32 a -> is_u32 b ->
  (forall i, 0 <= i < 32 -> Z.testbit a i = Z.testbit b i) -> a = b.
Proof.
  intros Ha Hb Hbits. apply Z.bits_inj'. intros i Hi.
  destruct (decide (i < 32)); [apply Hbits; lia|].
  by rewrite !testbit_u32_high by (done || lia).
Qed.

Lemma shiftr_u32_32 n : is_u32 n -> Z.shiftr n 32 = 0.
Proof. intros [??]. rewrite Z.shiftr_div_pow2 by done. by apply Z.div_small. Qed.

Lemma wrap64_mod_bits z : wrap64 z mod UINT_BITS = z mod UINT_BITS.
Proof.
  unfold wrap64, UINT_BITS. change (2 ^ 64) with (32 * 2 ^ 59).
  rewrite Z.rem_mul_r by done. mod_lia.
Qed.

Lemma rol32_u32 n k : is_u32 n -> is_u32 (rol32 n k).
Proof.
  intros. unfold rol32. apply lor_u32; [apply wrap32_range|].
  apply shiftr_u32; [done|mod_lia].
Qed.

Lemma ror32_u32 n k : is_u32 n -> is_u32 (ror32 n k).
Proof.
  intros. unfold ror32. apply lor_u32; [|apply wrap32_range].
  apply shiftr_u32; [done|mod_lia].
Qed.

Lemma rol32_spec n k i :
  is_u32 n -> 0 <= i < 32 ->
  Z.testbit (rol32 n k) i = Z.testbit n ((i - k) mod 32).
Proof.
  intros Hn Hi. unfold rol32. cbv zeta.
  rewrite Z.lor_spec, testbit_wrap32, Z.shiftl_spec, Z.shiftr_spec by mod_lia.
  rewrite bool_decide_true by lia. cbn [andb].
  destruct (decide (k mod 32 <= i)).
  - rewrite (testbit_u32_high n (i + _)) by (done || mod_lia).
    rewrite orb_false_r. f_equal. mod_lia.
  - rewrite (Z.testbit_neg_r n (i - _)) by mod_lia. cbn [orb]. f_equal. mod_lia.
Qed.

Lemma ror32_spec n k i :
  is_u32 n -> 0 <= i < 32 ->
  Z.testbit (ror32 n k) i = Z.testbit n ((i + k) mod 32).
Proof.
  intros Hn Hi. unfold ror32. cbv zeta.
  rewrite Z.lor_spec, testbit_wrap32, Z.shiftl_spec, Z.shiftr_spec by mod_lia.
  rewrite bool_decide_true by lia. cbn [andb].
  destruct (decide (i + k mod 32 < 32)).
  - rewrite (Z.testbit_neg_r n (i - _)) by mod_lia.
    rewrite orb_false_r. f_equal. mod_lia.
  - rewrite (testbit_u32_high n (i + _)) by (done || mod_lia).
    cbn [orb]. f_equal. mod_lia.
Qed.

(** Rotating left and then right by the same count gives the word back. *)
Lemma ror32_rol32 n k : is_u32 n -> ror32 (rol32 n k) k = n.
Proof.
  intros Hn. apply u32_bits_inj; [by apply ror32_u32, rol32_u32|done|].
  intros i Hi. rewrite ror32_spec, rol32_spec by (auto using rol32_u32 || mod_lia).
  f_equal. mod_lia.
Qed.

Lemma rol32_ror32 n k : is_u32 n -> rol32 (ror32 n k) k = n.
Proof.
  intros Hn. apply u32_bits_inj; [by apply rol32_u32, ror32_u32|done|].
  intros i Hi. rewrite rol32_spec, ror32_spec by (auto using ror32_u32 || mod_lia).
  f_equal. mod_lia.
Qed.

#[export] Hint Resolve rol32_u32 ror32_u32 : hm.
