(* ===== verification/Double.v ===== *)
(** * Double: IEEE-754 binary64 values as bit patterns

    The keys and values of the table are C [double]s.  The program reads
    them in two ways only: byte by byte through the union [double_u]
    (in [hashFunction]) and with the comparison [==] (in [hashmapRead],
    [hashmapDelete] and [hashmapWrite]).  A double is therefore modelled
    by its 64-bit pattern, a [Z] in [[0, 2^64)]: bit 63 is the sign, bits
    62..52 the biased exponent, bits 51..0 the fraction.  [double_bytes]
    is the view through [double_u] on a little-endian machine, and [feq]
    is [==]: false whenever an operand is a NaN, true on two zeros of
    either sign, and equality of the patterns otherwise. *)

From S2P Require Import Prelude Word32.
From coqutil Require Import Z.bitblast.

Abbreviation double := Z (only parsing).

Definition is_double (d : double) : Prop := 0 <= d < 2 ^ 64.

#[export] Instance is_double_dec d : Decision (is_double d).
Proof. unfold is_double. apply _. Defined.

(** ** Fields of the pattern *)

Definition double_sign (d : double) : bool := Z.testbit d 63.

Definition double_exp (d : double) : Z := Z.land (Z.shiftr d 52) (Z.ones 11).

Definition double_frac (d : double) : Z := Z.land d (Z.ones 52).

Definition is_nan (d : double) : bool :=
  (double_exp d =? 2047) && negb (double_frac d =? 0).

Definition is_zero (d : double) : bool :=
  (double_exp d =? 0) && (double_frac d =? 0).

Definition same_fields (x y : double) : bool :=
  bool_decide (double_sign x = double_sign y)
  && (double_exp x =? double_exp y) && (double_frac x =? double_frac y).

(** ** The comparison [x == y] of two doubles *)

Definition feq (x y : double) : bool :=
  negb (is_nan x) && negb (is_nan y)
  && ((is_zero x && is_zero y) || same_fields x y).

(** ** The bytes of a double, as [double_u.bytes] gives them *)

Definition double_byte (d : double) (i : Z) : Z :=
  Z.land (Z.shiftr d (8 * i)) 255.

Definition double_bytes (d : double) : list Z :=
  double_byte d <$> [0; 1; 2; 3; 4; 5; 6; 7].

(** The value a sequence of bytes denotes, least significant byte first. *)
Fixpoint le_combine (bs : list Z) : Z :=
  match bs with
  | [] => 0
  | b :: bs => Z.lor b (Z.shiftl (le_combine bs) 8)
  end.

(** The bytes [k], [k+1], ... of a double: [double_bytes] is [bytes_from d 0 8]. *)
Fixpoint bytes_from (d : double) (k : Z) (n : nat) : list Z :=
  match n with
  | O => []
  | S n => double_byte d k :: bytes_from d (k + 1) n
  end.

(** ** Some doubles *)

Definition pos_zero : double := 0.
Definition neg_zero : double := 0x8000000000000000.
Definition quiet_nan : double := 0x7ff8000000000000.
Definition d_one : double := 0x3ff0000000000000.
Definition d_3_14 : double := 0x40091eb851eb851f.
Definition d_2_71 : double := 0x4005ae147ae147ae.

(** ** Bits of the fields *)

Lemma testbit_double_frac d n :
  0 <= n -> Z.testbit (double_frac d) n = bool_decide (n < 52) && Z.testbit d n.
Proof.
  intros. unfold double_frac. rewrite Z.land_spec, Z.testbit_ones_nonneg by lia.
  rewrite andb_comm. f_equal. case_bool_decide; lia.
Qed.

Lemma testbit_double_exp d n :
  0 <= n ->
  Z.testbit (double_exp d) n = bool_decide (n < 11) && Z.testbit d (n + 52).
Proof.
  intros. unfold double_exp.
  rewrite Z.land_spec, Z.shiftr_spec, Z.testbit_ones_nonneg by lia.
  rewrite andb_comm. f_equal. case_bool_decide; lia.
Qed.

Lemma testbit_double_high d n : is_double d -> 64 <= n -> Z.testbit d n = false.
Proof. apply testbit_above. Qed.

(** Two patterns with the same three fields are the same pattern. *)
Lemma same_fields_eq x y :
  is_double x -> is_double y -> same_fields x y = true -> x = y.
Proof.
  intros Hx Hy. unfold same_fields.
  rewrite !andb_true_iff, bool_decide_eq_true, !Z.eqb_eq.
  intros [[Hs He] Hf]. apply Z.bits_inj'. intros n Hn.
  destruct (decide (n < 52)).
  { apply (f_equal (fun z => Z.testbit z n)) in Hf.
    rewrite !testbit_double_frac in Hf by done.
    by rewrite !bool_decide_true in Hf by done. }
  destruct (decide (n < 63)).
  { apply (f_equal (fun z => Z.testbit z (n - 52))) in He.
    rewrite !testbit_double_exp in He by lia.
    rewrite !bool_decide_true in He by lia.
    by replace (n - 52 + 52) with n in He by lia. }
  destruct (decide (n = 63)) as [->|]; [done|].
  by rewrite !testbit_double_high by (done || lia).
Qed.

Lemma same_fields_refl x : same_fields x x = true.
Proof.
  unfold same_fields. by rewrite bool_decide_true, !Z.eqb_refl.
Qed.

Lemma same_fields_sym x y : same_fields x y = same_fields y x.
Proof.
  unfold same_fields. rewrite (Z.eqb_sym (double_exp x)), (Z.eqb_sym (double_frac x)).
  do 2 f_equal. apply bool_decide_ext. naive_solver.
Qed.

Lemma same_fields_iff x y :
  is_double x -> is_double y -> same_fields x y = true <-> x = y.
Proof.
  intros. split; [by apply same_fields_eq|]. intros ->. apply same_fields_refl.
Qed.

(** ** The comparison is a partial equivalence *)

Lemma feq_sym x y : feq x y = feq y x.
Proof.
  unfold feq. rewrite same_fields_sym, (andb_comm (is_zero x)).
  by rewrite (andb_comm (negb (is_nan x))).
Qed.

Lemma feq_refl x : feq x x = negb (is_nan x).
Proof.
  unfold feq. rewrite same_fields_refl, orb_true_r. by destruct (is_nan x).
Qed.

Lemma feq_nan_l x y : is_nan x = true -> feq x y = false.
Proof. unfold feq. by intros ->. Qed.

Lemma feq_nan_r x y : is_nan y = true -> feq x y = false.
Proof. rewrite feq_sym. apply feq_nan_l. Qed.

Lemma feq_true_iff x y :
  feq x y = true <->
  is_nan x = false /\ is_nan y = false /\
  (is_zero x = true /\ is_zero y = true \/ same_fields x y = true).
Proof.
  unfold feq.
  rewrite !andb_true_iff, !negb_true_iff, orb_true_iff, andb_true_iff. tauto.
Qed.

Lemma feq_not_nan x y : feq x y = true -> is_nan x = false /\ is_nan y = false.
Proof. rewrite feq_true_iff. tauto. Qed.

Lemma is_zero_same_fields x y :
  is_zero x = true -> same_fields x y = true -> is_zero y = true.
Proof.
  unfold is_zero, same_fields.
  rewrite !andb_true_iff, !Z.eqb_eq. intros [??] [[_ ?] ?]. lia.
Qed.

Lemma same_fields_trans x y z :
  same_fields x y = true -> same_fields y z = true -> same_fields x z = true.
Proof.
  unfold same_fields. rewrite !andb_true_iff, !bool_decide_eq_true, !Z.eqb_eq.
  intros [[??]?] [[??]?]. split_and!; congruence.
Qed.

Lemma feq_trans x y z : feq x y = true -> feq y z = true -> feq x z = true.
Proof.
  rewrite !feq_true_iff.
  intros (Hx & _ & [[Zx Zy]|Hxy]) (_ & Hz & [[Zy' Zz]|Hyz]); split_and!; try done.
  - by left.
  - left. eauto using is_zero_same_fields.
  - left. rewrite same_fields_sym in Hxy. eauto using is_zero_same_fields.
  - right. by eapply same_fields_trans.
Qed.

(** ** The byte view and the zeros *)

Lemma double_byte_range d i : is_u8 (double_byte d i).
Proof.
  unfold is_u8, double_byte. change 255 with (Z.ones 8).
  rewrite Z.land_ones by done. apply Z.mod_pos_bound. done.
Qed.

Lemma double_bytes_length d : length (double_bytes d) = 8%nat.
Proof. done. Qed.

Lemma lookup_double_bytes d (i : nat) :
  (i < 8)%nat -> double_bytes d !! i = Some (double_byte d (Z.of_nat i)).
Proof.
  intros. unfold double_bytes.
  do 8 (destruct i as [|i]; [done|]). lia.
Qed.

Lemma is_double_land d : is_double d <-> Z.land d (Z.ones 64) = d.
Proof.
  unfold is_double. rewrite Z.land_ones by done. split.
  - intros. by apply Z.mod_small.
  - intros <-. by apply Z.mod_pos_bound.
Qed.

Lemma le_combine_bytes_from d k n :
  0 <= k ->
  le_combine (bytes_from d k n) = Z.land (Z.shiftr d (8 * k)) (Z.ones (8 * Z.of_nat n)).
Proof.
  revert k. induction n as [|n IH]; intros k Hk.
  { cbn [bytes_from le_combine]. change (Z.ones (8 * Z.of_nat 0)) with 0. by rewrite Z.land_0_r. }
  cbn [bytes_from le_combine]. rewrite IH by lia. unfold double_byte.
  change 255 with (Z.ones 8). apply Z.bits_inj'. intros i Hi.
  rewrite Z.lor_spec, !Z.land_spec, Z.shiftl_spec, !Z.shiftr_spec by lia.
  rewrite !Z.testbit_ones_nonneg by lia.
  destruct (decide (i < 8)).
  - rewrite (Z.testbit_neg_r _ (i - 8)) by lia.
    rewrite orb_false_r. f_equal.
    destruct (Z.ltb_spec i 8), (Z.ltb_spec i (8 * Z.of_nat (S n))); lia || done.
  - rewrite Z.land_spec, Z.shiftr_spec, Z.testbit_ones_nonneg by lia.
    replace (i - 8 + 8 * (k + 1)) with (i + 8 * k) by lia.
    destruct (Z.ltb_spec i 8), (Z.ltb_spec (i - 8) (8 * Z.of_nat n)), (Z.ltb_spec i (8 * Z.of_nat (S n)));
      try lia; by rewrite ?andb_false_r, ?andb_true_r.
Qed.

(** C39. The eight bytes that [hashFunction] reads through the union
    [double_u] determine the double: put together again, least
    significant byte first, they give its bit pattern. *)
Theorem le_combine_double_bytes d : is_double d -> le_combine (double_bytes d) = d.
Proof.
  rewrite is_double_land. intros Hd.
  change (double_bytes d) with (bytes_from d 0 8).
  rewrite le_combine_bytes_from by done. by rewrite Z.shiftr_0_r.
Qed.

Lemma is_zero_iff d :
  is_double d -> is_zero d = true <-> d = pos_zero \/ d = neg_zero.
Proof.
  intros Hd. split.
  - unfold is_zero. rewrite andb_true_iff, !Z.eqb_eq. intros [He Hf].
    destruct (double_sign d) eqn:Hs; [right|left];
      apply same_fields_eq; try done; unfold same_fields;
      rewrite Hs, He, Hf; done.
  - by intros [->| ->].
Qed.

Lemma le_combine_double_bytes_witness : le_combine (double_bytes d_3_14) = d_3_14.
Proof. apply (le_combine_double_bytes d_3_14). unfold is_double, d_3_14. lia. Defined.
