(* ===== verification/FloatSpec.v ===== *)
(** * FloatSpec: the comparison of doubles against the Standard Library

    [feq] of Double is written on the fields of the bit pattern.  The
    Standard Library specifies IEEE-754 arithmetic on [spec_float], the
    numbers themselves, and [SFeqb] is its equality, the one the primitive
    floats of the prover implement.  [decode] reads a bit pattern as such
    a number; this file shows that it yields numbers of the binary64
    format only and that [feq] is [SFeqb] on them, so that the [==] of the
    model is the [==] of IEEE-754 and not a definition of its own. *)

From Stdlib Require Import Floats.SpecFloat.
From S2P Require Import Prelude Word32 Double.

(** The number a bit pattern denotes, as the Standard Library describes
    binary64 numbers: a zero, an infinity, a NaN, or a sign, a mantissa and
    an exponent. *)
Definition decode (d : double) : spec_float :=
  let s := double_sign d in
  let e := double_exp d in
  let m := double_frac d in
  if e =? 0 then
    match m with
    | Zpos p => S754_finite s p (-1074)
    | _ => S754_zero s
    end
  else if e =? 2047 then
    if m =? 0 then S754_infinity s else S754_nan
  else
    match m + 2 ^ 52 with
    | Zpos p => S754_finite s p (e - 1075)
    | _ => S754_nan
    end.

(** The shapes [decode] gives, with what they say of the fields. *)
Inductive decoded (d : double) : spec_float -> Prop :=
| decoded_nan :
    is_nan d = true -> decoded d S754_nan
| decoded_zero :
    is_nan d = false -> is_zero d = true -> decoded d (S754_zero (double_sign d))
| decoded_infinity :
    is_nan d = false -> is_zero d = false ->
    double_exp d = 2047 -> decoded d (S754_infinity (double_sign d))
| decoded_finite m e :
    is_nan d = false -> is_zero d = false -> double_exp d <> 2047 ->
    Zpos m = (if double_exp d =? 0 then double_frac d else double_frac d + 2 ^ 52) ->
    e = (if double_exp d =? 0 then -1074 else double_exp d - 1075) ->
    decoded d (S754_finite (double_sign d) m e).

Section decode.
Implicit Types (x y d : double) (s : bool) (m : positive) (e : Z).

Lemma double_exp_range d : 0 <= double_exp d < 2 ^ 11.
Proof. by apply land_ones_range. Qed.

Lemma double_frac_range d : 0 <= double_frac d < 2 ^ 52.
Proof. by apply land_ones_range. Qed.

Lemma SFeqb_finite s1 m1 e1 s2 m2 e2 :
  SFeqb (S754_finite s1 m1 e1) (S754_finite s2 m2 e2)
  = bool_decide (s1 = s2) && (e1 =? e2) && (m1 =? m2)%positive.
Proof.
  unfold SFeqb, SFcompare. rewrite Pos.compare_cont_spec. cbn [Pos.switch_Eq].
  destruct (Z.compare_spec e1 e2) as [->|?|?], (Pos.compare_spec m1 m2) as [->|?|?],
    s1, s2; cbn;
    rewrite ?Z.eqb_refl, ?Pos.eqb_refl, ?(proj2 (Z.eqb_neq _ _)),
      ?(proj2 (Pos.eqb_neq _ _)) by lia; done.
Qed.

Lemma decode_decoded d : decoded d (decode d).
Proof.
  pose proof (double_exp_range d) as He. pose proof (double_frac_range d) as Hm.
  unfold decode.
  destruct (double_exp d =? 0) eqn:E0; [|destruct (double_exp d =? 2047) eqn:E1].
  - apply Z.eqb_eq in E0 as E0'.
    destruct (double_frac d) as [|p|p] eqn:Em; [| |lia];
      [apply decoded_zero|apply decoded_finite];
      unfold is_nan, is_zero; rewrite ?E0, ?Em, ?E0'; done.
  - apply Z.eqb_eq in E1 as E1'. destruct (double_frac d =? 0) eqn:Em;
      [apply decoded_infinity|apply decoded_nan];
      unfold is_nan, is_zero; rewrite ?E0, ?E1, ?Em; done.
  - destruct (double_frac d + 2 ^ 52) as [|p|p] eqn:Em; [lia| |lia].
    apply decoded_finite; unfold is_nan, is_zero; rewrite ?E0, ?E1; try done.
    by apply Z.eqb_neq.
Qed.

(** Two finite numbers have the same fields when they have the same
    sign, mantissa and exponent: a subnormal number and a normal one
    with the same exponent differ in the leading bit of the mantissa. *)
Lemma same_fields_finite x y m e m' e' :
  decoded x (S754_finite (double_sign x) m e) ->
  decoded y (S754_finite (double_sign y) m' e') ->
  same_fields x y
  = bool_decide (double_sign x = double_sign y) && (e =? e') && (m =? m')%positive.
Proof.
  pose proof (double_frac_range x). pose proof (double_frac_range y).
  pose proof (double_exp_range x). pose proof (double_exp_range y).
  inversion 1 as [| | |? ? _ _ _ Hm He]; inversion 1 as [| | |? ? _ _ _ Hm' He'].
  unfold same_fields. apply eq_true_iff_eq.
  rewrite !andb_true_iff, !Z.eqb_eq, Pos.eqb_eq.
  destruct (Z.eqb_spec (double_exp x) 0), (Z.eqb_spec (double_exp y) 0);
    assert (double_exp x = double_exp y /\ double_frac x = double_frac y
            <-> e = e' /\ m = m') by lia; tauto.
Qed.

(** Numbers with the same fields are of the same kind. *)
Lemma same_fields_kind x y :
  same_fields x y = true ->
  double_exp x = double_exp y /\ is_zero x = is_zero y.
Proof.
  unfold same_fields, is_zero. rewrite !andb_true_iff, !Z.eqb_eq.
  by intros [[_ ->] ->].
Qed.

(** [feq] is the equality of binary64 numbers of the Standard Library's
    specification of floating-point arithmetic, which is what the
    primitive floats of the prover and the [==] of C implement. *)
Theorem feq_SFeqb x y : feq x y = SFeqb (decode x) (decode y).
Proof.
  destruct (decode_decoded x) as [Hn|Hn Hz|Hn Hz He|m e Hn Hz He Hm ->],
    (decode_decoded y) as [Hn'|Hn' Hz'|Hn' Hz' He'|m' e' Hn' Hz' He' Hm' ->];
    unfold feq; rewrite Hn, ?Hn', ?Hz, ?Hz'; try done; cbn [negb andb orb];
    try (rewrite SFeqb_finite; apply same_fields_finite; by constructor);
    try (destruct (same_fields x y) eqn:Hs;
         [apply same_fields_kind in Hs as [? ?]; congruence|];
         by destruct (double_sign x), (double_sign y)).
  unfold same_fields. rewrite He, He', Z.eqb_refl.
  assert (double_frac x = 0 /\ double_frac y = 0) as [-> ->].
  { unfold is_nan in *. rewrite He, Z.eqb_refl in Hn. rewrite He', Z.eqb_refl in Hn'.
    split; apply Z.eqb_eq;
      [by destruct (double_frac x =? 0)|by destruct (double_frac y =? 0)]. }
  by destruct (double_sign x), (double_sign y).
Qed.

(** The numbers [decode] gives are those of the binary64 format: their
    mantissas are canonical and their exponents in range. *)
Lemma digits2_pos_size m : digits2_pos m = Pos.size m.
Proof. induction m as [m IH|m IH|]; cbn [digits2_pos Pos.size]; by rewrite ?IH. Qed.

(** The size of a mantissa, from the powers of two around it. *)
Lemma size_bounds m k :
  0 <= k -> 2 ^ k <= Z.pos m < 2 ^ (k + 1) -> Z.pos (Pos.size m) = k + 1.
Proof.
  intros Hk [Hlo Hhi]. pose proof (Pos.size_gt m) as Hgt.
  pose proof (Pos.size_le m) as Hle.
  apply Pos2Z.pos_lt_pos in Hgt. apply Pos2Z.pos_le_pos in Hle.
  rewrite Pos2Z.inj_pow in Hgt, Hle. change (Z.pos m~0) with (2 * Z.pos m) in Hle.
  set (s := Z.pos (Pos.size m)) in *.
  destruct (Z.lt_trichotomy s (k + 1)) as [Hlt|[->|Hlt]]; [|done|].
  - pose proof (Z.pow_le_mono_r 2 s k ltac:(lia) ltac:(lia)). lia.
  - pose proof (Z.pow_le_mono_r 2 (k + 2) s ltac:(lia) ltac:(lia)) as Hp.
    rewrite Z.pow_add_r in Hp, Hhi by lia. change (2 ^ 1) with 2 in Hhi.
    change (2 ^ 2) with 4 in Hp. lia.
Qed.

Lemma size_below m k : 0 <= k -> Z.pos m < 2 ^ k -> Z.pos (Pos.size m) <= k.
Proof.
  intros Hk Hhi. pose proof (Pos.size_le m) as Hle.
  apply Pos2Z.pos_le_pos in Hle. rewrite Pos2Z.inj_pow in Hle.
  change (Z.pos m~0) with (2 * Z.pos m) in Hle.
  set (s := Z.pos (Pos.size m)) in *. destruct (Z.le_gt_cases s k) as [|Hlt]; [done|].
  pose proof (Z.pow_le_mono_r 2 (k + 1) s ltac:(lia) ltac:(lia)) as Hp.
  rewrite Z.pow_add_r in Hp by lia. change (2 ^ 1) with 2 in Hp. lia.
Qed.

Lemma decode_valid d : valid_binary 53 1024 (decode d) = true.
Proof.
  pose proof (double_exp_range d) as He. pose proof (double_frac_range d) as Hm.
  destruct (decode_decoded d) as [| | |m e _ _ Hne Hpos ->]; try done.
  unfold valid_binary, bounded, canonical_mantissa, fexp, emin.
  rewrite digits2_pos_size. apply andb_true_iff. rewrite Z.eqb_eq, Z.leb_le.
  destruct (Z.eqb_spec (double_exp d) 0).
  - pose proof (size_below m 52 ltac:(lia) ltac:(lia)). lia.
  - rewrite (size_bounds m 52) by lia. lia.
Qed.

End decode.
