(* ===== verification/Hasher.v ===== *)
(** * Hasher: what the table asks of a hash function

    The table calls [hashFunction(key)] and keeps the low 16 bits.  It
    relies on nothing but the call returning, and returning the same word
    for the same key, which a function of the model does by construction.
    [Hasher] is the function, [HasherOk] the promise that it returns; the
    table's theorems are proved against this interface and the file Hash
    provides the instances. *)

From S2P Require Import Prelude Double.

Class Hasher : Type := hasher : Z -> result Z.

Class HasherOk (H : Hasher) : Prop :=
  hasher_returns : forall key : double, exists h, hasher key = Ok h.

(** The hash of a key as a value; it is what [hasher] returns when the
    hasher is known to return. *)
Definition hash_of `{H : Hasher} (key : double) : Z :=
  match hasher key with
  | Ok h => h
  | Err _ => 0
  end.

Lemma hasher_hash_of `{!HasherOk H} key : hasher key = Ok (hash_of key).
Proof. unfold hash_of. by destruct (hasher_returns key) as [h ->]. Qed.
