(* ===== verification/Hash.v ===== *)
(** * Hash: [rotateLeft], [rotateRight] and [hashFunction]

    The definitions follow [src/hashmap.c] lines 10-32 expression by
    expression, over an arbitrary shift semantics ([ShiftSem] of Word32).
    The theorems show what the function computes under each semantics:
    under ISO C every call is undefined, under the x86 semantics the call
    returns, the result is a 32-bit word whose two halves are equal, and
    the rotations are rotations of the 32-bit word by the count modulo 32. *)

From S2P Require Import Prelude Word32 Double Hasher.
From coqutil Require Import Z.bitblast.

Definition HASH_SALT : Z := 0x79812793.

Section hash.
Context {sem : ShiftSem}.

(** [(n << amount) | (n >> ((sizeof(n) * 8)-amount))]: the second count is
    computed in [size_t]. *)
Definition rotateLeft (n amount : Z) : result Z :=
  a ← shl n amount;
  b ← shr n (wrap64 (UINT_BITS - amount));
  Ok (Z.lor a b).

Definition rotateRight (n amount : Z) : result Z :=
  a ← shr n amount;
  b ← shl n (wrap64 (UINT_BITS - amount));
  Ok (Z.lor a b).

(** The value of [modify] for the byte [b = data[i]]; [data[i]+i] is an
    [unsigned int] sum, the byte being promoted before the addition. *)
Definition hash_modify (b i : Z) : result Z :=
  if decide (Z.land b 1 <> 0)
  then r ← rotateLeft (wrap32 (b + i)) 3; rotateRight r (wrap32 (i * 8))
  else r ← rotateRight (wrap32 (b + i)) 3; rotateLeft r (wrap32 (i * 5)).

(** [result ^= modify ^ (modify >> i*11) ^ (modify << i*3)] *)
Definition hash_mix (res modify i : Z) : result Z :=
  a ← shr modify (wrap32 (i * 11));
  b ← shl modify (wrap32 (i * 3));
  Ok (Z.lxor res (Z.lxor (Z.lxor modify a) b)).

(** The loop [for (i = 0; i < 8; i++)], from the state [(i, res)], where
    [res] is the variable [result] of the source. *)
Fixpoint hash_loop (fuel : nat) (data : list Z) (i res : Z) : result Z :=
  if decide (i < 8) then
    match fuel with
    | O => Err OutOfFuel
    | S fuel =>
        b ← result_of_option OutOfBounds (data !! Z.to_nat i);
        modify ← hash_modify b i;
        res ← hash_mix res modify i;
        hash_loop fuel data (wrap32 (i + 1)) res
    end
  else Ok res.

Definition hashFunction (value : double) : result Z :=
  let data := double_bytes value in
  res ← hash_loop 8 data 0 0;
  let res := wrap32 (res + HASH_SALT) in
  r ← rotateRight res 16;
  Ok (Z.lxor res r).

End hash.

(** The hash under the x86 semantics, as a total function. *)
Definition hash32 (value : double) : Z :=
  match hashFunction (sem := shift_x86) value with
  | Ok h => h
  | Err _ => 0
  end.

(** The hash function as a [Hasher], for each shift semantics. *)
#[export] Instance hashFunction_hasher (sem : ShiftSem) : Hasher :=
  hashFunction (sem := sem).

(** ** Values *)

Example hash32_d_3_14 : hash32 d_3_14 = 0x6c3f6c3f.
Proof. vm_compute. reflexivity. Qed.

Example hash32_pos_zero : hash32 pos_zero = 0xa67da67d.
Proof. vm_compute. reflexivity. Qed.

Example hash32_neg_zero : hash32 neg_zero = 0xb7fdb7fd.
Proof. vm_compute. reflexivity. Qed.

Example hash32_quiet_nan : hash32 quiet_nan = 0x47a547a5.
Proof. vm_compute. reflexivity. Qed.

(** ** Ranges: every lawful semantics yields 32-bit words *)

Section hash_ok.
Context `{!ShiftSemOk sem}.

Lemma rotateLeft_range n k r : is_u32 n -> rotateLeft n k = Ok r -> is_u32 r.
Proof.
  intros Hn H. unfold rotateLeft in H. inv_bind.
  eauto using shl_range, shr_range with hm.
Qed.

Lemma rotateRight_range n k r : is_u32 n -> rotateRight n k = Ok r -> is_u32 r.
Proof.
  intros Hn H. unfold rotateRight in H. inv_bind.
  eauto using shl_range, shr_range with hm.
Qed.

Lemma hash_modify_range b i m : hash_modify b i = Ok m -> is_u32 m.
Proof.
  unfold hash_modify. intros Hm. case_decide; inv_bind.
  - eapply rotateRight_range; [|done].
    eapply rotateLeft_range; [apply wrap32_range|done].
  - eapply rotateLeft_range; [|done].
    eapply rotateRight_range; [apply wrap32_range|done].
Qed.

Lemma hash_mix_range res modify i r :
  is_u32 res -> is_u32 modify -> hash_mix res modify i = Ok r -> is_u32 r.
Proof.
  intros ?? H. unfold hash_mix in H. inv_bind.
  eauto 6 using shl_range, shr_range with hm.
Qed.

Lemma hash_loop_range fuel data i res r :
  is_u32 res -> hash_loop fuel data i res = Ok r -> is_u32 r.
Proof.
  revert i res. induction fuel as [|fuel IH]; intros i res Hres; cbn [hash_loop];
    intros Hl; case_decide; simplify_result; try done.
  inv_bind. eauto using hash_mix_range, hash_modify_range.
Qed.

Lemma hashFunction_is_u32 value h : hashFunction value = Ok h -> is_u32 h.
Proof.
  unfold hashFunction. intros H. inv_bind.
  apply lxor_u32; eauto using rotateRight_range with hm.
Qed.

End hash_ok.

(** ** The rotations under the x86 semantics *)

Lemma rotateLeft_x86 n k :
  is_u32 n -> rotateLeft (sem := shift_x86) n k = Ok (rol32 n k).
Proof.
  intros Hn. unfold rotateLeft, rol32. cbn [shl shr shift_x86 mbind result_bind].
  f_equal. rewrite wrap64_mod_bits. unfold UINT_BITS.
  destruct (decide (k mod 32 = 0)) as [E|E].
  - replace ((32 - k) mod 32) with 0 by mod_lia. rewrite E.
    rewrite Z.shiftl_0_r, Z.shiftr_0_r, Z.sub_0_r, shiftr_u32_32 by done.
    rewrite wrap32_small by done. by rewrite Z.lor_diag, Z.lor_0_r.
  - by replace ((32 - k) mod 32) with (32 - k mod 32) by mod_lia.
Qed.

Lemma rotateRight_x86 n k :
  is_u32 n -> rotateRight (sem := shift_x86) n k = Ok (ror32 n k).
Proof.
  intros Hn. unfold rotateRight, ror32. cbn [shl shr shift_x86 mbind result_bind].
  f_equal. rewrite wrap64_mod_bits. unfold UINT_BITS.
  destruct (decide (k mod 32 = 0)) as [E|E].
  - replace ((32 - k) mod 32) with 0 by mod_lia. rewrite E.
    rewrite Z.shiftl_0_r, Z.shiftr_0_r, Z.sub_0_r.
    rewrite wrap32_small by done.
    replace (wrap32 (Z.shiftl n 32)) with 0; [by rewrite Z.lor_diag, Z.lor_0_r|].
    unfold wrap32. rewrite Z.shiftl_mul_pow2 by done. by rewrite Z.mod_mul.
  - by replace ((32 - k) mod 32) with (32 - k mod 32) by mod_lia.
Qed.

(** ** The rotations where ISO C defines them *)

Section rotate_defined.
Context `{!ShiftSemOk sem}.

Lemma rotateLeft_defined n k :
  is_u32 n -> 0 < k < 32 -> rotateLeft n k = Ok (rol32 n k).
Proof.
  intros Hn Hk. unfold rotateLeft, rol32, wrap64, UINT_BITS.
  rewrite (Z.mod_small (32 - k)), (Z.mod_small k) by lia.
  by rewrite shl_defined, shr_defined by (unfold UINT_BITS; lia).
Qed.

Lemma rotateRight_defined n k :
  is_u32 n -> 0 < k < 32 -> rotateRight n k = Ok (ror32 n k).
Proof.
  intros Hn Hk. unfold rotateRight, ror32, wrap64, UINT_BITS.
  rewrite (Z.mod_small (32 - k)), (Z.mod_small k) by lia.
  by rewrite shl_defined, shr_defined by (unfold UINT_BITS; lia).
Qed.

End rotate_defined.

Lemma rotateLeft_iso_0 n : rotateLeft (sem := shift_iso) n 0 = Err UndefinedShift.
Proof. reflexivity. Qed.

Lemma rotateRight_iso_0 n : rotateRight (sem := shift_iso) n 0 = Err UndefinedShift.
Proof. reflexivity. Qed.

Lemma hash_modify_iso_0 b : hash_modify (sem := shift_iso) b 0 = Err UndefinedShift.
Proof.
  unfold hash_modify. case_decide.
  - by rewrite rotateLeft_defined by (apply wrap32_range || lia).
  - by rewrite rotateRight_defined by (apply wrap32_range || lia).
Qed.

(** ** Errors of the loop *)

Section hash_errors.
Context `{!ShiftSemOk sem}.

Lemma rotateLeft_error n k e : rotateLeft n k = Err e -> e = UndefinedShift.
Proof.
  unfold rotateLeft. intros H.
  apply rbind_Err_inv in H as [H|(a & _ & H)]; [by eapply shl_error|].
  apply rbind_Err_inv in H as [H|(b & _ & H)]; [by eapply shr_error|done].
Qed.

Lemma rotateRight_error n k e : rotateRight n k = Err e -> e = UndefinedShift.
Proof.
  unfold rotateRight. intros H.
  apply rbind_Err_inv in H as [H|(a & _ & H)]; [by eapply shr_error|].
  apply rbind_Err_inv in H as [H|(b & _ & H)]; [by eapply shl_error|done].
Qed.

Lemma hash_modify_error b i e : hash_modify b i = Err e -> e = UndefinedShift.
Proof.
  unfold hash_modify. intros H. case_decide;
    apply rbind_Err_inv in H as [H|(a & _ & H)];
    eauto using rotateLeft_error, rotateRight_error.
Qed.

Lemma hash_mix_error res modify i e : hash_mix res modify i = Err e -> e = UndefinedShift.
Proof.
  unfold hash_mix. intros H.
  apply rbind_Err_inv in H as [H|(a & _ & H)]; [by eapply shr_error|].
  apply rbind_Err_inv in H as [H|(b & _ & H)]; [by eapply shl_error|done].
Qed.

Lemma hash_loop_error fuel data i res e :
  0 <= i -> (Z.to_nat (8 - i) <= fuel)%nat -> length data = 8%nat ->
  hash_loop fuel data i res = Err e -> e = UndefinedShift.
Proof.
  revert i res. induction fuel as [|fuel IH]; intros i res Hi Hfuel Hlen;
    cbn [hash_loop]; intros H; case_decide; try done; [lia|].
  destruct (lookup_lt_is_Some_2 data (Z.to_nat i)) as [b Hb]; [lia|].
  rewrite Hb in H. cbn [result_of_option mbind result_bind] in H.
  apply rbind_Err_inv in H as [H|(m & _ & H)]; [by eapply hash_modify_error|].
  apply rbind_Err_inv in H as [H|(r & _ & H)]; [by eapply hash_mix_error|].
  eapply (IH (wrap32 (i + 1))); [| |done|done]; rewrite wrap32_small; unfold is_u32; lia.
Qed.

Lemma hashFunction_error value e : hashFunction value = Err e -> e = UndefinedShift.
Proof.
  unfold hashFunction. intros H.
  apply rbind_Err_inv in H as [H|(r & _ & H)].
  { eapply hash_loop_error; [| | |done]; done. }
  apply rbind_Err_inv in H as [H|(b & _ & H)]; [by eapply rotateRight_error|done].
Qed.

End hash_errors.

(** ** A total semantics makes the hash total *)

Section hash_total.
Context `{!ShiftTotal sem}.

Lemma shl_Ok n k : exists r, shl n k = Ok r.
Proof. apply is_Ok_inv, shl_total. Qed.

Lemma shr_Ok n k : exists r, shr n k = Ok r.
Proof. apply is_Ok_inv, shr_total. Qed.

Lemma rotateLeft_total n k : exists r, rotateLeft n k = Ok r.
Proof.
  unfold rotateLeft.
  destruct (shl_Ok n k) as [a ->], (shr_Ok n (wrap64 (UINT_BITS - k))) as [b ->].
  by eexists.
Qed.

Lemma rotateRight_total n k : exists r, rotateRight n k = Ok r.
Proof.
  unfold rotateRight.
  destruct (shr_Ok n k) as [a ->], (shl_Ok n (wrap64 (UINT_BITS - k))) as [b ->].
  by eexists.
Qed.

Lemma hash_modify_total b i : exists m, hash_modify b i = Ok m.
Proof.
  unfold hash_modify. case_decide.
  - destruct (rotateLeft_total (wrap32 (b + i)) 3) as [r ->]. apply rotateRight_total.
  - destruct (rotateRight_total (wrap32 (b + i)) 3) as [r ->]. apply rotateLeft_total.
Qed.

Lemma hash_mix_total res modify i : exists r, hash_mix res modify i = Ok r.
Proof.
  unfold hash_mix.
  destruct (shr_Ok modify (wrap32 (i * 11))) as [a ->].
  destruct (shl_Ok modify (wrap32 (i * 3))) as [b ->]. by eexists.
Qed.

Lemma hash_loop_total fuel data i res :
  0 <= i -> (Z.to_nat (8 - i) <= fuel)%nat -> length data = 8%nat ->
  exists r, hash_loop fuel data i res = Ok r.
Proof.
  revert i res. induction fuel as [|fuel IH]; intros i res Hi Hfuel Hlen;
    cbn [hash_loop]; case_decide; try by eexists. { lia. }
  destruct (lookup_lt_is_Some_2 data (Z.to_nat i)) as [b ->]; [lia|].
  cbn [result_of_option mbind result_bind].
  destruct (hash_modify_total b i) as [m ->]. cbn [mbind result_bind].
  destruct (hash_mix_total res m i) as [r ->]. cbn [mbind result_bind].
  apply IH; [| |done]; rewrite wrap32_small; unfold is_u32; lia.
Qed.

Lemma hashFunction_total value : exists h, hashFunction value = Ok h.
Proof.
  unfold hashFunction.
  destruct (hash_loop_total 8 (double_bytes value) 0 0) as [r ->]; [done..|].
  cbn [mbind result_bind].
  destruct (rotateRight_total (wrap32 (r + HASH_SALT)) 16) as [b ->]. by eexists.
Qed.

End hash_total.

Lemma hashFunction_x86 value : hashFunction (sem := shift_x86) value = Ok (hash32 value).
Proof.
  unfold hash32. by destruct (hashFunction_total (sem := shift_x86) value) as [h ->].
Qed.

Lemma hash32_u32 value : is_u32 (hash32 value).
Proof. apply (hashFunction_is_u32 (sem := shift_x86) value), hashFunction_x86. Qed.

(** ** The last step folds the word onto itself *)

Lemma fold16_halves r :
  is_u32 r ->
  Z.shiftr (Z.lxor r (ror32 r 16)) 16 = Z.land (Z.lxor r (ror32 r 16)) (Z.ones 16).
Proof.
  intros Hr. apply Z.bits_inj'. intros i Hi.
  rewrite Z.shiftr_spec, Z.land_spec, !Z.lxor_spec, Z.testbit_ones_nonneg by lia.
  destruct (decide (i < 16)).
  - rewrite !ror32_spec by (done || lia).
    replace ((i + 16 + 16) mod 32) with i by mod_lia.
    replace ((i + 16) mod 32) with (i + 16) by mod_lia.
    destruct (Z.ltb_spec i 16); [|lia]. by rewrite andb_true_r, xorb_comm.
  - rewrite !(testbit_u32_high _ (i + 16)) by (auto with hm || lia).
    destruct (Z.ltb_spec i 16); [lia|]. by rewrite andb_false_r.
Qed.

Section hash_final.
Context `{!ShiftSemOk sem}.

Lemma hashFunction_final value h :
  hashFunction value = Ok h -> exists r, is_u32 r /\ h = Z.lxor r (ror32 r 16).
Proof.
  unfold hashFunction. intros H. inv_bind.
  match goal with
  | Hr : rotateRight _ 16 = Ok _ |- _ =>
      rewrite rotateRight_defined in Hr by (apply wrap32_range || lia)
  end.
  simplify_result. eauto using wrap32_range.
Qed.

End hash_final.

(** ** The hash function returns under a total semantics *)

#[export] Instance hashFunction_hasher_ok `{!ShiftTotal sem} :
  HasherOk (hashFunction_hasher sem).
Proof. intros key. apply hashFunction_total. Qed.

Lemma hash_of_x86 key : hash_of (H := hashFunction_hasher shift_x86) key = hash32 key.
Proof. done. Qed.

(** * Properties of the hash function *)

(** Under ISO C every call of [hashFunction] is undefined: in the first
    iteration ([i = 0]) the rotation by [i*8] or [i*5] shifts a 32-bit word
    by 32 places, whatever the key. *)
Lemma hashFunction_iso_undefined value :
  hashFunction (sem := shift_iso) value = Err UndefinedShift.
Proof.
  unfold hashFunction. cbn [hash_loop]. rewrite decide_True by done.
  change (double_bytes value !! Z.to_nat 0) with (Some (double_byte value 0)).
  cbn [result_of_option mbind result_bind]. by rewrite hash_modify_iso_0.
Qed.

(** C15. Under the x86 semantics [hashFunction] returns for every bit
    pattern (NaNs and infinities included), the loop needs no more than its
    eight iterations, and the result is a 32-bit word. *)
Theorem hashFunction_x86_returns value :
  exists h, hashFunction (sem := shift_x86) value = Ok h /\ is_u32 h.
Proof.
  exists (hash32 value). split; [apply hashFunction_x86|apply hash32_u32].
Qed.

(** C36. Under the x86 semantics [rotateLeft n amount] is the rotation of
    the 32-bit word [n] by [amount mod 32] places towards the most
    significant bit, for every count, zero and counts above 31 included:
    bit [i] of the result is bit [(i - amount) mod 32] of [n]. *)
Theorem rotateLeft_x86_rotates n amount :
  is_u32 n ->
  exists r, rotateLeft (sem := shift_x86) n amount = Ok r /\ is_u32 r /\
    forall i, 0 <= i < 32 -> Z.testbit r i = Z.testbit n ((i - amount) mod 32).
Proof.
  intros Hn. exists (rol32 n amount). split_and!.
  - by apply rotateLeft_x86.
  - by apply rol32_u32.
  - intros i Hi. by apply rol32_spec.
Qed.

Lemma rotateLeft_x86_rotates_witness :
  exists r, rotateLeft (sem := shift_x86) 0x80000001 33 = Ok r /\ is_u32 r /\
    forall i, 0 <= i < 32 -> Z.testbit r i = Z.testbit 0x80000001 ((i - 33) mod 32).
Proof. apply (rotateLeft_x86_rotates 0x80000001 33). by vm_compute. Defined.

(** C37. Under the x86 semantics [rotateRight n amount] is the rotation of
    [n] by [amount mod 32] places towards the least significant bit: bit
    [i] of the result is bit [(i + amount) mod 32] of [n]. *)
Theorem rotateRight_x86_rotates n amount :
  is_u32 n ->
  exists r, rotateRight (sem := shift_x86) n amount = Ok r /\ is_u32 r /\
    forall i, 0 <= i < 32 -> Z.testbit r i = Z.testbit n ((i + amount) mod 32).
Proof.
  intros Hn. exists (ror32 n amount). split_and!.
  - by apply rotateRight_x86.
  - by apply ror32_u32.
  - intros i Hi. by apply ror32_spec.
Qed.

Lemma rotateRight_x86_rotates_witness :
  exists r, rotateRight (sem := shift_x86) 0x80000001 40 = Ok r /\ is_u32 r /\
    forall i, 0 <= i < 32 -> Z.testbit r i = Z.testbit 0x80000001 ((i + 40) mod 32).
Proof. apply (rotateRight_x86_rotates 0x80000001 40). by vm_compute. Defined.

(** C38. Whatever the (lawful) shift semantics, a hash that is returned
    has equal halves: the last step [result ^ rotateRight(result, 16)]
    makes the upper 16 bits a copy of the lower 16, so the 32-bit hash
    carries 16 bits of information. *)
Theorem hashFunction_halves `{!ShiftSemOk sem} value h :
  hashFunction value = Ok h -> Z.shiftr h 16 = Z.land h 0xFFFF.
Proof.
  intros (r & Hr & ->)%hashFunction_final. by apply fold16_halves.
Qed.

Lemma hashFunction_halves_witness :
  Z.shiftr 0x6c3f6c3f 16 = Z.land 0x6c3f6c3f 0xFFFF.
Proof.
  apply (hashFunction_halves (sem := shift_x86) d_3_14). by vm_compute.
Defined.
