(* ===== verification/HashSpec.v ===== *)
(** * HashSpec: the hash as the specification describes it

    The specification gives the hash as a fold over the eight bytes of
    the key, with rotations and shifts whose counts are taken modulo 32
    and with the sum [byte[i] + i] reduced to eight bits.  [ref_hash] is
    that fold, with the sum as a parameter: [sum32] is the sum the code
    computes, an [unsigned int]; [sum8] is the sum the specification
    asks for.  Under the x86 semantics [hashFunction] computes
    [ref_hash sum32]; the two sums agree on the keys none of whose bytes
    overflows when its index is added, and in a round whose byte does
    overflow the code mixes in another value than the specification. *)

From S2P Require Import Prelude Word32 Double Hasher Hash.

Definition sum32 (b i : Z) : Z := b + i.

Definition sum8 (b i : Z) : Z := (b + i) mod 2 ^ 8.

Section reference.
Context (sum : Z -> Z -> Z).

Definition ref_modify (b i : Z) : Z :=
  if decide (Z.land b 1 <> 0) then ror32 (rol32 (sum b i) 3) (i * 8)
  else rol32 (ror32 (sum b i) 3) (i * 5).

Definition ref_mix (res modify i : Z) : Z :=
  Z.lxor res
    (Z.lxor (Z.lxor modify (Z.shiftr modify ((i * 11) mod 32)))
            (wrap32 (Z.shiftl modify ((i * 3) mod 32)))).

(** The rounds for the bytes [bs], the first of which has index [i]. *)
Fixpoint ref_rounds (bs : list Z) (i res : Z) : Z :=
  match bs with
  | [] => res
  | b :: bs => ref_rounds bs (i + 1) (ref_mix res (ref_modify b i) i)
  end.

Definition ref_hash (value : double) : Z :=
  let res := wrap32 (ref_rounds (double_bytes value) 0 0 + HASH_SALT) in
  Z.lxor res (ror32 res 16).

End reference.

Section facts.

Lemma double_bytes_u8 value : Forall is_u8 (double_bytes value).
Proof.
  apply Forall_forall. intros b (i & -> & _)%list_elem_of_fmap.
  apply double_byte_range.
Qed.

Lemma hash_modify_sum32 b i :
  is_u8 b -> 0 <= i < 8 ->
  hash_modify (sem := shift_x86) b i = Ok (ref_modify sum32 b i).
Proof.
  intros Hb Hi. unfold hash_modify, ref_modify, sum32, is_u8 in *.
  assert (Hsum : is_u32 (b + i)) by (unfold is_u32; lia).
  rewrite !wrap32_small by (unfold is_u32; lia). case_decide.
  - rewrite (rotateLeft_x86 _ _ Hsum). cbn [mbind result_bind].
    apply rotateRight_x86. by apply rol32_u32.
  - rewrite (rotateRight_x86 _ _ Hsum). cbn [mbind result_bind].
    apply rotateLeft_x86. by apply ror32_u32.
Qed.

Lemma hash_mix_x86 res modify i :
  0 <= i < 8 ->
  hash_mix (sem := shift_x86) res modify i = Ok (ref_mix res modify i).
Proof.
  intros Hi. unfold hash_mix, ref_mix. cbn [shl shr shift_x86 mbind result_bind].
  by rewrite (wrap32_small (i * 11)), (wrap32_small (i * 3)) by (unfold is_u32; lia).
Qed.

Lemma hash_loop_x86 fuel data bs i res :
  Forall is_u8 bs -> 0 <= i -> i + Z.of_nat (length bs) = 8 ->
  (length bs <= fuel)%nat -> drop (Z.to_nat i) data = bs ->
  hash_loop (sem := shift_x86) fuel data i res = Ok (ref_rounds sum32 bs i res).
Proof.
  revert fuel i res. induction bs as [|b bs IH]; intros fuel i res Hu8 Hi Hlen Hfuel Hdrop.
  { cbn [length] in Hlen. destruct fuel; cbn [hash_loop]; by rewrite decide_False by lia. }
  cbn [length] in Hlen, Hfuel. destruct fuel as [|fuel]; [lia|].
  cbn [hash_loop ref_rounds]. rewrite decide_True by lia.
  apply Forall_cons in Hu8 as [Hb Hu8].
  assert (Hlook : data !! Z.to_nat i = Some b).
  { rewrite <- (Nat.add_0_r (Z.to_nat i)), <- lookup_drop, Hdrop. done. }
  rewrite Hlook. cbn [result_of_option mbind result_bind].
  rewrite hash_modify_sum32 by (done || lia). cbn [mbind result_bind].
  rewrite hash_mix_x86 by lia. cbn [mbind result_bind].
  rewrite wrap32_small by (unfold is_u32; lia).
  apply IH; [done|lia|lia|lia|].
  replace (Z.to_nat (i + 1)) with (S (Z.to_nat i)) by lia.
  rewrite (drop_S _ _ _ Hlook) in Hdrop. by injection Hdrop.
Qed.

End facts.

Lemma hash_rounds_x86 value :
  hash_loop (sem := shift_x86) 8 (double_bytes value) 0 0
  = Ok (ref_rounds sum32 (double_bytes value) 0 0).
Proof.
  apply hash_loop_x86; [apply double_bytes_u8|lia|rewrite double_bytes_length; lia..|].
  apply drop_0.
Qed.

(** C33. Under the x86 semantics [hashFunction] computes the hash of the
    specification, with rotations and shifts by counts modulo 32, on the
    32-bit sums [data[i] + i]. *)
Theorem hashFunction_x86_reference value :
  hashFunction (sem := shift_x86) value = Ok (ref_hash sum32 value).
Proof.
  unfold hashFunction, ref_hash. cbv zeta.
  rewrite (rbind_Ok _ _ _ (hash_rounds_x86 value)).
  rewrite (rbind_Ok _ _ _ (rotateRight_x86 _ 16 (wrap32_range _))).
  exact eq_refl.
Qed.

Lemma ref_rounds_ext sum sum' bs i res :
  (forall k b, bs !! k = Some b -> sum b (i + Z.of_nat k) = sum' b (i + Z.of_nat k)) ->
  ref_rounds sum bs i res = ref_rounds sum' bs i res.
Proof.
  revert i res. induction bs as [|b bs IH]; intros i res Hsum; [done|].
  cbn [ref_rounds]. unfold ref_modify.
  pose proof (Hsum 0%nat b eq_refl) as H0. rewrite Z.add_0_r in H0. rewrite H0.
  apply IH. intros k b' Hk. replace (i + 1 + Z.of_nat k) with (i + Z.of_nat (S k)) by lia.
  by apply Hsum.
Qed.

(** C34. On a key none of whose bytes overflows eight bits when its
    index is added, [hashFunction] computes, under the x86 semantics, the
    hash of the specification with its 8-bit sums. *)
Theorem hashFunction_x86_spec value :
  (forall (i : nat) b, double_bytes value !! i = Some b -> b + Z.of_nat i < 2 ^ 8) ->
  hashFunction (sem := shift_x86) value = Ok (ref_hash sum8 value).
Proof.
  intros Hsmall. rewrite hashFunction_x86_reference. unfold ref_hash.
  rewrite (ref_rounds_ext sum8 sum32 (double_bytes value) 0 0); [done|].
  intros k b Hk. unfold sum8, sum32. apply Z.mod_small.
  pose proof (proj1 (Forall_lookup _ _) (double_bytes_u8 value) k b Hk) as [? _].
  specialize (Hsmall k b Hk). lia.
Qed.

Lemma hashFunction_x86_spec_witness :
  hashFunction (sem := shift_x86) d_3_14 = Ok (ref_hash sum8 d_3_14).
Proof.
  apply (hashFunction_x86_spec d_3_14).
  intros [|[|[|[|[|[|[|[|i]]]]]]]] b [= <-]; reflexivity.
Defined.

(** The rotations of [modify] lose nothing of the sum. *)
Lemma ref_modify_inj sum sum' b i :
  is_u32 (sum b i) -> is_u32 (sum' b i) ->
  ref_modify sum b i = ref_modify sum' b i -> sum b i = sum' b i.
Proof.
  unfold ref_modify. intros Hs Hs' Heq. case_decide.
  - apply (f_equal (fun x => ror32 (rol32 x (i * 8)) 3)) in Heq.
    by rewrite !rol32_ror32, !ror32_rol32 in Heq by auto with hm.
  - apply (f_equal (fun x => rol32 (ror32 x (i * 5)) 3)) in Heq.
    by rewrite !ror32_rol32, !rol32_ror32 in Heq by auto with hm.
Qed.

(** C35. Round by round, the code and the specification part exactly
    where a byte overflows: for the byte [b] at index [i], the value of
    [modify] that [hashFunction] computes under the x86 semantics is the
    one of the specification, with its 8-bit sum, if and only if
    [b + i] fits in eight bits. *)
Theorem hash_modify_spec_iff b i :
  is_u8 b -> 0 <= i < 8 ->
  hash_modify (sem := shift_x86) b i = Ok (ref_modify sum8 b i) <-> b + i < 2 ^ 8.
Proof.
  intros Hb Hi. rewrite hash_modify_sum32 by done. unfold is_u8 in Hb. split.
  - intros [= Heq]. apply ref_modify_inj in Heq; unfold sum32, sum8, is_u32 in *;
      [|lia|mod_lia]. pose proof (Z.mod_pos_bound (b + i) (2 ^ 8)). lia.
  - intros Hlt. unfold ref_modify, sum32, sum8. by rewrite Z.mod_small by lia.
Qed.

Lemma hash_modify_spec_iff_witness :
  hash_modify (sem := shift_x86) 0xff 1 = Ok (ref_modify sum8 0xff 1) <-> 0xff + 1 < 2 ^ 8.
Proof. apply (hash_modify_spec_iff 0xff 1); unfold is_u8; lia. Defined.

(** The hashes part too: for the key with bytes [00 ff 00 ...] the code
    hashes the sum [0xff + 1 = 0x100], the specification the sum 0. *)
Example hashFunction_differs_at_overflow :
  hashFunction (sem := shift_x86) 0xff00 = Ok 0xa629a629 /\
  ref_hash sum8 0xff00 = 0xa651a651.
Proof. split; reflexivity. Qed.
