(* ===== verification/Heap.v ===== *)
(** * Heap: the allocator and the storage it hands out

    [src/hashmap.c] calls [calloc], [realloc] and [free] and reads and
    writes the arrays of [bucketItem_t] they return.  The heap of the model
    is a finite map from block locations to blocks; a block is a list of
    8-byte cells, each holding a double or an indeterminate value ([None]).
    A pointer is [NULL] or the location of a block; a freed block is
    removed from the map, so a pointer that outlives its block dangles.
    Every access checks what C requires of it and stops with an [error]
    otherwise.  The allocator fails when the request exceeds the bytes it
    has left ([hp_avail]), and then returns [NULL] as the C functions do. *)

From S2P Require Import Prelude Word32 Double.

Abbreviation loc := Z (only parsing).

Inductive pointer : Type :=
| NULL
| Ptr (l : loc).

#[export] Instance pointer_eq_dec : EqDecision pointer.
Proof. solve_decision. Defined.

Abbreviation cell := (option Z) (only parsing).

Record heap : Type := mkHeap {
  hp_blocks : gmap Z (list (option Z));  (* the live blocks *)
  hp_next : loc;                         (* the next fresh location *)
  hp_avail : Z;                          (* bytes the allocator has left *)
}.

Definition CELL_BYTES : Z := 8.

Definition cells_of_bytes (bytes : Z) : nat := Z.to_nat (bytes / CELL_BYTES).

Definition bytes_of_cells (cells : list (option Z)) : Z :=
  CELL_BYTES * Z.of_nat (length cells).

(** ** The allocator *)

(** [reserve bytes] takes [bytes] from what the allocator has left and
    says whether it could; a negative [bytes] gives storage back. *)
Definition reserve (bytes : Z) : M heap bool := fun h =>
  if decide (bytes <= hp_avail h)
  then Ok (true, mkHeap (hp_blocks h) (hp_next h) (hp_avail h - bytes))
  else Ok (false, h).

Definition new_block (cells : list (option Z)) : M heap pointer := fun h =>
  Ok (Ptr (hp_next h),
      mkHeap (<[hp_next h := cells]> (hp_blocks h)) (hp_next h + 1) (hp_avail h)).

(** [calloc(nmemb, size)]: zero-filled storage, or [NULL]. *)
Definition calloc (nmemb size : Z) : M heap pointer :=
  let bytes := nmemb * size in
  let* ok := reserve bytes in
  if ok then new_block (replicate (cells_of_bytes bytes) (Some 0)) else ret NULL.

(** [free(p)]: nothing for [NULL]; undefined for a pointer whose block is
    not live. *)
Definition free (p : pointer) : M heap unit := fun h =>
  match p with
  | NULL => Ok (tt, h)
  | Ptr l =>
      match hp_blocks h !! l with
      | None => Err DanglingPointer
      | Some cells =>
          Ok (tt, mkHeap (delete l (hp_blocks h)) (hp_next h)
                         (hp_avail h + bytes_of_cells cells))
      end
  end.

(** [realloc(p, size)]: a block of [size] bytes that starts with the old
    contents (cut to the new size; what lies beyond the old contents is
    indeterminate), the old block being released; or [NULL], the old block
    being left as it is. *)
Definition realloc (p : pointer) (size : Z) : M heap pointer := fun h =>
  match p with
  | NULL =>
      (let* ok := reserve size in
       if ok then new_block (replicate (cells_of_bytes size) None) else ret NULL) h
  | Ptr l =>
      match hp_blocks h !! l with
      | None => Err DanglingPointer
      | Some cells =>
          (let* ok := reserve (size - bytes_of_cells cells) in
           if ok then
             let* _ := (fun h' => Ok (tt, mkHeap (delete l (hp_blocks h'))
                                              (hp_next h') (hp_avail h'))) in
             new_block (resize (cells_of_bytes size) None cells)
           else ret NULL) h
      end
  end.

(** ** Reading and writing a cell

    [load p i] is the read of the double at cell [i] of the block [p]
    points to, [store p i v] the write. *)

Definition block_of (p : pointer) : M heap (list (option Z)) := fun h =>
  match p with
  | NULL => Err NullDeref
  | Ptr l =>
      match hp_blocks h !! l with
      | None => Err DanglingPointer
      | Some cells => Ok (cells, h)
      end
  end.

Definition load (p : pointer) (i : Z) : M heap Z :=
  let* cells := block_of p in
  if decide (0 <= i < Z.of_nat (length cells)) then
    match cells !! Z.to_nat i with
    | Some (Some v) => ret v
    | _ => raise UninitRead
    end
  else raise OutOfBounds.

Definition store (p : pointer) (i : Z) (v : Z) : M heap unit :=
  let* cells := block_of p in
  if decide (0 <= i < Z.of_nat (length cells)) then
    fun h =>
      match p with
      | NULL => Err NullDeref
      | Ptr l =>
          Ok (tt, mkHeap (<[l := <[Z.to_nat i := Some v]> cells]> (hp_blocks h))
                         (hp_next h) (hp_avail h))
      end
  else raise OutOfBounds.

(** The heap at program start: no block, [avail] bytes to hand out. *)
Definition empty_heap (avail : Z) : heap := mkHeap ∅ 1 avail.

(** ** Views of the heap *)

(** The block a pointer points to, when it points to a live one. *)
Definition block (h : heap) (p : pointer) : option (list (option Z)) :=
  match p with
  | NULL => None
  | Ptr l => hp_blocks h !! l
  end.

Definition set_block (h : heap) (l : loc) (cells : list (option Z)) : heap :=
  mkHeap (<[l := cells]> (hp_blocks h)) (hp_next h) (hp_avail h).

Definition remove_block (h : heap) (l : loc) (bytes : Z) : heap :=
  mkHeap (delete l (hp_blocks h)) (hp_next h) (hp_avail h + bytes).

(** Every block lies below the next fresh location. *)
Definition heap_ok (h : heap) : Prop :=
  forall l cells, hp_blocks h !! l = Some cells -> l < hp_next h.

(** ** Equations of [load] and [store] *)

Section heap_lemmas.
Implicit Types (h : heap) (l : loc) (cells : list (option Z)) (i v : Z).

Lemma load_null i h : load NULL i h = Err NullDeref.
Proof. done. Qed.

Lemma load_dangling l i h :
  hp_blocks h !! l = None -> load (Ptr l) i h = Err DanglingPointer.
Proof. intros Hl. unfold load, bind, block_of. by rewrite Hl. Qed.

Lemma load_out_of_bounds l cells i h :
  hp_blocks h !! l = Some cells -> ~ (0 <= i < Z.of_nat (length cells)) ->
  load (Ptr l) i h = Err OutOfBounds.
Proof.
  intros Hl Hi. unfold load, bind, block_of. rewrite Hl. by rewrite decide_False.
Qed.

Lemma load_Ok l cells i v h :
  hp_blocks h !! l = Some cells -> 0 <= i ->
  cells !! Z.to_nat i = Some (Some v) ->
  load (Ptr l) i h = Ok (v, h).
Proof.
  intros Hl Hi Hv. unfold load, bind, block_of. rewrite Hl.
  apply lookup_lt_Some in Hv as Hlen. rewrite decide_True by lia. by rewrite Hv.
Qed.

Lemma load_Ok_inv p i v h h' :
  load p i h = Ok (v, h') ->
  h' = h /\ exists cells, block h p = Some cells /\ 0 <= i
            /\ cells !! Z.to_nat i = Some (Some v).
Proof.
  unfold load, bind, block_of, block. destruct p as [|l]; [done|].
  destruct (hp_blocks h !! l) as [cells|] eqn:Hl; [|done].
  case_decide; [|done].
  destruct (cells !! Z.to_nat i) as [[w|]|] eqn:Hv; try done.
  intros [= -> ->]. split; [done|]. exists cells. split_and!; [done|lia|done].
Qed.

Lemma store_null i v h : store NULL i v h = Err NullDeref.
Proof. done. Qed.

Lemma store_dangling l i v h :
  hp_blocks h !! l = None -> store (Ptr l) i v h = Err DanglingPointer.
Proof. intros Hl. unfold store, bind, block_of. by rewrite Hl. Qed.

Lemma store_out_of_bounds l cells i v h :
  hp_blocks h !! l = Some cells -> ~ (0 <= i < Z.of_nat (length cells)) ->
  store (Ptr l) i v h = Err OutOfBounds.
Proof.
  intros Hl Hi. unfold store, bind, block_of. rewrite Hl. by rewrite decide_False.
Qed.

Lemma store_Ok l cells i v h :
  hp_blocks h !! l = Some cells -> 0 <= i < Z.of_nat (length cells) ->
  store (Ptr l) i v h = Ok (tt, set_block h l (<[Z.to_nat i := Some v]> cells)).
Proof.
  intros Hl Hi. unfold store, bind, block_of. rewrite Hl. by rewrite decide_True.
Qed.

Lemma free_Ok l cells h :
  hp_blocks h !! l = Some cells ->
  free (Ptr l) h = Ok (tt, remove_block h l (bytes_of_cells cells)).
Proof. intros Hl. unfold free. by rewrite Hl. Qed.

Lemma free_dangling l h :
  hp_blocks h !! l = None -> free (Ptr l) h = Err DanglingPointer.
Proof. intros Hl. unfold free. by rewrite Hl. Qed.

Lemma blocks_set_block h l cells l' :
  hp_blocks (set_block h l cells) !! l'
  = if decide (l = l') then Some cells else hp_blocks h !! l'.
Proof. unfold set_block. cbn [hp_blocks]. apply lookup_insert. Qed.

Lemma blocks_set_block_eq h l cells :
  hp_blocks (set_block h l cells) !! l = Some cells.
Proof. rewrite blocks_set_block. by rewrite decide_True. Qed.

Lemma blocks_set_block_ne h l cells l' :
  l <> l' -> hp_blocks (set_block h l cells) !! l' = hp_blocks h !! l'.
Proof. intros. rewrite blocks_set_block. by rewrite decide_False. Qed.

Lemma blocks_remove_block h l bytes l' :
  hp_blocks (remove_block h l bytes) !! l'
  = if decide (l = l') then None else hp_blocks h !! l'.
Proof. unfold remove_block. cbn [hp_blocks]. apply lookup_delete. Qed.

Lemma set_block_set_block h l cells cells' :
  set_block (set_block h l cells) l cells' = set_block h l cells'.
Proof. unfold set_block. cbn. by rewrite insert_insert_eq. Qed.

Lemma set_block_id h l cells :
  hp_blocks h !! l = Some cells -> set_block h l cells = h.
Proof.
  intros Hl. destruct h as [bs nx av]. unfold set_block. cbn in *.
  by rewrite insert_id.
Qed.

Lemma remove_block_set_block h l cells bytes :
  remove_block (set_block h l cells) l bytes = remove_block h l bytes.
Proof. unfold remove_block, set_block. cbn. by rewrite delete_insert_eq. Qed.

End heap_lemmas.

(** ** Equations of the allocator *)

Lemma calloc_Ok nmemb size h :
  nmemb * size <= hp_avail h ->
  calloc nmemb size h
  = Ok (Ptr (hp_next h),
        mkHeap (<[hp_next h := replicate (cells_of_bytes (nmemb * size)) (Some 0)]>
                  (hp_blocks h))
               (hp_next h + 1) (hp_avail h - nmemb * size)).
Proof. intros. unfold calloc, bind, reserve. by rewrite decide_True. Qed.

Lemma calloc_fails nmemb size h :
  hp_avail h < nmemb * size -> calloc nmemb size h = Ok (NULL, h).
Proof. intros. unfold calloc, bind, reserve. rewrite decide_False by lia. done. Qed.

Lemma realloc_Ok l cells size h :
  hp_blocks h !! l = Some cells -> size - bytes_of_cells cells <= hp_avail h ->
  realloc (Ptr l) size h
  = Ok (Ptr (hp_next h),
        mkHeap (<[hp_next h := resize (cells_of_bytes size) None cells]>
                  (delete l (hp_blocks h)))
               (hp_next h + 1) (hp_avail h - (size - bytes_of_cells cells))).
Proof.
  intros Hl ?. unfold realloc. rewrite Hl. unfold bind, reserve.
  by rewrite decide_True.
Qed.

Lemma realloc_fails l cells size h :
  hp_blocks h !! l = Some cells -> hp_avail h < size - bytes_of_cells cells ->
  realloc (Ptr l) size h = Ok (NULL, h).
Proof.
  intros Hl ?. unfold realloc. rewrite Hl. unfold bind, reserve.
  by rewrite decide_False by lia.
Qed.

Lemma realloc_dangling l size h :
  hp_blocks h !! l = None -> realloc (Ptr l) size h = Err DanglingPointer.
Proof. intros Hl. unfold realloc. by rewrite Hl. Qed.
