(* ===== verification/Table.v ===== *)
(** * Table: the bucket table of [src/hashmap.c]

    [hashmapCreate], [hashmapRead], [hashmapDelete] and [hashmapWrite],
    statement by statement, in the monad [M heap].  The table object is a
    value ([hashmap_t]) that each operation takes and, when it changes it,
    returns; the item arrays of the buckets live in the heap.  The array
    [buckets] of 65536 zero-initialised [bucket_t] is a finite map from
    index to bucket in which an absent index stands for the all-zero
    bucket.  An operation reads the selected bucket into a value, works on
    it, and puts it back when it returns: the C code updates it through the
    pointer [bucket], and nothing else reads it in between. *)

From S2P Require Import Prelude Word32 Double Hasher Heap.

Definition HASHMAP_BUCKET_MASK : Z := 0xFFFF.
Definition HASHMAP_BUCKET_INITSIZE : Z := 8.

(** Sizes of the structures, in bytes (LP64). *)
Definition sizeof_bucketItem_t : Z := 16.
Definition sizeof_bucket_t : Z := 16.
Definition sizeof_hashmap_t : Z := 16.

Record bucketItem_t : Type := mkItem {
  it_key : Z;
  it_value : Z;
}.

Record bucket_t : Type := mkBucket {
  b_items : pointer;
  b_length : Z;
  b_itemCount : Z;
}.

Record hashmap_t : Type := mkHashmap {
  h_buckets : option (gmap Z bucket_t);  (* [None]: the pointer is null *)
  h_itemCount : Z;
}.

#[export] Instance bucketItem_eq_dec : EqDecision bucketItem_t.
Proof. solve_decision. Defined.

#[export] Instance bucket_eq_dec : EqDecision bucket_t.
Proof. solve_decision. Defined.

(** The bucket made of zero bytes, as [calloc] leaves it. *)
Definition zero_bucket : bucket_t := mkBucket NULL 0 0.

(** Cells of [items[i].key] and [items[i].value] in the block of [items]. *)
Definition key_index (i : Z) : Z := 2 * i.
Definition value_index (i : Z) : Z := 2 * i + 1.

(** What the loop of [hashmapWrite] leaves: it returned from the function
    after overwriting a value, or it ended with the index [i]. *)
Inductive scan : Type :=
| Overwritten
| NotFound (i : Z).

(** [bucket = &(hashmap->buckets[hash])], read as a value. *)
Definition get_bucket (hashmap : hashmap_t) (hash : Z) : M heap bucket_t :=
  match h_buckets hashmap with
  | None => raise NullDeref
  | Some buckets =>
      if decide (0 <= hash <= HASHMAP_BUCKET_MASK)
      then ret (default zero_bucket (buckets !! hash))
      else raise OutOfBounds
  end.

(** The bucket put back into [hashmap->buckets[hash]]: what the stores
    through the pointer [bucket] that an operation made ([bucket->items],
    [bucket->length], [bucket->itemCount]) leave in the array. *)
Definition set_bucket (hashmap : hashmap_t) (hash : Z) (bucket : bucket_t)
    : hashmap_t :=
  mkHashmap (insert hash bucket <$> h_buckets hashmap) (h_itemCount hashmap).

Definition hashmapCreate : M heap hashmap_t :=
  let* hashmap := reserve (1 * sizeof_hashmap_t) in
  if hashmap : bool then
    let* buckets := reserve ((HASHMAP_BUCKET_MASK + 1) * sizeof_bucket_t) in
    ret (mkHashmap (if buckets : bool then Some ∅ else None) 0)
  else raise NullDeref.

Section table.
Context {H : Hasher}.

(** [hashFunction(key) & HASHMAP_BUCKET_MASK] *)
Definition bucket_index (key : double) : M heap Z :=
  let* hash := lift_result (hasher key) in
  ret (Z.land hash HASHMAP_BUCKET_MASK).

(** The loop of [hashmapRead], from index [i]. *)
Fixpoint hashmapRead_loop (fuel : nat) (bucket : bucket_t) (key : double)
    (i : Z) : M heap Z :=
  if decide (i < b_itemCount bucket) then
    match fuel with
    | O => raise OutOfFuel
    | S fuel =>
        let* k := load (b_items bucket) (key_index i) in
        if feq k key then load (b_items bucket) (value_index i)
        else hashmapRead_loop fuel bucket key (wrap32 (i + 1))
    end
  else ret key.

Definition hashmapRead (hashmap : hashmap_t) (key : double) : M heap Z :=
  let* hash := bucket_index key in
  let* bucket := get_bucket hashmap hash in
  if decide (b_items bucket = NULL) then ret key
  else hashmapRead_loop (Z.to_nat (b_itemCount bucket)) bucket key 0.

(** The loop of [hashmapDelete], from index [i]; it goes on after a match,
    with the decremented count. *)
Fixpoint hashmapDelete_loop (fuel : nat) (bucket : bucket_t) (key : double)
    (i : Z) : M heap bucket_t :=
  if decide (i < b_itemCount bucket) then
    match fuel with
    | O => raise OutOfFuel
    | S fuel =>
        let* k := load (b_items bucket) (key_index i) in
        if feq k key then
          let bucket := mkBucket (b_items bucket) (b_length bucket)
                                 (wrap32 (b_itemCount bucket - 1)) in
          if decide (b_itemCount bucket = 0) then
            free (b_items bucket);;
            hashmapDelete_loop fuel bucket key (wrap32 (i + 1))
          else
            let item := b_itemCount bucket in
            let* k' := load (b_items bucket) (key_index item) in
            store (b_items bucket) (key_index i) k';;
            let* v' := load (b_items bucket) (value_index item) in
            store (b_items bucket) (value_index i) v';;
            hashmapDelete_loop fuel bucket key (wrap32 (i + 1))
        else hashmapDelete_loop fuel bucket key (wrap32 (i + 1))
    end
  else ret bucket.

Definition hashmapDelete (hashmap : hashmap_t) (key : double)
    : M heap hashmap_t :=
  let* hash := bucket_index key in
  let* bucket := get_bucket hashmap hash in
  if decide (b_items bucket = NULL) then ret hashmap
  else
    let* bucket :=
      hashmapDelete_loop (Z.to_nat (b_itemCount bucket)) bucket key 0 in
    ret (set_bucket hashmap hash bucket).

(** The loop of [hashmapWrite], from index [i]. *)
Fixpoint hashmapWrite_loop (fuel : nat) (bucket : bucket_t)
    (key value : double) (i : Z) : M heap scan :=
  if decide (i < b_itemCount bucket) then
    match fuel with
    | O => raise OutOfFuel
    | S fuel =>
        let* k := load (b_items bucket) (key_index i) in
        if feq k key then
          store (b_items bucket) (value_index i) value;;
          ret Overwritten
        else hashmapWrite_loop fuel bucket key value (wrap32 (i + 1))
    end
  else ret (NotFound i).

Definition hashmapWrite (hashmap : hashmap_t) (key value : double)
    : M heap hashmap_t :=
  if feq key value then hashmapDelete hashmap key
  else
    let* hash := bucket_index key in
    let* bucket := get_bucket hashmap hash in
    let* bucket :=
      if decide (b_items bucket = NULL) then
        let* items := calloc HASHMAP_BUCKET_INITSIZE sizeof_bucketItem_t in
        ret (mkBucket items HASHMAP_BUCKET_INITSIZE (b_itemCount bucket))
      else ret bucket in
    let* found :=
      hashmapWrite_loop (Z.to_nat (b_itemCount bucket)) bucket key value 0 in
    match found with
    | Overwritten => ret (set_bucket hashmap hash bucket)
    | NotFound i =>
        let* bucket :=
          if decide (b_itemCount bucket = b_length bucket) then
            let* items :=
              realloc (b_items bucket) (wrap32 (b_length bucket * 2)) in
            ret (mkBucket items (wrap32 (b_length bucket * 2))
                          (b_itemCount bucket))
          else ret bucket in
        store (b_items bucket) (key_index i) key;;
        store (b_items bucket) (value_index i) value;;
        ret (set_bucket hashmap hash
               (mkBucket (b_items bucket) (b_length bucket)
                         (wrap32 (b_itemCount bucket + 1))))
    end.

End table.
