(* ===== verification/Items.v ===== *)
(** * Items: the items of a bucket as a list

    The array [items] of a bucket, up to its count, is a list of
    [bucketItem_t].  This file holds the layout of such a list in storage
    ([encode_items]) and the loops of [src/hashmap.c] as functions on the
    list: [find_value] for the loop of [hashmapRead], [find_item] and
    [overwrite_item] and [append_item] for the scan and the two updates
    of [hashmapWrite], with [write_items], what a write that returns leaves,
    [delete_items] for the loop of [hashmapDelete], with [delete_first],
    the removal that stops at the first match.  Keys are compared by [feq],
    the [==] of C. *)

From S2P Require Import Prelude Word32 Double Hasher Heap Table.

(** ** Layout of items in a block *)

Fixpoint encode_items (its : list bucketItem_t) : list (option Z) :=
  match its with
  | [] => []
  | it :: its => Some (it_key it) :: Some (it_value it) :: encode_items its
  end.

(** ** The loops as functions on the list of items *)

(** An item matches a key when [items[i].key == key] holds. *)
Definition matches (key : double) (it : bucketItem_t) : Prop :=
  feq (it_key it) key = true.

#[export] Instance matches_dec key it : Decision (matches key it).
Proof. unfold matches. apply _. Defined.

(** The first item that matches, with its index. *)
Definition find_item (key : double) (its : list bucketItem_t)
    : option (nat * bucketItem_t) :=
  list_find (matches key) its.

(** What [hashmapRead] returns for a bucket with these items. *)
Definition find_value (key : double) (its : list bucketItem_t) : Z :=
  match find_item key its with
  | Some (_, it) => it_value it
  | None => key
  end.

(** The loop on the items [its] of a bucket and the cells [rest] that
    follow them, from index [j]: the items it leaves and what follows them,
    or [None] when the count reached zero and the block was freed. *)
Fixpoint delete_items (fuel : nat) (key : double) (its : list bucketItem_t)
    (rest : list (option Z)) (j : nat)
    : option (list bucketItem_t * list (option Z)) :=
  match fuel with
  | O => Some (its, rest)
  | S fuel =>
      match its !! j with
      | None => Some (its, rest)
      | Some it =>
          if feq (it_key it) key then
            match last its with
            | None => Some (its, rest)
            | Some it' =>
                let n := pred (length its) in
                if decide (n = 0%nat) then None
                else delete_items fuel key (<[j := it']> (take n its))
                                  (encode_items [it'] ++ rest) (S j)
            end
          else delete_items fuel key its rest (S j)
      end
  end.

(** No two stored keys are equal under [==]. *)
Definition unique_keys (its : list bucketItem_t) : Prop :=
  forall i j it1 it2,
    its !! i = Some it1 -> its !! j = Some it2 ->
    feq (it_key it1) (it_key it2) = true -> i = j.

(** Swap-removal of the item at index [i]: the last item takes its place
    and the count drops by one; the block is freed when nothing is left. *)
Definition remove_at (i : nat) (its : list bucketItem_t) (rest : list (option Z))
    : option (list bucketItem_t * list (option Z)) :=
  match last its with
  | None => Some (its, rest)
  | Some it' =>
      let n := pred (length its) in
      if decide (n = 0%nat) then None
      else Some (<[i := it']> (take n its), encode_items [it'] ++ rest)
  end.

(** Deletion that stops at the first match. *)
Definition delete_first (key : double) (its : list bucketItem_t)
    (rest : list (option Z)) : option (list bucketItem_t * list (option Z)) :=
  match find_item key its with
  | None => Some (its, rest)
  | Some (i, _) => remove_at i its rest
  end.

(** [bucket->items[i].value = value], for the item [it] at index [i]. *)
Definition overwrite_item (i : nat) (it : bucketItem_t) (value : double)
    (its : list bucketItem_t) : list bucketItem_t :=
  <[i := mkItem (it_key it) value]> its.

(** The new item stored behind the others and the count incremented. *)
Definition append_item (key value : double) (its : list bucketItem_t)
    : list bucketItem_t :=
  its ++ [mkItem key value].

(** The items a [hashmapWrite] that returns leaves: the value of the
    first match overwritten, or the new item appended.  Whether the write
    returns is not decided here; [abs_write] of Abstract says when a
    bucket has room. *)
Definition write_items (key value : double) (its : list bucketItem_t)
    : list bucketItem_t :=
  match find_item key its with
  | Some (i, it) => overwrite_item i it value its
  | None => append_item key value its
  end.

(** The items [delete_first] leaves; [None] when none is left. *)
Definition remove_first (key : double) (its : list bucketItem_t)
    : option (list bucketItem_t) :=
  fst <$> delete_first key its [].

(** Where the item at index [a] after a swap-removal at [i] came from,
    [n] being the index of the last item. *)
Definition moved (i n a : nat) : nat := if decide (a = i) then n else a.

(** ** Lemmas on the layout *)

Section layout.
Implicit Types (its : list bucketItem_t) (it : bucketItem_t) (j : nat).

Lemma length_encode_items its : length (encode_items its) = (2 * length its)%nat.
Proof. induction its as [|it its IH]; cbn [encode_items length]; lia. Qed.

Lemma encode_items_app its1 its2 :
  encode_items (its1 ++ its2) = encode_items its1 ++ encode_items its2.
Proof. induction its1 as [|it its1 IH]; cbn; [done|]. by rewrite IH. Qed.

Lemma lookup_encode_key its j it :
  its !! j = Some it -> encode_items its !! (2 * j)%nat = Some (Some (it_key it)).
Proof.
  revert j. induction its as [|it' its IH]; intros [|j] Hj; try done.
  - by injection Hj as ->.
  - replace (2 * S j)%nat with (S (S (2 * j))) by lia. cbn. by apply IH.
Qed.

Lemma lookup_encode_value its j it :
  its !! j = Some it ->
  encode_items its !! (2 * j + 1)%nat = Some (Some (it_value it)).
Proof.
  revert j. induction its as [|it' its IH]; intros [|j] Hj; try done.
  - by injection Hj as ->.
  - replace (2 * S j + 1)%nat with (S (S (2 * j + 1))) by lia. cbn. by apply IH.
Qed.

Lemma encode_items_insert_value its j it v :
  its !! j = Some it ->
  <[(2 * j + 1)%nat := Some v]> (encode_items its)
  = encode_items (<[j := mkItem (it_key it) v]> its).
Proof.
  revert j. induction its as [|it' its IH]; intros [|j] Hj; try done.
  - by injection Hj as ->.
  - replace (2 * S j + 1)%nat with (S (S (2 * j + 1))) by lia.
    cbn [encode_items insert list_insert]. by rewrite IH.
Qed.

Lemma encode_items_insert_key its j it k :
  its !! j = Some it ->
  <[(2 * j)%nat := Some k]> (encode_items its)
  = encode_items (<[j := mkItem k (it_value it)]> its).
Proof.
  revert j. induction its as [|it' its IH]; intros [|j] Hj; try done.
  - by injection Hj as ->.
  - replace (2 * S j)%nat with (S (S (2 * j))) by lia.
    cbn [encode_items insert list_insert]. by rewrite IH.
Qed.

End layout.

(** ** Equations of the list functions *)

Section pure.
Implicit Types (its : list bucketItem_t) (it : bucketItem_t) (key : Z).

Lemma find_item_cons key it its :
  find_item key (it :: its)
  = if feq (it_key it) key then Some (0%nat, it)
    else prod_map S id <$> find_item key its.
Proof.
  unfold find_item. cbn [list_find].
  destruct (feq (it_key it) key) eqn:E.
  - by rewrite decide_True.
  - rewrite decide_False; [done|]. unfold matches. by rewrite E.
Qed.

Lemma find_value_nil key : find_value key [] = key.
Proof. done. Qed.

Lemma find_value_cons key it its :
  find_value key (it :: its)
  = if feq (it_key it) key then it_value it else find_value key its.
Proof.
  unfold find_value. rewrite find_item_cons.
  destruct (feq (it_key it) key); [done|].
  by destruct (find_item key its) as [[??]|].
Qed.

End pure.

(** ** Matches under pairwise different keys *)

Section pure_facts.
Implicit Types (its : list bucketItem_t) (it : bucketItem_t) (key : Z).

Lemma find_item_Some key its i it :
  find_item key its = Some (i, it) <->
  its !! i = Some it /\ matches key it /\
  forall j it', its !! j = Some it' -> (j < i)%nat -> ~ matches key it'.
Proof. apply list_find_Some. Qed.

Lemma find_item_None key its :
  find_item key its = None <-> forall it, it ∈ its -> ~ matches key it.
Proof. unfold find_item. rewrite list_find_None, Forall_forall. done. Qed.

Lemma matches_same key it it' :
  matches key it -> matches key it' -> feq (it_key it) (it_key it') = true.
Proof.
  unfold matches. intros Hm Hm'. rewrite feq_sym in Hm'. by eapply feq_trans.
Qed.

Lemma matches_unique key its i j it it' :
  unique_keys its -> its !! i = Some it -> its !! j = Some it' ->
  matches key it -> matches key it' -> i = j.
Proof. intros Hu Hi Hj Hm Hm'. eapply Hu; eauto using matches_same. Qed.

Lemma find_item_unique key its i it :
  unique_keys its -> its !! i = Some it -> matches key it ->
  find_item key its = Some (i, it).
Proof.
  intros Hu Hi Hm. apply find_item_Some. split_and!; [done..|].
  intros j it' Hj Hlt Hm'. pose proof (matches_unique _ _ _ _ _ _ Hu Hi Hj Hm Hm'). lia.
Qed.

Lemma find_value_unique key its i it :
  unique_keys its -> its !! i = Some it -> matches key it ->
  find_value key its = it_value it.
Proof. intros. unfold find_value. by erewrite find_item_unique. Qed.

Lemma find_value_None key its :
  (forall it, it ∈ its -> ~ matches key it) -> find_value key its = key.
Proof. intros Hno. unfold find_value. by rewrite (proj2 (find_item_None _ _) Hno). Qed.

Lemma delete_items_no_match fuel key its rest j :
  (forall k it, its !! k = Some it -> (j <= k)%nat -> ~ matches key it) ->
  delete_items fuel key its rest j = Some (its, rest).
Proof.
  revert j. induction fuel as [|fuel IH]; intros j Hno; cbn [delete_items]; [done|].
  destruct (its !! j) as [it|] eqn:Hj; [|done].
  destruct (feq (it_key it) key) eqn:E; [by destruct (Hno j it)|].
  apply IH. intros k it' ??. apply (Hno k); [done|lia].
Qed.

Lemma delete_items_first fuel key its rest i it j :
  unique_keys its -> find_item key its = Some (i, it) ->
  (j <= i)%nat -> (length its - j <= fuel)%nat ->
  delete_items fuel key its rest j = remove_at i its rest.
Proof.
  intros Hu (Hi & Hm & Hfirst)%find_item_Some. revert j.
  apply lookup_lt_Some in Hi as Hlt.
  induction fuel as [|fuel IH]; intros j Hji Hfuel; [lia|].
  cbn [delete_items]. destruct (its !! j) as [itj|] eqn:Hj; cycle 1.
  { apply lookup_ge_None in Hj. lia. }
  destruct (decide (j = i)) as [->|Hne].
  - replace itj with it by congruence. rewrite Hm. unfold remove_at.
    destruct (last its) as [it'|] eqn:Hlast; [|done].
    case_decide; [done|]. apply delete_items_no_match.
    intros k itk Hk Hle Hmk. apply lookup_lt_Some in Hk as Hkn.
    rewrite length_insert, length_take in Hkn.
    rewrite list_lookup_insert_ne, lookup_take_lt in Hk by lia.
    pose proof (matches_unique _ _ _ _ _ _ Hu Hi Hk Hm Hmk). lia.
  - destruct (feq (it_key itj) key) eqn:E; [|apply IH; lia].
    destruct (Hfirst j itj); [done|lia|done].
Qed.

(** With pairwise different keys, going on after a match changes nothing:
    the loop of [hashmapDelete] removes the first match, as a loop that
    stops there does. *)
Lemma delete_items_delete_first fuel key its rest :
  unique_keys its -> (length its <= fuel)%nat ->
  delete_items fuel key its rest 0 = delete_first key its rest.
Proof.
  intros Hu Hfuel. unfold delete_first.
  destruct (find_item key its) as [[i it]|] eqn:Hfind.
  - eapply delete_items_first; [done..|lia|lia].
  - apply delete_items_no_match. intros k it Hk _.
    eapply find_item_None; [done|]. by eapply list_elem_of_lookup_2.
Qed.

End pure_facts.

Section more_facts.
Implicit Types (its : list bucketItem_t) (it : bucketItem_t) (key : Z).

Lemma find_value_app_Some key its1 its2 x :
  find_item key its1 = Some x -> find_value key (its1 ++ its2) = find_value key its1.
Proof.
  revert x. induction its1 as [|it its1 IH]; intros x Hf; [done|].
  rewrite find_item_cons in Hf. cbn [app]. rewrite !find_value_cons.
  destruct (feq (it_key it) key); [done|].
  destruct (find_item key its1) as [y|]; [by eapply IH|done].
Qed.

Lemma find_value_app_None key its1 its2 :
  find_item key its1 = None -> find_value key (its1 ++ its2) = find_value key its2.
Proof.
  intros Hf. induction its1 as [|it its1 IH]; [done|].
  rewrite find_item_cons in Hf. cbn [app]. rewrite find_value_cons.
  destruct (feq (it_key it) key); [done|]. apply IH.
  by destruct (find_item key its1).
Qed.

Lemma find_value_singleton key it :
  find_value key [it] = if feq (it_key it) key then it_value it else key.
Proof. by rewrite find_value_cons, find_value_nil. Qed.

(** Items that do not match [key] do not matter to [find_value key]
    when only their values change. *)
Lemma find_value_insert_other key its i it v :
  its !! i = Some it -> ~ matches key it ->
  find_value key (<[i := mkItem (it_key it) v]> its) = find_value key its.
Proof.
  revert i. induction its as [|it' its IH]; intros [|i] Hi Hm; try done.
  - injection Hi as ->. cbn [insert list_insert]. rewrite !find_value_cons.
    cbn [it_key]. unfold matches in Hm. by destruct (feq (it_key it) key).
  - cbn [insert list_insert]. rewrite !find_value_cons.
    destruct (feq (it_key it') key); [done|]. by apply IH.
Qed.

Lemma other_key_no_match key key' it :
  feq key key' = false -> matches key it -> ~ matches key' it.
Proof.
  unfold matches. intros Hne Hm Hm'. rewrite feq_sym in Hm.
  by rewrite (feq_trans _ _ _ Hm Hm') in Hne.
Qed.

(** *** Writing *)

Lemma find_value_write_same key value its :
  find_value key (write_items key value its)
  = if is_nan key then key else value.
Proof.
  unfold write_items, overwrite_item, append_item.
  destruct (find_item key its) as [[i it]|] eqn:Hf.
  - apply find_item_Some in Hf as (Hi & Hm & Hfirst).
    assert (Hnan : is_nan key = false).
    { destruct (is_nan key) eqn:E; [|done]. unfold matches in Hm.
      by rewrite feq_nan_r in Hm. }
    rewrite Hnan. unfold find_value.
    rewrite (proj2 (find_item_Some key _ i (mkItem (it_key it) value))); [done|].
    apply lookup_lt_Some in Hi as Hlt.
    split_and!; [by apply list_lookup_insert_eq|done|].
    intros j it' Hj Hlt'. rewrite list_lookup_insert_ne in Hj by lia. eauto.
  - rewrite find_value_app_None, find_value_singleton by done.
    cbn [it_key it_value]. rewrite feq_refl. by destruct (is_nan key).
Qed.

Lemma find_value_write_other key value key' its :
  feq key key' = false ->
  find_value key' (write_items key value its) = find_value key' its.
Proof.
  intros Hne. unfold write_items, overwrite_item, append_item.
  destruct (find_item key its) as [[i it]|] eqn:Hf.
  - apply find_item_Some in Hf as (Hi & Hm & _).
    apply find_value_insert_other; eauto using other_key_no_match.
  - destruct (find_item key' its) as [x|] eqn:Hf'.
    + by erewrite find_value_app_Some.
    + rewrite find_value_app_None, find_value_singleton by done.
      cbn [it_key]. rewrite Hne. unfold find_value. by rewrite Hf'.
Qed.

Lemma unique_keys_write key value its :
  unique_keys its -> unique_keys (write_items key value its).
Proof.
  intros Hu. unfold write_items, overwrite_item, append_item.
  destruct (find_item key its) as [[i it]|] eqn:Hf.
  - apply find_item_Some in Hf as (Hi & _ & _). apply lookup_lt_Some in Hi as Hlt.
    intros a b it1 it2 Ha Hb.
    assert (Hkeys : forall c it', <[i := mkItem (it_key it) value]> its !! c = Some it' ->
              exists it0, its !! c = Some it0 /\ it_key it0 = it_key it').
    { intros c it' Hc. destruct (decide (c = i)) as [->|].
      - rewrite list_lookup_insert_eq in Hc by done. injection Hc as <-. eauto.
      - rewrite list_lookup_insert_ne in Hc by done. eauto. }
    apply Hkeys in Ha as (it1' & Ha & <-). apply Hkeys in Hb as (it2' & Hb & <-).
    by apply Hu.
  - pose proof (proj1 (find_item_None _ _) Hf) as Hno.
    intros a b it1 it2 Ha Hb Heq.
    apply lookup_app_Some in Ha as [Ha|[Hla Ha]];
      apply lookup_app_Some in Hb as [Hb|[Hlb Hb]].
    + by eapply Hu.
    + apply list_lookup_singleton_Some in Hb as [_ <-].
      destruct (Hno it1); [by eapply list_elem_of_lookup_2|done].
    + apply list_lookup_singleton_Some in Ha as [_ <-]. rewrite feq_sym in Heq.
      destruct (Hno it2); [by eapply list_elem_of_lookup_2|done].
    + apply list_lookup_singleton_Some in Ha as [? _].
      apply list_lookup_singleton_Some in Hb as [? _]. lia.
Qed.

End more_facts.

Section removal.
Implicit Types (its : list bucketItem_t) (it : bucketItem_t) (key : Z).

Lemma moved_other i n a : (a < n)%nat -> (i <= n)%nat -> moved i n a <> i.
Proof. unfold moved. case_decide; lia. Qed.

Lemma moved_inj i n a b :
  (a < n)%nat -> (b < n)%nat -> moved i n a = moved i n b -> a = b.
Proof. unfold moved. repeat case_decide; lia. Qed.

Lemma remove_at_None i its rest :
  its <> [] -> remove_at i its rest = None -> length its = 1%nat.
Proof.
  unfold remove_at. destruct (last its) eqn:Hl; [|done].
  case_decide; [|done]. destruct its; [done|]. cbn in *; lia.
Qed.

Lemma remove_at_Some i its rest its' rest' :
  remove_at i its rest = Some (its', rest') -> (i < length its)%nat ->
  length its' = pred (length its) /\
  forall a, (a < length its')%nat -> its' !! a = its !! moved i (length its') a.
Proof.
  unfold remove_at. intros Hr Hi. destruct (last its) as [it'|] eqn:Hl;
    [|apply last_None in Hl; subst; cbn in Hi; lia].
  case_decide; [done|]. injection Hr as <- <-.
  rewrite length_insert, length_take. split; [lia|]. intros a Ha.
  replace (pred (length its) `min` length its)%nat with (pred (length its)) in * by lia.
  unfold moved. case_decide as E.
  - subst a. rewrite list_lookup_insert_eq by (rewrite length_take; lia).
    by rewrite <- last_lookup.
  - rewrite list_lookup_insert_ne by done. by rewrite lookup_take_lt.
Qed.

Lemma remove_at_fst i its rest :
  fst <$> remove_at i its rest = fst <$> remove_at i its [].
Proof. unfold remove_at. destruct (last its); [|done]. by case_decide. Qed.

Lemma remove_first_eq key its rest :
  fst <$> delete_first key its rest = remove_first key its.
Proof.
  unfold remove_first, delete_first.
  destruct (find_item key its) as [[i it]|]; [apply remove_at_fst|done].
Qed.

Context (key : Z) (its its' : list bucketItem_t).
Hypothesis Hu : unique_keys its.
Hypothesis Hrm : remove_first key its = Some its'.

Lemma remove_first_cases :
  (find_item key its = None /\ its' = its) \/
  exists i it, find_item key its = Some (i, it) /\
    length its' = pred (length its) /\
    forall a, (a < length its')%nat -> its' !! a = its !! moved i (length its') a.
Proof.
  unfold remove_first, delete_first in Hrm.
  destruct (find_item key its) as [[i it]|] eqn:Hf; [right|left].
  - destruct (remove_at i its []) as [[l r]|] eqn:Hr; [|done].
    injection Hrm as ->. exists i, it. split; [done|].
    apply find_item_Some in Hf as (Hi%lookup_lt_Some & _). by eapply remove_at_Some.
  - by injection Hrm as ->.
Qed.

Lemma unique_keys_remove : unique_keys its'.
Proof.
  destruct remove_first_cases as [[_ ->]|(i & it & Hf & Hlen & Hlook)]; [done|].
  apply find_item_Some in Hf as (Hi%lookup_lt_Some & _).
  intros a b it1 it2 Ha Hb Heq.
  apply lookup_lt_Some in Ha as Hla. apply lookup_lt_Some in Hb as Hlb.
  rewrite Hlook in Ha, Hb by done.
  eapply moved_inj; [done..|]. by eapply Hu.
Qed.

Lemma remove_first_sub it : it ∈ its' -> it ∈ its.
Proof.
  destruct remove_first_cases as [[_ ->]|(i & it0 & _ & _ & Hlook)]; [done|].
  intros (a & Ha)%list_elem_of_lookup_1. apply lookup_lt_Some in Ha as Hla.
  rewrite Hlook in Ha by done. by eapply list_elem_of_lookup_2.
Qed.

Lemma remove_first_gone it : it ∈ its' -> ~ matches key it.
Proof.
  destruct remove_first_cases as [[Hf ->]|(i & it0 & Hf & Hlen & Hlook)].
  - by apply find_item_None.
  - apply find_item_Some in Hf as (Hi & Hm & _). apply lookup_lt_Some in Hi as Hlt.
    intros (a & Ha)%list_elem_of_lookup_1 Hm'. apply lookup_lt_Some in Ha as Hla.
    rewrite Hlook in Ha by done.
    pose proof (matches_unique _ _ _ _ _ _ Hu Hi Ha Hm Hm') as E.
    symmetry in E. revert E. apply moved_other; lia.
Qed.

Lemma remove_first_keeps it : it ∈ its -> ~ matches key it -> it ∈ its'.
Proof.
  destruct remove_first_cases as [[Hf ->]|(i & it0 & Hf & Hlen & Hlook)]; [done|].
  apply find_item_Some in Hf as (Hi & Hm & _). apply lookup_lt_Some in Hi as Hlt.
  intros (b & Hb)%list_elem_of_lookup_1 Hno. apply lookup_lt_Some in Hb as Hlb.
  assert (b <> i) by (intros ->; congruence).
  destruct (decide (b < length its')%nat).
  - apply (list_elem_of_lookup_2 _ b). rewrite Hlook by done. unfold moved.
    by rewrite decide_False.
  - apply (list_elem_of_lookup_2 _ i). rewrite Hlook by lia. unfold moved.
    rewrite decide_True by done. by replace (length its') with b by lia.
Qed.

Lemma find_value_remove_same : find_value key its' = key.
Proof. apply find_value_None, remove_first_gone. Qed.

Lemma find_value_remove_other key' :
  feq key key' = false -> find_value key' its' = find_value key' its.
Proof.
  intros Hne. destruct (find_item key' its) as [[i it]|] eqn:Hf.
  - unfold find_value at 2. rewrite Hf.
    apply find_item_Some in Hf as (Hi & Hm & _).
    assert (Hin : it ∈ its') .
    { apply remove_first_keeps; [by eapply list_elem_of_lookup_2|].
      intros Hk. by eapply (other_key_no_match key key'). }
    apply list_elem_of_lookup_1 in Hin as (a & Ha).
    eapply find_value_unique; eauto using unique_keys_remove.
  - unfold find_value at 2. rewrite Hf. apply find_value_None.
    intros it Hin. eapply find_item_None; eauto using remove_first_sub.
Qed.

End removal.

Section write_elems.
Implicit Types (its : list bucketItem_t) (it : bucketItem_t) (key : Z).

(** An item of [write_items key value its] is the new item, an item of
    [its], or the item of [its] that matches with the new value. *)
Lemma elem_of_write_items key value its it :
  it ∈ write_items key value its ->
  it = mkItem key value \/ it ∈ its \/
  exists it0, it0 ∈ its /\ matches key it0 /\ it = mkItem (it_key it0) value.
Proof.
  unfold write_items, overwrite_item, append_item.
  destruct (find_item key its) as [[i it0]|] eqn:Hf.
  - apply find_item_Some in Hf as (Hi & Hm & _). apply lookup_lt_Some in Hi as Hlt.
    intros (a & Ha)%list_elem_of_lookup_1. destruct (decide (a = i)) as [->|Hne].
    + rewrite list_lookup_insert_eq in Ha by done. injection Ha as <-.
      right; right. exists it0. eauto using list_elem_of_lookup_2.
    + rewrite list_lookup_insert_ne in Ha by done.
      right; left. by eapply list_elem_of_lookup_2.
  - intros [Hin|Hin%list_elem_of_singleton]%elem_of_app; eauto.
Qed.

Lemma length_write_items key value its :
  length (write_items key value its)
  = match find_item key its with
    | Some _ => length its
    | None => S (length its)
    end.
Proof.
  unfold write_items, overwrite_item, append_item.
  destruct (find_item key its) as [[i it]|].
  - apply length_insert.
  - rewrite length_app. cbn. lia.
Qed.

End write_elems.

Lemma delete_first_length key its rest its' rest' :
  delete_first key its rest = Some (its', rest') ->
  length (encode_items its' ++ rest') = length (encode_items its ++ rest).
Proof.
  unfold delete_first. destruct (find_item key its) as [[i it]|] eqn:Hf;
    [|by intros [= <- <-]].
  apply find_item_Some in Hf as (Hi%lookup_lt_Some & _).
  unfold remove_at. destruct (last its) as [it'|]; [|by intros [= <- <-]].
  case_decide; [done|]. intros [= <- <-].
  rewrite !length_app, !length_encode_items, length_insert, length_take.
  cbn [length]. lia.
Qed.

Section echo.
Implicit Types (its : list bucketItem_t) (it : bucketItem_t) (key : Z).

Lemma find_value_nan key its : is_nan key = true -> find_value key its = key.
Proof.
  intros Hnan. apply find_value_None. intros it _. unfold matches.
  by rewrite feq_nan_r.
Qed.

(** When no stored value equals its key, a result that equals the key
    is the key handed in: no item matched. *)
Lemma find_value_echo key its :
  (forall it, it ∈ its -> feq (it_key it) (it_value it) = false) ->
  feq (find_value key its) key = true -> find_item key its = None.
Proof.
  intros Hval. unfold find_value.
  destruct (find_item key its) as [[i it]|] eqn:Hf; [|done].
  apply find_item_Some in Hf as (Hi & Hm & _). intros Hv. rewrite feq_sym in Hv.
  unfold matches in Hm. specialize (Hval it ltac:(by eapply list_elem_of_lookup_2)).
  by rewrite (feq_trans _ _ _ Hm Hv) in Hval.
Qed.

End echo.

Section absent.
Implicit Types (its : list bucketItem_t) (it : bucketItem_t) (key : Z).

(** When no stored value equals its key, [find_value] returns the key
    only when no item matches. *)
Lemma find_value_key_absent key its :
  (forall it, it ∈ its -> feq (it_key it) (it_value it) = false) ->
  find_value key its = key -> find_item key its = None.
Proof.
  intros Hval. unfold find_value.
  destruct (find_item key its) as [[i it]|] eqn:Hf; [|done].
  apply find_item_Some in Hf as (Hi & Hm & _). intros Hv. unfold matches in Hm.
  specialize (Hval it ltac:(by eapply list_elem_of_lookup_2)). congruence.
Qed.

Lemma find_item_nan key its : is_nan key = true -> find_item key its = None.
Proof. intros Hnan. apply find_item_None. intros it _. unfold matches. by rewrite feq_nan_r. Qed.

End absent.

(** ** What the loop of [hashmapDelete] removes *)

Section unique_facts.
Implicit Types (its : list bucketItem_t) (it : bucketItem_t) (key : Z).

Lemma unique_keys_nil : unique_keys [].
Proof. by intros ? ? ? ? ?. Qed.

Lemma unique_keys_cons it its :
  Forall (fun it' => feq (it_key it) (it_key it') = false) its ->
  unique_keys its -> unique_keys (it :: its).
Proof.
  rewrite Forall_lookup. intros Hno Hu [|i] [|j] it1 it2 Hi Hj Heq; cbn in Hi, Hj.
  - done.
  - injection Hi as <-. by rewrite (Hno _ _ Hj) in Heq.
  - injection Hj as <-. rewrite feq_sym in Heq. by rewrite (Hno _ _ Hi) in Heq.
  - f_equal. by eapply Hu.
Qed.

(** C30. The loop of [hashmapDelete], on items with pairwise different
    keys and with fuel for every item, removes the key and nothing else:
    in what it leaves, the key is absent and every other key has the value
    it had; it frees the block only when the key was the only item. *)
Theorem delete_items_removes_key fuel key its rest :
  unique_keys its -> (length its <= fuel)%nat ->
  match delete_items fuel key its rest 0 with
  | Some (its', _) =>
      find_value key its' = key /\
      forall key', feq key key' = false -> find_value key' its' = find_value key' its
  | None => exists it, its = [it] /\ matches key it
  end.
Proof.
  intros Hu Hfuel. rewrite delete_items_delete_first by done.
  pose proof (remove_first_eq key its rest) as Hrf.
  destruct (delete_first key its rest) as [[its' rest']|] eqn:Hd; cbn in Hrf.
  - split; [by eapply find_value_remove_same|].
    intros key' Hne. by eapply find_value_remove_other.
  - unfold delete_first in Hd. destruct (find_item key its) as [[i it]|] eqn:Hf; [|done].
    apply find_item_Some in Hf as (Hi & Hm & _).
    apply remove_at_None in Hd; [|intros ->; by rewrite lookup_nil in Hi].
    destruct its as [|it0 [|]]; try done. destruct i; [|done]. injection Hi as ->. eauto.
Qed.

Lemma delete_items_removes_key_witness :
  match delete_items 3 1 [mkItem 1 10; mkItem 2 20; mkItem 3 30] [] 0 with
  | Some (its', _) =>
      find_value 1 its' = 1 /\
      forall key', feq 1 key' = false ->
        find_value key' its' = find_value key' [mkItem 1 10; mkItem 2 20; mkItem 3 30]
  | None => exists it, [mkItem 1 10; mkItem 2 20; mkItem 3 30] = [it] /\ matches 1 it
  end.
Proof.
  apply (delete_items_removes_key 3 1 [mkItem 1 10; mkItem 2 20; mkItem 3 30] []);
    [|cbn; lia].
  repeat (apply unique_keys_cons; [repeat constructor|]). apply unique_keys_nil.
Defined.

End unique_facts.
