(* ===== verification/Abstract.v ===== *)
(** * Abstract: what the table is, without the storage

    The abstract table gives each bucket index one of three states:
    [Fresh] (never written), [Stored cap its] (room for [cap] items, of
    which [its] are in use) and [Freed cap] (emptied by a deletion, its
    storage released).  Together with the bytes the allocator has left,
    this is all that the results of [hashmapCreate], [hashmapRead],
    [hashmapWrite] and [hashmapDelete] depend on.  The operations
    [abs_create], [abs_read], [abs_write] and [abs_delete] say what each
    function of [src/hashmap.c] does to this state, the errors it stops
    with included; Refine shows that the functions of Table implement
    them.  [atable_ok] is the invariant of the abstract table and the
    theorems of this file are its laws: what a read returns after a write
    or a deletion, for the key concerned and for the others. *)

From S2P Require Import Prelude Word32 Double Hasher Heap Table Items.

Inductive abucket : Type :=
| Fresh
| Stored (cap : Z) (its : list bucketItem_t)
| Freed (cap : Z).

#[export] Instance abucket_eq_dec : EqDecision abucket.
Proof. solve_decision. Defined.

Record atable : Type := mkATable {
  a_buckets : option (gmap Z abucket);  (* [None]: no bucket array *)
  a_avail : Z;                          (* bytes the allocator has left *)
}.

Definition items_of (b : abucket) : list bucketItem_t :=
  match b with
  | Stored _ its => its
  | _ => []
  end.

Definition a_bucket (a : atable) (idx : Z) : abucket :=
  match a_buckets a with
  | Some bs => default Fresh (bs !! idx)
  | None => Fresh
  end.

Definition a_set (a : atable) (idx : Z) (b : abucket) (avail : Z) : atable :=
  mkATable (insert idx b <$> a_buckets a) avail.

(** Bytes of the storage of a bucket with room for [cap] items. *)
Definition bucket_bytes (cap : Z) : Z := sizeof_bucketItem_t * cap.

Definition abs_create (avail : Z) : result atable :=
  if decide (sizeof_hashmap_t <= avail) then
    let avail := avail - sizeof_hashmap_t in
    let bytes := (HASHMAP_BUCKET_MASK + 1) * sizeof_bucket_t in
    if decide (bytes <= avail) then Ok (mkATable (Some ∅) (avail - bytes))
    else Ok (mkATable None avail)
  else Err NullDeref.

(** The room a bucket has, once it has storage. *)
Definition cap_of (b : abucket) : option Z :=
  match b with
  | Fresh => None
  | Stored cap _ | Freed cap => Some cap
  end.

(** No bucket has room for more than the initial number of items. *)
Definition cap_fixed (a : atable) : Prop :=
  forall idx cap, cap_of (a_bucket a idx) = Some cap -> cap = HASHMAP_BUCKET_INITSIZE.

Section abstract.
Context {H : Hasher}.

(** The bucket a key selects. *)
Definition index_of (key : double) : Z :=
  Z.land (hash_of key) HASHMAP_BUCKET_MASK.

Definition abs_read (key : double) (a : atable) : result Z :=
  match a_buckets a with
  | None => Err NullDeref
  | Some _ => Ok (find_value key (items_of (a_bucket a (index_of key))))
  end.

Definition abs_delete (key : double) (a : atable) : result atable :=
  match a_buckets a with
  | None => Err NullDeref
  | Some _ =>
      let idx := index_of key in
      match a_bucket a idx with
      | Stored cap its =>
          match remove_first key its with
          | Some its' => Ok (a_set a idx (Stored cap its') (a_avail a))
          | None => Ok (a_set a idx (Freed cap) (a_avail a + bucket_bytes cap))
          end
      | Fresh => Ok a
      | Freed cap => Ok (a_set a idx (Freed cap) (a_avail a))
      end
  end.

Definition abs_write (key value : double) (a : atable) : result atable :=
  if feq key value then abs_delete key a
  else
    match a_buckets a with
    | None => Err NullDeref
    | Some _ =>
        let idx := index_of key in
        match a_bucket a idx with
        | Fresh =>
            let bytes := bucket_bytes HASHMAP_BUCKET_INITSIZE in
            if decide (bytes <= a_avail a) then
              Ok (a_set a idx (Stored HASHMAP_BUCKET_INITSIZE [mkItem key value])
                    (a_avail a - bytes))
            else Err NullDeref
        | Stored cap its =>
            if decide (is_Some (find_item key its) \/ Z.of_nat (length its) < cap)
            then Ok (a_set a idx (Stored cap (write_items key value its)) (a_avail a))
            else Err OutOfBounds
        | Freed _ => Err DanglingPointer
        end
    end.

(** What the items of the bucket [idx] satisfy: they hash to [idx], their
    keys differ pairwise under [==], and no value equals its key. *)
Record items_ok (idx : Z) (its : list bucketItem_t) : Prop := mkItemsOk {
  io_index : forall it, it ∈ its -> index_of (it_key it) = idx;
  io_unique : unique_keys its;
  io_value : forall it, it ∈ its -> feq (it_key it) (it_value it) = false;
}.

Record atable_ok (a : atable) : Prop := mkATableOk {
  ao_items : forall idx cap its,
    a_bucket a idx = Stored cap its ->
    items_ok idx its /\ (0 < length its)%nat /\ Z.of_nat (length its) <= cap < 2 ^ 32;
  ao_support : forall idx,
    a_bucket a idx <> Fresh -> 0 <= idx <= HASHMAP_BUCKET_MASK;
  ao_avail : 0 <= a_avail a;
}.

End abstract.

Section laws.
Context {H : Hasher}.
Implicit Types (a : atable) (key value : Z) (its : list bucketItem_t).

Lemma a_bucket_a_set a idx b avail idx' :
  is_Some (a_buckets a) ->
  a_bucket (a_set a idx b avail) idx'
  = if decide (idx = idx') then b else a_bucket a idx'.
Proof.
  intros [bs Hbs]. unfold a_bucket, a_set. cbn [a_buckets]. rewrite Hbs.
  cbn [fmap option_fmap option_map]. rewrite lookup_insert. by case_decide.
Qed.

Lemma a_buckets_a_set a idx b avail :
  is_Some (a_buckets a) -> is_Some (a_buckets (a_set a idx b avail)).
Proof. intros [bs Hbs]. unfold a_set. cbn [a_buckets]. rewrite Hbs. by eexists. Qed.

Lemma a_bucket_null a idx : a_buckets a = None -> a_bucket a idx = Fresh.
Proof. unfold a_bucket. by intros ->. Qed.

Lemma abs_read_Ok key a :
  is_Some (a_buckets a) ->
  abs_read key a = Ok (find_value key (items_of (a_bucket a (index_of key)))).
Proof. intros [bs Hbs]. unfold abs_read. by rewrite Hbs. Qed.

Lemma a_set_effect a idx b avail its :
  is_Some (a_buckets a) -> items_of b = its ->
  is_Some (a_buckets a) /\ is_Some (a_buckets (a_set a idx b avail)) /\
  (forall idx', idx' <> idx -> a_bucket (a_set a idx b avail) idx' = a_bucket a idx') /\
  items_of (a_bucket (a_set a idx b avail) idx) = its.
Proof.
  intros Hbs <-. split_and!; [done|by apply a_buckets_a_set| |].
  - intros idx' Hne. by rewrite a_bucket_a_set, decide_False.
  - by rewrite a_bucket_a_set, decide_True.
Qed.

(** What a deletion that returns does to the buckets. *)
Lemma abs_delete_effect key a a' :
  abs_delete key a = Ok a' ->
  is_Some (a_buckets a) /\ is_Some (a_buckets a') /\
  (forall idx, idx <> index_of key -> a_bucket a' idx = a_bucket a idx) /\
  items_of (a_bucket a' (index_of key))
  = default [] (remove_first key (items_of (a_bucket a (index_of key)))).
Proof.
  unfold abs_delete. destruct (a_buckets a) as [bs|] eqn:Hbs; [|done].
  rewrite <- Hbs. assert (Hsome : is_Some (a_buckets a)) by (by rewrite Hbs).
  destruct (a_bucket a (index_of key)) as [|cap its|cap] eqn:Hb; cbn [items_of].
  - intros [= <-]. rewrite Hb. by split_and!.
  - destruct (remove_first key its) as [its'|]; intros [= <-]; by apply a_set_effect.
  - intros [= <-]. by apply a_set_effect.
Qed.

(** What a write that returns does to the buckets. *)
Lemma abs_write_effect key value a a' :
  feq key value = false -> abs_write key value a = Ok a' ->
  is_Some (a_buckets a) /\ is_Some (a_buckets a') /\
  (forall idx, idx <> index_of key -> a_bucket a' idx = a_bucket a idx) /\
  items_of (a_bucket a' (index_of key))
  = write_items key value (items_of (a_bucket a (index_of key))).
Proof.
  unfold abs_write. intros ->. destruct (a_buckets a) as [bs|] eqn:Hbs; [|done].
  rewrite <- Hbs. assert (Hsome : is_Some (a_buckets a)) by (by rewrite Hbs).
  destruct (a_bucket a (index_of key)) as [|cap its|cap] eqn:Hb; [| |done];
    (case_decide; [|done]); intros [= <-]; by apply a_set_effect.
Qed.

Lemma abs_read_write_same key value a a' :
  feq key value = false -> abs_write key value a = Ok a' ->
  abs_read key a' = Ok (if is_nan key then key else value).
Proof.
  intros Hkv (_ & Hbs' & _ & Hits)%abs_write_effect; [|done].
  rewrite abs_read_Ok, Hits by done. by rewrite find_value_write_same.
Qed.

Lemma abs_read_write_other key value key' a a' :
  feq key value = false -> feq key key' = false ->
  abs_write key value a = Ok a' -> abs_read key' a' = abs_read key' a.
Proof.
  intros Hkv Hne (Hbs & Hbs' & Hother & Hits)%abs_write_effect; [|done].
  rewrite !abs_read_Ok by done. f_equal.
  destruct (decide (index_of key' = index_of key)) as [->|Hidx].
  - rewrite Hits. by apply find_value_write_other.
  - by rewrite Hother.
Qed.

(** A call under [key] leaves the buckets that [key] does not select as
    they were, whether it stores or removes. *)
Lemma abs_write_other_buckets key value a a' :
  abs_write key value a = Ok a' ->
  is_Some (a_buckets a) /\ is_Some (a_buckets a') /\
  (forall idx, idx <> index_of key -> a_bucket a' idx = a_bucket a idx).
Proof.
  intros Ha. destruct (feq key value) eqn:Hkv.
  - unfold abs_write in Ha. rewrite Hkv in Ha.
    by destruct (abs_delete_effect _ _ _ Ha) as (? & ? & ? & _).
  - by destruct (abs_write_effect _ _ _ _ Hkv Ha) as (? & ? & ? & _).
Qed.

(** A read depends on the bucket its key selects only. *)
Lemma abs_read_same_bucket key a a' :
  is_Some (a_buckets a) -> is_Some (a_buckets a') ->
  a_bucket a' (index_of key) = a_bucket a (index_of key) ->
  abs_read key a' = abs_read key a.
Proof. intros Hbs Hbs' Hb. by rewrite !abs_read_Ok, Hb. Qed.

Section with_invariant.
Context (a : atable).
Hypothesis Hok : atable_ok a.

Lemma items_of_unique idx : unique_keys (items_of (a_bucket a idx)).
Proof.
  destruct (a_bucket a idx) as [|cap its|cap] eqn:Hb; try (by intros ? ? ? ? ?).
  by destruct (ao_items a Hok idx cap its Hb) as [[] _].
Qed.

Lemma remove_first_default key its :
  unique_keys its ->
  exists its', (its' = default [] (remove_first key its)) /\
    (forall it, it ∈ its' -> ~ matches key it) /\
    (forall key', feq key key' = false -> find_value key' its' = find_value key' its).
Proof.
  intros Hu. eexists; split; [done|].
  destruct (remove_first key its) as [its'|] eqn:Hr; cbn [default].
  - split; [by eapply remove_first_gone|]. intros key' Hne.
    by eapply find_value_remove_other.
  - split; [by intros ? ?%elem_of_nil|]. intros key' Hne.
    unfold remove_first, delete_first in Hr.
    destruct (find_item key its) as [[i it]|] eqn:Hf; [|done].
    apply find_item_Some in Hf as (Hi & Hm & _).
    assert (its <> []) by (intros ->; by rewrite lookup_nil in Hi).
    destruct (remove_at i its []) eqn:Hra; [done|].
    apply remove_at_None in Hra; [|done].
    destruct its as [|it0 [|]]; try done. destruct i; [|done]. injection Hi as ->.
    rewrite find_value_singleton, find_value_nil.
    pose proof (other_key_no_match _ _ _ Hne Hm) as Hno. unfold matches in Hno.
    by destruct (feq (it_key it) key').
Qed.

Lemma abs_read_delete_same key a' :
  abs_delete key a = Ok a' -> abs_read key a' = Ok key.
Proof.
  intros (_ & Hbs' & _ & Hits)%abs_delete_effect.
  rewrite abs_read_Ok, Hits by done. f_equal.
  destruct (remove_first_default key _ (items_of_unique (index_of key)))
    as (its' & <- & Hgone & _).
  by apply find_value_None.
Qed.

Lemma abs_read_delete_other key key' a' :
  feq key key' = false ->
  abs_delete key a = Ok a' -> abs_read key' a' = abs_read key' a.
Proof.
  intros Hne (Hbs & Hbs' & Hother & Hits)%abs_delete_effect.
  rewrite !abs_read_Ok by done. f_equal.
  destruct (decide (index_of key' = index_of key)) as [->|Hidx]; [|by rewrite Hother].
  rewrite Hits.
  destruct (remove_first_default key _ (items_of_unique (index_of key)))
    as (its' & <- & _ & Hsame).
  by apply Hsame.
Qed.

End with_invariant.
End laws.

Section preservation.
Context {H : Hasher}.
Implicit Types (a : atable) (key value : Z) (its : list bucketItem_t).

Lemma items_ok_nil idx : items_ok idx [].
Proof. split; [by intros ? ?%elem_of_nil|by intros ? ? ? ? ?|by intros ? ?%elem_of_nil]. Qed.

Lemma items_ok_write key value its :
  feq key value = false -> items_ok (index_of key) its ->
  items_ok (index_of key) (write_items key value its).
Proof.
  intros Hkv [Hidx Hu Hval]. split; [| by apply unique_keys_write |].
  - intros it [->|[Hin|(it0 & Hin & _ & ->)]]%elem_of_write_items;
      cbn [it_key]; eauto.
  - intros it [->|[Hin|(it0 & Hin & Hm & ->)]]%elem_of_write_items; eauto.
    cbn [it_key it_value]. destruct (feq (it_key it0) value) eqn:E; [|done].
    unfold matches in Hm. rewrite feq_sym in Hm.
    by rewrite (feq_trans _ _ _ Hm E) in Hkv.
Qed.

Lemma items_ok_remove idx key its its' :
  items_ok idx its -> remove_first key its = Some its' -> items_ok idx its'.
Proof.
  intros [Hidx Hu Hval] Hr.
  split; eauto using unique_keys_remove, remove_first_sub.
Qed.

Lemma length_remove_first key its its' :
  remove_first key its = Some its' -> (0 < length its)%nat ->
  (0 < length its' <= length its)%nat.
Proof.
  unfold remove_first, delete_first.
  destruct (find_item key its) as [[i it]|]; [|intros [= <-]; lia].
  unfold remove_at. destruct (last its); [|intros [= <-]; lia].
  case_decide; [done|]. intros [= <-] _.
  rewrite length_insert, length_take. lia.
Qed.

Lemma atable_ok_a_set a idx b avail :
  atable_ok a -> is_Some (a_buckets a) -> 0 <= idx <= HASHMAP_BUCKET_MASK ->
  (forall cap its, b = Stored cap its ->
     items_ok idx its /\ (0 < length its)%nat /\ Z.of_nat (length its) <= cap < 2 ^ 32) ->
  0 <= avail -> atable_ok (a_set a idx b avail).
Proof.
  intros [Hitems Hsup Hav] Hbs Hidx Hb Havail. split; [| |done].
  - intros idx' cap its. rewrite a_bucket_a_set by done. case_decide; subst; eauto.
  - intros idx'. rewrite a_bucket_a_set by done. case_decide; subst; eauto.
Qed.

Lemma index_of_range key : 0 <= index_of key <= HASHMAP_BUCKET_MASK.
Proof.
  unfold index_of, HASHMAP_BUCKET_MASK.
  pose proof (land_ones_range 16 (hash_of key)) as Hr.
  change (Z.ones 16) with 0xFFFF in Hr. change (2 ^ 16) with 65536 in Hr. lia.
Qed.

Lemma abs_create_ok avail a : abs_create avail = Ok a -> atable_ok a.
Proof.
  unfold abs_create. repeat case_decide; intros [= <-];
    (split; [by intros ? ? ?| by intros ?|cbn [a_avail]; lia]).
Qed.

Lemma abs_delete_ok key a a' :
  atable_ok a -> abs_delete key a = Ok a' -> atable_ok a'.
Proof.
  intros Hok. unfold abs_delete. destruct (a_buckets a) as [bs|] eqn:Hbs; [|done].
  assert (Hsome : is_Some (a_buckets a)) by (by rewrite Hbs).
  pose proof (ao_avail a Hok). pose proof (index_of_range key).
  destruct (a_bucket a (index_of key)) as [|cap its|cap] eqn:Hb.
  - by intros [= <-].
  - destruct (ao_items a Hok _ _ _ Hb) as (Hio & Hlen & Hcap).
    destruct (remove_first key its) as [its'|] eqn:Hr; intros [= <-];
      (apply atable_ok_a_set; [done..| |]); try done.
    + intros ? ? [= <- <-]. pose proof (length_remove_first _ _ _ Hr Hlen).
      split; [by eapply items_ok_remove|lia].
    + unfold bucket_bytes, sizeof_bucketItem_t. lia.
  - intros [= <-]. by apply atable_ok_a_set.
Qed.

Lemma abs_write_ok key value a a' :
  atable_ok a -> abs_write key value a = Ok a' -> atable_ok a'.
Proof.
  intros Hok. unfold abs_write.
  destruct (feq key value) eqn:Hkv; [by apply abs_delete_ok|].
  destruct (a_buckets a) as [bs|] eqn:Hbs; [|done].
  assert (Hsome : is_Some (a_buckets a)) by (by rewrite Hbs).
  pose proof (ao_avail a Hok). pose proof (index_of_range key).
  destruct (a_bucket a (index_of key)) as [|cap its|cap] eqn:Hb; [| |done].
  - case_decide; [|done]. intros [= <-]. apply atable_ok_a_set; [done..| |lia].
    intros ? ? [= <- <-].
    split; [|cbn [length]; unfold HASHMAP_BUCKET_INITSIZE; lia].
    by apply (items_ok_write key value []), items_ok_nil.
  - destruct (ao_items a Hok _ _ _ Hb) as (Hio & Hlen & Hcap).
    case_decide as Hroom; [|done]. intros [= <-].
    apply atable_ok_a_set; [done..| |done].
    intros ? ? [= <- <-]. split; [by apply items_ok_write|].
    rewrite length_write_items.
    destruct (find_item key its); [lia|]. destruct Hroom as [[]|]; [done|lia].
Qed.

End preservation.

(** ** The room of a bucket does not change *)

Section capacity.
Context {H : Hasher}.
Implicit Types (a : atable).

Lemma cap_fixed_a_set a idx b avail :
  cap_fixed a -> is_Some (a_buckets a) ->
  (forall cap, cap_of b = Some cap -> cap = HASHMAP_BUCKET_INITSIZE) ->
  cap_fixed (a_set a idx b avail).
Proof.
  intros Hcf Hbs Hb idx' cap. rewrite a_bucket_a_set by done. case_decide; eauto.
Qed.

Lemma abs_delete_cap_fixed key a a' :
  cap_fixed a -> abs_delete key a = Ok a' -> cap_fixed a'.
Proof.
  intros Hcf. unfold abs_delete. destruct (a_buckets a) as [bs|] eqn:Hbs; [|done].
  assert (Hsome : is_Some (a_buckets a)) by (by rewrite Hbs).
  destruct (a_bucket a (index_of key)) as [|cap its|cap] eqn:Hb.
  - by intros [= <-].
  - pose proof (Hcf (index_of key) cap) as Hc. rewrite Hb in Hc.
    destruct (remove_first key its); intros [= <-];
      apply cap_fixed_a_set; try done; intros ? [= <-]; by apply Hc.
  - pose proof (Hcf (index_of key) cap) as Hc. rewrite Hb in Hc.
    intros [= <-]. apply cap_fixed_a_set; try done. intros ? [= <-]. by apply Hc.
Qed.

Lemma abs_write_cap_fixed key value a a' :
  cap_fixed a -> abs_write key value a = Ok a' -> cap_fixed a'.
Proof.
  intros Hcf. unfold abs_write.
  destruct (feq key value); [by apply abs_delete_cap_fixed|].
  destruct (a_buckets a) as [bs|] eqn:Hbs; [|done].
  assert (Hsome : is_Some (a_buckets a)) by (by rewrite Hbs).
  destruct (a_bucket a (index_of key)) as [|cap its|cap] eqn:Hb; [| |done].
  - case_decide; [|done]. intros [= <-]. apply cap_fixed_a_set; try done.
    by intros ? [= <-].
  - pose proof (Hcf (index_of key) cap) as Hc. rewrite Hb in Hc.
    case_decide; [|done]. intros [= <-]. apply cap_fixed_a_set; try done.
    intros ? [= <-]. by apply Hc.
Qed.

End capacity.
