(* ===== verification/Bucket.v ===== *)
(** * Bucket: the contents of a bucket and what the loops do to them

    A bucket with count [n] stores [n] items in the first [2 * n] cells of
    its block.  [holds] says that a block starts with the layout
    ([encode_items], of the file Items) of a list of items; the loops of
    [hashmapRead], [hashmapWrite] and [hashmapDelete] are then shown equal
    to the functions of Items on that list ([find_value], [find_item],
    [delete_items]), which the theorems on the table build on. *)

From S2P Require Import Prelude Word32 Double Hasher Heap Table Items.

(** The block at [l] starts with the items [its]; [rest] is what follows
    them (free capacity, or the remains of removed items). *)
Definition holds (h : heap) (l : loc) (its : list bucketItem_t)
    (rest : list (option Z)) : Prop :=
  hp_blocks h !! l = Some (encode_items its ++ rest).

(** What the loop leaves, given what [delete_items] computes. *)
Definition after_delete (h : heap) (l : loc) (len bytes : Z)
    (r : option (list bucketItem_t * list (option Z)))
    : result (bucket_t * heap) :=
  match r with
  | None => Ok (mkBucket (Ptr l) len 0, remove_block h l bytes)
  | Some (its', rest') =>
      Ok (mkBucket (Ptr l) len (Z.of_nat (length its')),
          set_block h l (encode_items its' ++ rest'))
  end.

(** A block with two items and room for a third, for the examples. *)
Definition ex_items : list bucketItem_t := [mkItem 1 10; mkItem 2 20].

Definition ex_block_heap : heap := mkHeap {[1 := encode_items ex_items ++ [None; None]]} 2 0.

(** ** Reading and writing the fields of a stored item *)

Section fields.
Context (h : heap) (l : loc) (its : list bucketItem_t) (rest : list (option Z)).
Hypothesis Hholds : holds h l its rest.
Implicit Types (j : nat) (it : bucketItem_t).

Lemma to_nat_key_index j : Z.to_nat (key_index (Z.of_nat j)) = (2 * j)%nat.
Proof. unfold key_index. lia. Qed.

Lemma to_nat_value_index j : Z.to_nat (value_index (Z.of_nat j)) = (2 * j + 1)%nat.
Proof. unfold value_index. lia. Qed.

Lemma load_key j it :
  its !! j = Some it -> load (Ptr l) (key_index (Z.of_nat j)) h = Ok (it_key it, h).
Proof.
  intros Hj. eapply load_Ok; [exact Hholds|unfold key_index; lia|].
  rewrite to_nat_key_index. apply lookup_app_l_Some. by apply lookup_encode_key.
Qed.

Lemma load_value j it :
  its !! j = Some it ->
  load (Ptr l) (value_index (Z.of_nat j)) h = Ok (it_value it, h).
Proof.
  intros Hj. eapply load_Ok; [exact Hholds|unfold value_index; lia|].
  rewrite to_nat_value_index. apply lookup_app_l_Some. by apply lookup_encode_value.
Qed.

Lemma store_value j it v :
  its !! j = Some it ->
  store (Ptr l) (value_index (Z.of_nat j)) v h
  = Ok (tt, set_block h l
              (encode_items (<[j := mkItem (it_key it) v]> its) ++ rest)).
Proof.
  intros Hj. erewrite store_Ok; [|exact Hholds|].
  - rewrite to_nat_value_index. do 3 f_equal.
    rewrite insert_app_l by (rewrite length_encode_items; apply lookup_lt_Some in Hj; lia).
    by erewrite encode_items_insert_value.
  - apply lookup_lt_Some in Hj. unfold value_index.
    rewrite length_app, length_encode_items. lia.
Qed.

Lemma store_key j it k :
  its !! j = Some it ->
  store (Ptr l) (key_index (Z.of_nat j)) k h
  = Ok (tt, set_block h l
              (encode_items (<[j := mkItem k (it_value it)]> its) ++ rest)).
Proof.
  intros Hj. erewrite store_Ok; [|exact Hholds|].
  - rewrite to_nat_key_index. do 3 f_equal.
    rewrite insert_app_l by (rewrite length_encode_items; apply lookup_lt_Some in Hj; lia).
    by erewrite encode_items_insert_key.
  - apply lookup_lt_Some in Hj. unfold key_index.
    rewrite length_app, length_encode_items. lia.
Qed.

End fields.

(** ** The loops of [hashmapRead] and [hashmapWrite] *)

Lemma wrap32_succ (j n : nat) :
  (j < n)%nat -> Z.of_nat n < 2 ^ 32 -> wrap32 (Z.of_nat j + 1) = Z.of_nat (S j).
Proof. intros. rewrite wrap32_small; unfold is_u32; lia. Qed.

Section loops.
Context (h : heap) (l : loc) (len : Z) (its : list bucketItem_t) (rest : list (option Z)).
Hypothesis Hholds : holds h l its rest.
Hypothesis Hcount : Z.of_nat (length its) < 2 ^ 32.

#[local] Abbreviation bucket := (mkBucket (Ptr l) len (Z.of_nat (length its))).

Lemma hashmapRead_loop_spec key fuel j :
  (length its - j <= fuel)%nat ->
  hashmapRead_loop fuel bucket key (Z.of_nat j) h
  = Ok (find_value key (drop j its), h).
Proof.
  revert j. induction fuel as [|fuel IH]; intros j Hfuel;
    cbn [hashmapRead_loop b_itemCount b_items]; case_decide.
  - lia.
  - by rewrite drop_ge by lia.
  - destruct (lookup_lt_is_Some_2 its j) as [it Hj]; [lia|].
    rewrite (bind_Ok _ _ _ _ _ (load_key _ _ _ _ Hholds _ _ Hj)).
    erewrite drop_S by done. rewrite find_value_cons.
    destruct (feq (it_key it) key).
    + apply (load_value _ _ _ _ Hholds _ _ Hj).
    + rewrite (wrap32_succ j (length its)) by lia. apply IH. lia.
  - by rewrite drop_ge by lia.
Qed.

Lemma hashmapWrite_loop_spec key value fuel j :
  (length its - j <= fuel)%nat ->
  hashmapWrite_loop fuel bucket key value (Z.of_nat j) h
  = match find_item key (drop j its) with
    | Some (i, it) =>
        Ok (Overwritten,
            set_block h l
              (encode_items (<[(j + i)%nat := mkItem (it_key it) value]> its) ++ rest))
    | None => Ok (NotFound (Z.of_nat (Nat.max j (length its))), h)
    end.
Proof.
  revert j. induction fuel as [|fuel IH]; intros j Hfuel;
    cbn [hashmapWrite_loop b_itemCount b_items]; case_decide.
  - lia.
  - rewrite drop_ge by lia. cbn. unfold ret. do 3 f_equal. lia.
  - destruct (lookup_lt_is_Some_2 its j) as [it Hj]; [lia|].
    rewrite (bind_Ok _ _ _ _ _ (load_key _ _ _ _ Hholds _ _ Hj)).
    erewrite drop_S by done. rewrite find_item_cons.
    destruct (feq (it_key it) key).
    + rewrite (bind_Ok _ _ _ _ _ (store_value _ _ _ _ Hholds _ _ value Hj)).
      by rewrite Nat.add_0_r.
    + rewrite (wrap32_succ j (length its)) by lia. rewrite IH by lia.
      destruct (find_item key (drop (S j) its)) as [[i it']|]; cbn.
      * by rewrite Nat.add_succ_r.
      * do 3 f_equal. lia.
  - rewrite drop_ge by lia. cbn. unfold ret. do 3 f_equal. lia.
Qed.

End loops.

(** ** Appending an item, and the loops on an empty bucket *)

Lemma store_append h l its c1 c2 rest k v :
  holds h l its (c1 :: c2 :: rest) ->
  (store (Ptr l) (key_index (Z.of_nat (length its))) k;;
   store (Ptr l) (value_index (Z.of_nat (length its))) v) h
  = Ok (tt, set_block h l (encode_items (its ++ [mkItem k v]) ++ rest)).
Proof.
  intros Hh.
  erewrite bind_Ok; cycle 1.
  { eapply store_Ok; [exact Hh|].
    unfold key_index. rewrite length_app, length_encode_items. cbn [length]. lia. }
  erewrite store_Ok; [|apply blocks_set_block_eq|]; cycle 1.
  { unfold value_index.
    rewrite length_insert, length_app, length_encode_items. cbn [length]. lia. }
  rewrite set_block_set_block, to_nat_key_index, to_nat_value_index.
  do 3 f_equal. rewrite encode_items_app, <- app_assoc. cbn [encode_items app it_key it_value].
  rewrite insert_app_r_alt by (rewrite length_encode_items; lia).
  rewrite length_encode_items, Nat.sub_diag. cbn [insert list_insert].
  rewrite insert_app_r_alt by (rewrite length_encode_items; lia).
  rewrite length_encode_items.
  by replace (2 * length its + 1 - 2 * length its)%nat with 1%nat by lia.
Qed.

Lemma hashmapWrite_loop_empty fuel p len key value :
  hashmapWrite_loop fuel (mkBucket p len 0) key value 0 = ret (NotFound 0).
Proof. by destruct fuel. Qed.

Lemma hashmapRead_loop_empty fuel p len key :
  hashmapRead_loop fuel (mkBucket p len 0) key 0 = ret key.
Proof. by destruct fuel. Qed.

Lemma hashmapDelete_loop_empty fuel p len key :
  hashmapDelete_loop fuel (mkBucket p len 0) key 0 = ret (mkBucket p len 0).
Proof. by destruct fuel. Qed.

(** ** The loop of [hashmapDelete] *)

Lemma holds_set_block h l cells its rest :
  cells = encode_items its ++ rest -> holds (set_block h l cells) l its rest.
Proof. intros ->. apply blocks_set_block_eq. Qed.

Section copy.
Context (h : heap) (l : loc) (its : list bucketItem_t) (rest : list (option Z)).
Hypothesis Hholds : holds h l its rest.

(** [items[j].key = item->key; items[j].value = item->value] for
    [item = &items[n]]. *)
Lemma copy_item {A} j n it it' (k : M heap A) :
  its !! j = Some it -> its !! n = Some it' ->
  (let* k' := load (Ptr l) (key_index (Z.of_nat n)) in
   store (Ptr l) (key_index (Z.of_nat j)) k';;
   let* v' := load (Ptr l) (value_index (Z.of_nat n)) in
   store (Ptr l) (value_index (Z.of_nat j)) v';; k) h
  = k (set_block h l (encode_items (<[j := it']> its) ++ rest)).
Proof.
  intros Hj Hn.
  rewrite (bind_Ok _ _ _ _ _ (load_key _ _ _ _ Hholds _ _ Hn)).
  rewrite (bind_Ok _ _ _ _ _ (store_key _ _ _ _ Hholds _ _ (it_key it') Hj)).
  set (its1 := <[j := mkItem (it_key it') (it_value it)]> its).
  assert (Hh1 : holds (set_block h l (encode_items its1 ++ rest)) l its1 rest)
    by by apply holds_set_block.
  assert (Hj1 : its1 !! j = Some (mkItem (it_key it') (it_value it))).
  { apply list_lookup_insert_eq. by eapply lookup_lt_Some. }
  assert (Hn1 : exists it1, its1 !! n = Some it1 /\ it_value it1 = it_value it').
  { destruct (decide (j = n)) as [->|Hne].
    - exists (mkItem (it_key it') (it_value it)). split; [done|]. cbn. congruence.
    - exists it'. split; [|done]. unfold its1. by rewrite list_lookup_insert_ne. }
  destruct Hn1 as (it1 & Hn1 & Hv1).
  rewrite (bind_Ok _ _ _ _ _ (load_value _ _ _ _ Hh1 _ _ Hn1)).
  rewrite (bind_Ok _ _ _ _ _ (store_value _ _ _ _ Hh1 _ _ (it_value it1) Hj1)).
  rewrite set_block_set_block. unfold its1. rewrite list_insert_insert_eq, Hv1.
  by destruct it'.
Qed.

End copy.

Lemma encode_items_take_last its n it' rest :
  length its = S n -> its !! n = Some it' ->
  encode_items its ++ rest = encode_items (take n its) ++ (encode_items [it'] ++ rest).
Proof.
  intros Hlen Hn. rewrite <- (take_drop n its) at 1.
  rewrite encode_items_app, <- app_assoc. do 2 f_equal.
  rewrite (drop_S _ _ _ Hn). by rewrite drop_ge by lia.
Qed.

Lemma after_delete_set_block h l cells len bytes r :
  after_delete (set_block h l cells) l len bytes r = after_delete h l len bytes r.
Proof.
  destruct r as [[its' rest']|]; cbn [after_delete].
  - by rewrite set_block_set_block.
  - by rewrite remove_block_set_block.
Qed.

Lemma bytes_of_cells_encode its rest :
  bytes_of_cells (encode_items its ++ rest)
  = CELL_BYTES * (2 * Z.of_nat (length its) + Z.of_nat (length rest)).
Proof. unfold bytes_of_cells. rewrite length_app, length_encode_items. lia. Qed.

Section delete_loop.
Context (l : loc) (len : Z) (key : Z).

Lemma hashmapDelete_loop_done fuel b i :
  ~ (i < b_itemCount b) -> hashmapDelete_loop fuel b key i = ret b.
Proof. intros. destruct fuel; cbn [hashmapDelete_loop]; by rewrite decide_False. Qed.

Lemma hashmapDelete_loop_spec fuel h its rest j :
  holds h l its rest -> Z.of_nat (length its) < 2 ^ 32 ->
  (length its - j <= fuel)%nat ->
  hashmapDelete_loop fuel (mkBucket (Ptr l) len (Z.of_nat (length its))) key
    (Z.of_nat j) h
  = after_delete h l len (bytes_of_cells (encode_items its ++ rest))
      (delete_items fuel key its rest j).
Proof.
  revert h its rest j. induction fuel as [|fuel IH]; intros h its rest j Hh Hn Hfuel.
  { rewrite hashmapDelete_loop_done by (cbn; lia). cbn. unfold ret.
    by rewrite set_block_id. }
  cbn [delete_items]. destruct (its !! j) as [it|] eqn:Hj; cycle 1.
  { apply lookup_ge_None in Hj. rewrite hashmapDelete_loop_done by (cbn; lia).
    cbn. unfold ret. by rewrite set_block_id. }
  apply lookup_lt_Some in Hj as Hlt.
  cbn [hashmapDelete_loop b_itemCount b_items b_length]. rewrite decide_True by lia.
  rewrite (bind_Ok _ _ _ _ _ (load_key _ _ _ _ Hh _ _ Hj)).
  rewrite (wrap32_succ j (length its)) by lia.
  destruct (feq (it_key it) key); [|apply IH; (done || lia)].
  destruct (last its) as [it'|] eqn:Hlast;
    [|apply last_None in Hlast; subst; by rewrite lookup_nil in Hj].
  rewrite last_lookup in Hlast.
  replace (wrap32 (Z.of_nat (length its) - 1)) with (Z.of_nat (pred (length its)))
    by (rewrite wrap32_small; unfold is_u32; lia).
  destruct (decide (pred (length its) = 0%nat)) as [E|E].
  - rewrite E. rewrite decide_True by done.
    rewrite (bind_Ok _ _ _ _ _ (free_Ok _ _ _ Hh)).
    by rewrite hashmapDelete_loop_done by (cbn; lia).
  - rewrite decide_False by lia.
    rewrite (copy_item _ _ _ _ Hh _ _ _ _ _ Hj Hlast).
    set (n := pred (length its)) in *. set (its2 := <[j := it']> its).
    assert (Hn2 : its2 !! n = Some it').
    { unfold its2. destruct (decide (j = n)) as [->|];
        [apply list_lookup_insert_eq; lia|by rewrite list_lookup_insert_ne]. }
    assert (Hlen2 : length its2 = S n) by (unfold its2; rewrite length_insert; lia).
    rewrite (encode_items_take_last its2 n it' rest Hlen2 Hn2).
    replace (Z.of_nat n) with (Z.of_nat (length (take n its2)))
      by (rewrite length_take; lia).
    rewrite (IH _ (take n its2) (encode_items [it'] ++ rest) (S j));
      [|by apply holds_set_block|rewrite length_take; lia..].
    rewrite after_delete_set_block. unfold its2. rewrite take_insert_comm.
    f_equal. rewrite !bytes_of_cells_encode. cbn [encode_items].
    rewrite length_insert, length_take, length_app. cbn [length].
    f_equal. unfold n. lia.
Qed.

End delete_loop.

(** ** The loops as the operations call them *)

Section loop_claims.
Context (h : heap) (l : loc) (len : Z) (its : list bucketItem_t) (rest : list (option Z)).
Hypothesis Hholds : holds h l its rest.
Hypothesis Hcount : Z.of_nat (length its) < 2 ^ 32.

#[local] Abbreviation bucket := (mkBucket (Ptr l) len (Z.of_nat (length its))).

(** C31. The loop of [hashmapRead], run from index 0 with the fuel that
    [hashmapRead] gives it, returns the value of the first item whose key
    equals the key, or the key when there is none, and changes nothing. *)
Theorem hashmapRead_loop_finds key :
  hashmapRead_loop (Z.to_nat (b_itemCount bucket)) bucket key 0 h
  = Ok (find_value key its, h).
Proof.
  cbn [b_itemCount]. rewrite Nat2Z.id.
  rewrite (hashmapRead_loop_spec h l len its rest Hholds Hcount key _ 0%nat) by lia.
  by rewrite drop_0.
Qed.

(** C32. The scan of [hashmapWrite], run from index 0 with the fuel that
    [hashmapWrite] gives it, replaces the value of the first item whose
    key equals the key and reports it, or ends with the count as index
    and changes nothing. *)
Theorem hashmapWrite_loop_scans key value :
  hashmapWrite_loop (Z.to_nat (b_itemCount bucket)) bucket key value 0 h
  = match find_item key its with
    | Some (i, it) =>
        Ok (Overwritten,
            set_block h l (encode_items (<[i := mkItem (it_key it) value]> its) ++ rest))
    | None => Ok (NotFound (Z.of_nat (length its)), h)
    end.
Proof.
  cbn [b_itemCount]. rewrite Nat2Z.id.
  rewrite (hashmapWrite_loop_spec h l len its rest Hholds Hcount key value _ 0%nat) by lia.
  rewrite drop_0. destruct (find_item key its) as [[i it]|]; [done|].
  by rewrite Nat.max_0_l.
Qed.

(** C29. The loop of [hashmapDelete], run from index 0 with the fuel
    that [hashmapDelete] gives it on items with pairwise different keys,
    does what the removal of the first match does: the last item is moved
    into its place and the count drops by one, or the block is freed when
    the count drops to zero. *)
Theorem hashmapDelete_loop_removes key :
  unique_keys its ->
  hashmapDelete_loop (Z.to_nat (b_itemCount bucket)) bucket key 0 h
  = after_delete h l len (bytes_of_cells (encode_items its ++ rest))
      (delete_first key its rest).
Proof.
  intros Hu. cbn [b_itemCount]. rewrite Nat2Z.id.
  rewrite (hashmapDelete_loop_spec l len key _ h its rest 0%nat) by (done || lia).
  by rewrite delete_items_delete_first.
Qed.

End loop_claims.

(** ** The loops on a concrete block *)

Lemma ex_block_holds : holds ex_block_heap 1 ex_items [None; None].
Proof. reflexivity. Qed.

Lemma hashmapRead_loop_finds_witness :
  hashmapRead_loop 2 (mkBucket (Ptr 1) 2 2) 2 0 ex_block_heap
  = Ok (20, ex_block_heap).
Proof.
  apply (hashmapRead_loop_finds ex_block_heap 1 2 ex_items [None; None]
           ex_block_holds); reflexivity.
Defined.

Lemma hashmapWrite_loop_scans_witness :
  hashmapWrite_loop 2 (mkBucket (Ptr 1) 2 2) 3 30 0 ex_block_heap
  = Ok (NotFound 2, ex_block_heap).
Proof.
  apply (hashmapWrite_loop_scans ex_block_heap 1 2 ex_items [None; None]
           ex_block_holds); reflexivity.
Defined.

Lemma hashmapDelete_loop_removes_witness :
  hashmapDelete_loop 2 (mkBucket (Ptr 1) 2 2) 1 0 ex_block_heap
  = Ok (mkBucket (Ptr 1) 2 1,
        set_block ex_block_heap 1 (encode_items [mkItem 2 20] ++ encode_items [mkItem 2 20]
                                   ++ [None; None])).
Proof.
  apply (hashmapDelete_loop_removes ex_block_heap 1 2 ex_items
           [None; None] ex_block_holds); [reflexivity|].
  repeat (apply unique_keys_cons; [repeat constructor|]). apply unique_keys_nil.
Defined.
