(* ===== verification/Rep.v ===== *)
(** * Rep: how a table in storage represents an abstract table

    [bucket_rep h b ab] says that the bucket [b], with the heap [h],
    stands for the abstract bucket [ab]: the all-zero bucket for [Fresh];
    a pointer to a block that starts with the items, with the count and
    the length that go with them, for [Stored]; a pointer whose block is
    gone, with count zero, for [Freed].  [rep h t a] says it of every
    bucket of the table [t], and that no two buckets share a block.  The
    lemmas of this file select the bucket of a key as the operations do,
    and re-establish [rep] after an operation has changed one bucket and
    its block. *)

From S2P Require Import Prelude Word32 Double Hasher Heap Table Items Abstract Bucket.

(** The bucket at an index, by value. *)
Definition bucket_at (t : hashmap_t) (idx : Z) : bucket_t :=
  match h_buckets t with
  | Some bs => default zero_bucket (bs !! idx)
  | None => zero_bucket
  end.

Inductive bucket_rep (h : heap) (b : bucket_t) : abucket -> Prop :=
| rep_fresh :
    b = zero_bucket -> bucket_rep h b Fresh
| rep_stored l cap its rest :
    b = mkBucket (Ptr l) cap (Z.of_nat (length its)) ->
    holds h l its rest ->
    Z.of_nat (length (encode_items its ++ rest)) = 2 * cap ->
    bucket_rep h b (Stored cap its)
| rep_freed l cap :
    b = mkBucket (Ptr l) cap 0 ->
    hp_blocks h !! l = None ->
    bucket_rep h b (Freed cap).

Record rep (h : heap) (t : hashmap_t) (a : atable) : Prop := mkRep {
  rep_null : h_buckets t = None <-> a_buckets a = None;
  rep_bucket : forall idx, bucket_rep h (bucket_at t idx) (a_bucket a idx);
  rep_count : h_itemCount t = 0;
  rep_separate : forall idx1 idx2 l,
    b_items (bucket_at t idx1) = Ptr l -> b_items (bucket_at t idx2) = Ptr l ->
    idx1 = idx2;
  rep_below : forall idx l, b_items (bucket_at t idx) = Ptr l -> l < hp_next h;
  rep_heap : heap_ok h;
  rep_avail : hp_avail h = a_avail a;
}.

(** ** Selecting the bucket *)

Lemma bucket_at_set_bucket t idx b idx' :
  is_Some (h_buckets t) ->
  bucket_at (set_bucket t idx b) idx'
  = if decide (idx = idx') then b else bucket_at t idx'.
Proof.
  intros [bs Hbs]. unfold bucket_at, set_bucket. cbn [h_buckets]. rewrite Hbs.
  cbn [fmap option_fmap option_map]. rewrite lookup_insert.
  by case_decide.
Qed.

Lemma get_bucket_Ok t idx h :
  is_Some (h_buckets t) -> 0 <= idx <= HASHMAP_BUCKET_MASK ->
  get_bucket t idx h = Ok (bucket_at t idx, h).
Proof.
  intros [bs Hbs] Hidx. unfold get_bucket, bucket_at. rewrite Hbs.
  by rewrite decide_True.
Qed.

Lemma get_bucket_null t idx h :
  h_buckets t = None -> get_bucket t idx h = Err NullDeref.
Proof. intros Hbs. unfold get_bucket. by rewrite Hbs. Qed.

Section select.
Context `{!HasherOk H}.

Lemma bucket_index_Ok key h : bucket_index key h = Ok (index_of key, h).
Proof. unfold bucket_index, bind, lift_result. by rewrite hasher_hash_of. Qed.

(** The first two statements of each operation. *)
Lemma select_bucket {A} t key (k : Z -> bucket_t -> M heap A) h :
  is_Some (h_buckets t) ->
  (let* hash := bucket_index key in
   let* bucket := get_bucket t hash in k hash bucket) h
  = k (index_of key) (bucket_at t (index_of key)) h.
Proof.
  intros Hbs. rewrite (bind_Ok _ _ _ _ _ (bucket_index_Ok key h)).
  by rewrite (bind_Ok _ _ _ _ _ (get_bucket_Ok _ _ _ Hbs (index_of_range key))).
Qed.

Lemma select_bucket_null {A} t key (k : Z -> bucket_t -> M heap A) h :
  h_buckets t = None ->
  (let* hash := bucket_index key in
   let* bucket := get_bucket t hash in k hash bucket) h = Err NullDeref.
Proof.
  intros Hbs. rewrite (bind_Ok _ _ _ _ _ (bucket_index_Ok key h)).
  apply bind_Err. by apply get_bucket_null.
Qed.

End select.

(** ** Changing one bucket *)

Section update.
Implicit Types (h : heap) (t : hashmap_t) (a : atable) (b : bucket_t).

Lemma rep_is_Some h t a : rep h t a -> is_Some (a_buckets a) -> is_Some (h_buckets t).
Proof.
  intros Hrep Hbs. destruct (h_buckets t) eqn:E; [done|].
  apply (rep_null _ _ _ Hrep) in E. rewrite E in Hbs. by destruct Hbs.
Qed.

Lemma rep_is_Some_inv h t a : rep h t a -> is_Some (h_buckets t) -> is_Some (a_buckets a).
Proof.
  intros Hrep Hbs. destruct (a_buckets a) eqn:E; [done|].
  apply (rep_null _ _ _ Hrep) in E. rewrite E in Hbs. by destruct Hbs.
Qed.

(** A bucket stands for what it stood for when its block is as it was. *)
Lemma bucket_rep_frame h h' b ab :
  bucket_rep h b ab ->
  (forall l, b_items b = Ptr l -> hp_blocks h' !! l = hp_blocks h !! l) ->
  bucket_rep h' b ab.
Proof.
  intros [->|l cap its rest -> Hh Hlen|l cap -> Hl] Hsame.
  - by constructor.
  - eapply rep_stored; [done| |done]. unfold holds. by rewrite Hsame.
  - eapply rep_freed; [done|]. by rewrite Hsame.
Qed.

(** The table after an operation has replaced the bucket [idx] by [b] and
    changed the heap at the block of [b] only; the pointer of [b] is the
    one the bucket had, or that of a block allocated since. *)
Lemma rep_update h t a h' idx b ab avail :
  rep h t a -> is_Some (a_buckets a) ->
  bucket_rep h' b ab ->
  (forall l, b_items b = Ptr l ->
     b_items (bucket_at t idx) = Ptr l \/ (l = hp_next h /\ hp_next h < hp_next h')) ->
  (forall l, b_items b <> Ptr l -> hp_blocks h' !! l = hp_blocks h !! l) ->
  hp_next h <= hp_next h' -> hp_avail h' = avail ->
  rep h' (set_bucket t idx b) (a_set a idx ab avail).
Proof.
  intros Hrep Hbs Hb Hptr Hframe Hnext Havail.
  pose proof (rep_is_Some _ _ _ Hrep Hbs) as Hbs'.
  assert (Hother : forall idx' l, idx' <> idx ->
            b_items (bucket_at t idx') = Ptr l -> b_items b <> Ptr l).
  { intros idx' l Hne Hl Hbl. destruct (Hptr l Hbl) as [Hsame|[-> _]].
    - by destruct (Hne (rep_separate _ _ _ Hrep _ _ _ Hl Hsame)).
    - pose proof (rep_below _ _ _ Hrep _ _ Hl). lia. }
  assert (Hlt : forall l, b_items b = Ptr l -> l < hp_next h').
  { intros l Hbl. destruct (Hptr l Hbl) as [Hsame|[-> ?]]; [|done].
    pose proof (rep_below _ _ _ Hrep _ _ Hsame). lia. }
  split.
  - destruct Hbs as [? Ha]. destruct Hbs' as [? Ht]. unfold set_bucket, a_set.
    cbn [h_buckets a_buckets]. by rewrite Ha, Ht.
  - intros idx'. rewrite bucket_at_set_bucket, a_bucket_a_set by done.
    case_decide; [done|]. eapply bucket_rep_frame; [apply (rep_bucket _ _ _ Hrep)|].
    intros l Hl. apply Hframe. by eapply Hother.
  - apply (rep_count _ _ _ Hrep).
  - intros idx1 idx2 l. rewrite !bucket_at_set_bucket by done.
    repeat case_decide; subst; try done; intros H1 H2.
    + by destruct (Hother idx2 l).
    + by destruct (Hother idx1 l).
    + by eapply (rep_separate _ _ _ Hrep).
  - intros idx' l. rewrite bucket_at_set_bucket by done. case_decide; [by auto|].
    intros Hl%(rep_below _ _ _ Hrep). lia.
  - intros l cells Hl. destruct (decide (b_items b = Ptr l)) as [E|E]; [by auto|].
    rewrite Hframe in Hl by done. apply (rep_heap _ _ _ Hrep) in Hl. lia.
  - done.
Qed.

End update.
