(* ===== verification/Exec.v ===== *)
(** * Exec: each operation on a bucket in a known state

    One lemma per operation and per state of the bucket the key selects:
    what the operation returns and the heap it leaves, or the error it
    stops with.  Refine assembles them into the refinement of the
    abstract table. *)

From S2P Require Import Prelude Word32 Double Hasher Heap Table Items Abstract Bucket Rep.

(** The heap after the first write to a bucket: a block of 8 items whose
    first item is the new one. *)
Definition first_block (key value : Z) : list (option Z) :=
  encode_items [mkItem key value] ++ replicate 14 (Some 0).

Definition heap_after_first (key value : Z) (h : heap) : heap :=
  mkHeap (<[hp_next h := first_block key value]> (hp_blocks h)) (hp_next h + 1)
         (hp_avail h - HASHMAP_BUCKET_INITSIZE * sizeof_bucketItem_t).

(** Bytes of the table object and of its bucket array. *)
Definition table_bytes : Z :=
  sizeof_hashmap_t + (HASHMAP_BUCKET_MASK + 1) * sizeof_bucket_t.

(** ** [hashmapRead] *)

Section read.
Context `{!HasherOk H}.

Lemma hashmapRead_spec t key h ab :
  is_Some (h_buckets t) ->
  bucket_rep h (bucket_at t (index_of key)) ab ->
  Z.of_nat (length (items_of ab)) < 2 ^ 32 ->
  hashmapRead t key h = Ok (find_value key (items_of ab), h).
Proof.
  intros Hbs Hst Hlen. unfold hashmapRead. rewrite select_bucket by done.
  destruct Hst as [->|l cap its rest -> Hh _|l cap -> _];
    cbn [b_items b_itemCount zero_bucket items_of] in *.
  - done.
  - rewrite decide_False by done. rewrite Nat2Z.id.
    apply (hashmapRead_loop_spec h l cap its rest Hh Hlen key _ 0%nat). lia.
  - rewrite decide_False by done. by rewrite hashmapRead_loop_empty.
Qed.

Lemma hashmapRead_null t key h :
  h_buckets t = None -> hashmapRead t key h = Err NullDeref.
Proof. intros Hbs. unfold hashmapRead. by apply select_bucket_null. Qed.

End read.

(** ** [hashmapWrite] *)

Lemma hashmapWrite_equal `{H : Hasher} t key value :
  feq key value = true -> hashmapWrite t key value = hashmapDelete t key.
Proof. unfold hashmapWrite. by intros ->. Qed.

Section write.
Context `{!HasherOk H}.
Context (t : hashmap_t) (key value : Z) (h : heap).
Hypothesis Hbs : is_Some (h_buckets t).
Hypothesis Hkv : feq key value = false.

#[local] Abbreviation idx := (index_of key).

Lemma hashmapWrite_overwrite l len its rest i it :
  bucket_at t idx = mkBucket (Ptr l) len (Z.of_nat (length its)) ->
  holds h l its rest -> Z.of_nat (length its) < 2 ^ 32 ->
  find_item key its = Some (i, it) ->
  hashmapWrite t key value h
  = Ok (set_bucket t idx (mkBucket (Ptr l) len (Z.of_nat (length its))),
        set_block h l (encode_items (<[i := mkItem (it_key it) value]> its) ++ rest)).
Proof.
  intros Hb Hh Hn Hfind. unfold hashmapWrite. rewrite Hkv. cbv iota.
  rewrite select_bucket by done. rewrite Hb. cbn [b_items b_itemCount b_length].
  rewrite decide_False by done. rewrite bind_ret_l. cbv beta.
  cbn [b_items b_itemCount b_length]. rewrite Nat2Z.id.
  erewrite bind_Ok; cycle 1.
  { etrans; [apply (hashmapWrite_loop_spec h l len its rest Hh Hn key value _ 0%nat); lia|].
    rewrite drop_0. by rewrite Hfind. }
  done.
Qed.

Lemma hashmapWrite_append l len its c1 c2 rest :
  bucket_at t idx = mkBucket (Ptr l) len (Z.of_nat (length its)) ->
  holds h l its (c1 :: c2 :: rest) ->
  Z.of_nat (length its) < len < 2 ^ 32 ->
  find_item key its = None ->
  hashmapWrite t key value h
  = Ok (set_bucket t idx
          (mkBucket (Ptr l) len (Z.of_nat (length (its ++ [mkItem key value])))),
        set_block h l (encode_items (its ++ [mkItem key value]) ++ rest)).
Proof.
  intros Hb Hh Hn Hfind. unfold hashmapWrite. rewrite Hkv. cbv iota.
  rewrite select_bucket by done. rewrite Hb. cbn [b_items b_itemCount b_length].
  rewrite decide_False by done. rewrite bind_ret_l. cbv beta.
  cbn [b_items b_itemCount b_length]. rewrite Nat2Z.id.
  erewrite bind_Ok; cycle 1.
  { etrans; [apply (hashmapWrite_loop_spec h l len its _ Hh ltac:(lia) key value _ 0%nat); lia|].
    rewrite drop_0. by rewrite Hfind. }
  cbv beta iota. cbn [b_items b_itemCount b_length]. rewrite decide_False by lia.
  rewrite bind_ret_l. cbv beta. cbn [b_items b_itemCount b_length].
  rewrite Nat.max_0_l.
  rewrite <- bind_assoc. erewrite bind_Ok by (by eapply store_append).
  unfold ret. do 4 f_equal. rewrite length_app. cbn [length].
  rewrite wrap32_small; unfold is_u32; lia.
Qed.

Lemma hashmapWrite_first :
  bucket_at t idx = zero_bucket ->
  HASHMAP_BUCKET_INITSIZE * sizeof_bucketItem_t <= hp_avail h ->
  hashmapWrite t key value h
  = Ok (set_bucket t idx (mkBucket (Ptr (hp_next h)) HASHMAP_BUCKET_INITSIZE 1),
        heap_after_first key value h).
Proof.
  intros Hb Hav. unfold hashmapWrite. rewrite Hkv. cbv iota.
  rewrite select_bucket by done. rewrite Hb. cbn [b_items b_itemCount b_length zero_bucket].
  rewrite decide_True by done.
  erewrite bind_Ok; cycle 1.
  { erewrite bind_Ok by (by apply calloc_Ok). done. }
  cbv beta. cbn [b_items b_itemCount b_length].
  rewrite hashmapWrite_loop_empty, bind_ret_l. cbv beta iota.
  cbn [b_items b_itemCount b_length]. rewrite decide_False by done.
  rewrite bind_ret_l. cbv beta. cbn [b_items b_itemCount b_length].
  rewrite <- bind_assoc.
  erewrite bind_Ok; cycle 1.
  { apply (store_append _ (hp_next h) [] (Some 0) (Some 0) (replicate 14 (Some 0))).
    unfold holds. cbn [hp_blocks]. by rewrite lookup_insert_eq. }
  unfold ret, heap_after_first, set_block. cbn [hp_blocks hp_next hp_avail].
  by rewrite insert_insert_eq.
Qed.

Lemma hashmapWrite_alloc_fails :
  bucket_at t idx = zero_bucket ->
  hp_avail h < HASHMAP_BUCKET_INITSIZE * sizeof_bucketItem_t ->
  hashmapWrite t key value h = Err NullDeref.
Proof.
  intros Hb Hav. unfold hashmapWrite. rewrite Hkv. cbv iota.
  rewrite select_bucket by done. rewrite Hb. cbn [b_items b_itemCount b_length zero_bucket].
  rewrite decide_True by done.
  erewrite bind_Ok; cycle 1.
  { erewrite bind_Ok by (by apply calloc_fails). done. }
  cbv beta. cbn [b_items b_itemCount b_length].
  rewrite hashmapWrite_loop_empty, bind_ret_l. cbv beta iota.
  cbn [b_items b_itemCount b_length]. rewrite decide_False by done.
  by rewrite bind_ret_l.
Qed.

Lemma hashmapWrite_dangling l len :
  bucket_at t idx = mkBucket (Ptr l) len 0 ->
  hp_blocks h !! l = None ->
  hashmapWrite t key value h = Err DanglingPointer.
Proof.
  intros Hb Hl. unfold hashmapWrite. rewrite Hkv. cbv iota.
  rewrite select_bucket by done. rewrite Hb. cbn [b_items b_itemCount b_length].
  rewrite decide_False by done. rewrite bind_ret_l. cbv beta.
  cbn [b_items b_itemCount b_length].
  rewrite hashmapWrite_loop_empty, bind_ret_l. cbv beta iota.
  cbn [b_items b_itemCount b_length]. case_decide.
  - apply bind_Err. apply bind_Err. by apply realloc_dangling.
  - rewrite bind_ret_l. cbv beta. cbn [b_items]. apply bind_Err. by apply store_dangling.
Qed.

Lemma hashmapWrite_full l its rest :
  bucket_at t idx
  = mkBucket (Ptr l) (Z.of_nat (length its)) (Z.of_nat (length its)) ->
  holds h l its rest ->
  Z.of_nat (length its) < 2 ^ 32 ->
  Z.of_nat (length (encode_items its ++ rest)) = 2 * Z.of_nat (length its) ->
  0 <= hp_avail h ->
  find_item key its = None ->
  hashmapWrite t key value h = Err OutOfBounds.
Proof.
  intros Hb Hh Hn Hlen Hav Hfind. unfold hashmapWrite. rewrite Hkv. cbv iota.
  rewrite select_bucket by done. rewrite Hb. cbn [b_items b_itemCount b_length].
  rewrite decide_False by done. rewrite bind_ret_l. cbv beta.
  cbn [b_items b_itemCount b_length]. rewrite Nat2Z.id.
  erewrite bind_Ok; cycle 1.
  { etrans; [apply (hashmapWrite_loop_spec h l _ its _ Hh ltac:(lia) key value _ 0%nat); lia|].
    rewrite drop_0. by rewrite Hfind. }
  cbv beta iota. cbn [b_items b_itemCount b_length]. rewrite decide_True by done.
  rewrite Nat.max_0_l.
  pose proof (wrap32_le (Z.of_nat (length its) * 2) ltac:(lia)) as Hw.
  erewrite bind_Ok; cycle 1.
  { erewrite bind_Ok; [done|]. apply realloc_Ok; [exact Hh|].
    unfold bytes_of_cells, CELL_BYTES. lia. }
  cbv beta. cbn [b_items]. apply bind_Err.
  eapply store_out_of_bounds; [cbn [hp_blocks]; apply lookup_insert_eq|].
  rewrite length_resize. unfold cells_of_bytes, key_index, CELL_BYTES.
  rewrite Z2Nat.id by (apply Z.div_pos; lia). mod_lia.
Qed.

End write.

Section null.
Context `{!HasherOk H}.

Lemma hashmapDelete_null t key h :
  h_buckets t = None -> hashmapDelete t key h = Err NullDeref.
Proof. intros Hbs. unfold hashmapDelete. by apply select_bucket_null. Qed.

Lemma hashmapWrite_null t key value h :
  h_buckets t = None -> hashmapWrite t key value h = Err NullDeref.
Proof.
  intros Hbs. unfold hashmapWrite.
  destruct (feq key value); [by apply hashmapDelete_null|by apply select_bucket_null].
Qed.

End null.

Section delete.
Context `{!HasherOk H}.
Context (t : hashmap_t) (key : Z) (h : heap).
Hypothesis Hbs : is_Some (h_buckets t).

#[local] Abbreviation idx := (index_of key).

Lemma hashmapDelete_fresh :
  bucket_at t idx = zero_bucket -> hashmapDelete t key h = Ok (t, h).
Proof.
  intros Hb. unfold hashmapDelete. rewrite select_bucket by done. by rewrite Hb.
Qed.

Lemma hashmapDelete_empty l len :
  bucket_at t idx = mkBucket (Ptr l) len 0 ->
  hashmapDelete t key h = Ok (set_bucket t idx (mkBucket (Ptr l) len 0), h).
Proof.
  intros Hb. unfold hashmapDelete. rewrite select_bucket by done. rewrite Hb.
  cbn [b_items b_itemCount]. rewrite decide_False by done.
  by rewrite hashmapDelete_loop_empty, bind_ret_l.
Qed.

(** On a bucket that stores items with pairwise different keys, the
    deletion removes the first match by moving the last item into its
    place, and releases the block when it removed the only item. *)
Lemma hashmapDelete_stored l len its rest :
  bucket_at t idx = mkBucket (Ptr l) len (Z.of_nat (length its)) ->
  holds h l its rest -> Z.of_nat (length its) < 2 ^ 32 -> unique_keys its ->
  hashmapDelete t key h
  = match delete_first key its rest with
    | Some (its', rest') =>
        Ok (set_bucket t idx (mkBucket (Ptr l) len (Z.of_nat (length its'))),
            set_block h l (encode_items its' ++ rest'))
    | None =>
        Ok (set_bucket t idx (mkBucket (Ptr l) len 0),
            remove_block h l (bytes_of_cells (encode_items its ++ rest)))
    end.
Proof.
  intros Hb Hh Hn Hu. unfold hashmapDelete. rewrite select_bucket by done. rewrite Hb.
  cbn [b_items b_itemCount]. rewrite decide_False by done. rewrite Nat2Z.id.
  pose proof (hashmapDelete_loop_spec l len key (length its) h its rest 0%nat
                Hh Hn ltac:(lia)) as Hloop.
  rewrite delete_items_delete_first in Hloop by done.
  destruct (delete_first key its rest) as [[its' rest']|];
    by rewrite (bind_Ok _ _ _ _ _ Hloop).
Qed.

End delete.

Section create.

Lemma hashmapCreate_Ok h :
  table_bytes <= hp_avail h ->
  hashmapCreate h
  = Ok (mkHashmap (Some ∅) 0,
        mkHeap (hp_blocks h) (hp_next h) (hp_avail h - table_bytes)).
Proof.
  intros Hav. unfold table_bytes in *. unfold hashmapCreate, bind, reserve.
  assert ((HASHMAP_BUCKET_MASK + 1) * sizeof_bucket_t >= 0) by done.
  rewrite decide_True by (unfold sizeof_hashmap_t in *; lia). cbn [hp_avail].
  rewrite decide_True by lia. unfold ret. cbn [hp_blocks hp_next hp_avail].
  do 3 f_equal. lia.
Qed.

Lemma hashmapCreate_no_buckets h :
  sizeof_hashmap_t <= hp_avail h < table_bytes ->
  hashmapCreate h
  = Ok (mkHashmap None 0,
        mkHeap (hp_blocks h) (hp_next h) (hp_avail h - sizeof_hashmap_t)).
Proof.
  intros Hav. unfold table_bytes in *. unfold hashmapCreate, bind, reserve.
  rewrite decide_True by lia. cbn [hp_avail]. by rewrite decide_False by lia.
Qed.

Lemma hashmapCreate_fails h :
  hp_avail h < sizeof_hashmap_t -> hashmapCreate h = Err NullDeref.
Proof.
  intros Hav. unfold hashmapCreate, bind, reserve. by rewrite decide_False by lia.
Qed.

End create.

(** ** A hash function that fails

    Each operation computes the hash first and stops where it stops. *)

Section hasher_fails.
Context {H : Hasher}.

Lemma bucket_index_Err key e h : hasher key = Err e -> bucket_index key h = Err e.
Proof. intros He. unfold bucket_index, bind, lift_result. by rewrite He. Qed.

Lemma hashmapRead_hasher_fails t key e h :
  hasher key = Err e -> hashmapRead t key h = Err e.
Proof. intros He. apply bind_Err. by apply bucket_index_Err. Qed.

Lemma hashmapDelete_hasher_fails t key e h :
  hasher key = Err e -> hashmapDelete t key h = Err e.
Proof. intros He. apply bind_Err. by apply bucket_index_Err. Qed.

Lemma hashmapWrite_hasher_fails t key value e h :
  hasher key = Err e -> hashmapWrite t key value h = Err e.
Proof.
  intros He. unfold hashmapWrite. destruct (feq key value).
  - by apply hashmapDelete_hasher_fails.
  - apply bind_Err. by apply bucket_index_Err.
Qed.

End hasher_fails.

(** The files that follow use the operations through the equations above
    only. *)
#[global] Opaque hashmapCreate hashmapRead hashmapWrite hashmapDelete.
