(* ===== verification/Refine.v ===== *)
(** * Refine: the functions of the table implement the abstract table

    For each of [hashmapCreate], [hashmapRead], [hashmapWrite] and
    [hashmapDelete]: run on a table and a heap that represent an abstract
    table, the function returns exactly when the abstract operation does,
    with a table and a heap that represent the abstract result, and
    otherwise stops with the same error. *)

From S2P Require Import Prelude Word32 Double Hasher Heap Table Items Abstract Bucket Rep Exec.

(** The outcome [c] of a function of the table matches the outcome [r]
    of the abstract operation. *)
Inductive refines : result (hashmap_t * heap) -> result atable -> Prop :=
| refines_Ok t h a : rep h t a -> refines (Ok (t, h)) (Ok a)
| refines_Err e : refines (Err e) (Err e).

Section refine.
Context `{!HasherOk H}.
Implicit Types (h : heap) (t : hashmap_t) (a : atable) (key value : Z).

Lemma rep_bucket_fresh h t a idx :
  rep h t a -> a_bucket a idx = Fresh -> bucket_at t idx = zero_bucket.
Proof. intros Hrep Hb. pose proof (rep_bucket _ _ _ Hrep idx) as Hr. rewrite Hb in Hr. by inversion Hr. Qed.

Lemma rep_bucket_stored h t a idx cap its :
  rep h t a -> a_bucket a idx = Stored cap its ->
  exists l rest,
    bucket_at t idx = mkBucket (Ptr l) cap (Z.of_nat (length its)) /\
    holds h l its rest /\ Z.of_nat (length (encode_items its ++ rest)) = 2 * cap.
Proof.
  intros Hrep Hb. pose proof (rep_bucket _ _ _ Hrep idx) as Hr. rewrite Hb in Hr.
  inversion Hr; subst. eauto.
Qed.

Lemma rep_bucket_freed h t a idx cap :
  rep h t a -> a_bucket a idx = Freed cap ->
  exists l, bucket_at t idx = mkBucket (Ptr l) cap 0 /\ hp_blocks h !! l = None.
Proof.
  intros Hrep Hb. pose proof (rep_bucket _ _ _ Hrep idx) as Hr. rewrite Hb in Hr.
  inversion Hr; subst. eauto.
Qed.

(** The bucket keeps its block: [rep_update] for a heap changed by
    [set_block] at the pointer of the bucket. *)
Lemma rep_update_stored h t a idx l cap n cells its rest :
  rep h t a -> is_Some (a_buckets a) ->
  b_items (bucket_at t idx) = Ptr l ->
  cells = encode_items its ++ rest -> n = Z.of_nat (length its) ->
  Z.of_nat (length cells) = 2 * cap ->
  rep (set_block h l cells) (set_bucket t idx (mkBucket (Ptr l) cap n))
      (a_set a idx (Stored cap its) (a_avail a)).
Proof.
  intros Hrep Hbs Hl -> -> Hlen. eapply rep_update; try done.
  - eapply rep_stored; [done|by apply holds_set_block|done].
  - intros l' [= <-]. by left.
  - intros l' Hne. apply blocks_set_block_ne. cbn in Hne. congruence.
  - apply (rep_avail _ _ _ Hrep).
Qed.

(** The bucket of [idx] in storage, by the abstract bucket it stands for. *)
Lemma bucket_shape h t a idx :
  atable_ok a -> cap_fixed a -> rep h t a ->
  match a_bucket a idx with
  | Fresh => bucket_at t idx = zero_bucket
  | Stored cap its =>
      exists l rest, bucket_at t idx = mkBucket (Ptr l) cap (Z.of_nat (length its)) /\
        holds h l its rest /\ cap = HASHMAP_BUCKET_INITSIZE /\
        (0 < length its)%nat /\ Z.of_nat (length its) <= cap
  | Freed cap =>
      exists l, bucket_at t idx = mkBucket (Ptr l) cap 0 /\
        hp_blocks h !! l = None /\ cap = HASHMAP_BUCKET_INITSIZE
  end.
Proof.
  intros Hok Hcf Hrep. pose proof (Hcf idx) as Hcap.
  destruct (a_bucket a idx) as [|cap its|cap] eqn:Hb.
  - by eapply rep_bucket_fresh.
  - destruct (rep_bucket_stored _ _ _ _ _ _ Hrep Hb) as (l & rest & Hbk & Hh & _).
    destruct (ao_items _ Hok _ _ _ Hb) as (_ & Hlen & Hle).
    exists l, rest. split_and!; [done|done|by apply Hcap|done|lia].
  - destruct (rep_bucket_freed _ _ _ _ _ Hrep Hb) as (l & Hbk & Hl).
    exists l. split_and!; [done|done|by apply Hcap].
Qed.

Lemma bucket_count h t a idx :
  atable_ok a -> cap_fixed a -> rep h t a ->
  b_itemCount (bucket_at t idx) = Z.of_nat (length (items_of (a_bucket a idx))).
Proof.
  intros Hok Hcf Hrep. pose proof (bucket_shape h t a idx Hok Hcf Hrep) as Hs.
  destruct (a_bucket a idx).
  - by rewrite Hs.
  - by destruct Hs as (l & rest & -> & _).
  - by destruct Hs as (l & -> & _).
Qed.

Lemma hashmapRead_refines h t a key :
  atable_ok a -> rep h t a ->
  hashmapRead t key h = (fun v => (v, h)) <$> abs_read key a.
Proof.
  intros Hok Hrep. destruct (a_buckets a) as [bs|] eqn:Hbs.
  - rewrite abs_read_Ok by (by rewrite Hbs).
    eapply hashmapRead_spec; [eapply rep_is_Some; by rewrite ?Hbs|apply (rep_bucket _ _ _ Hrep)|].
    destruct (a_bucket a (index_of key)) as [|cap its|cap] eqn:Hb; cbn [items_of length]; [done| |done].
    destruct (ao_items _ Hok _ _ _ Hb) as (_ & _ & ?). lia.
  - unfold abs_read. rewrite Hbs. apply hashmapRead_null. by apply (rep_null _ _ _ Hrep).
Qed.

Lemma hashmapDelete_refines h t a key :
  atable_ok a -> rep h t a ->
  refines (hashmapDelete t key h) (abs_delete key a).
Proof.
  intros Hok Hrep. unfold abs_delete. destruct (a_buckets a) as [bs|] eqn:Hbs; cycle 1.
  { rewrite hashmapDelete_null; [constructor|]. by apply (rep_null _ _ _ Hrep). }
  assert (Hsome : is_Some (a_buckets a)) by (by rewrite Hbs).
  pose proof (rep_is_Some _ _ _ Hrep Hsome) as Hsome'.
  destruct (a_bucket a (index_of key)) as [|cap its|cap] eqn:Hb.
  - rewrite hashmapDelete_fresh; [by constructor|done|by eapply rep_bucket_fresh].
  - destruct (rep_bucket_stored _ _ _ _ _ _ Hrep Hb) as (l & rest & Hbk & Hh & Hlen).
    destruct (ao_items _ Hok _ _ _ Hb) as ([_ Hu _] & _ & Hcap).
    erewrite hashmapDelete_stored by (done || lia).
    rewrite <- (remove_first_eq key its rest).
    destruct (delete_first key its rest) as [[its' rest']|] eqn:Hd; cbn; constructor.
    + eapply rep_update_stored; try done; [by rewrite Hbk|].
      rewrite <- Hlen. by rewrite (delete_first_length _ _ _ _ _ Hd).
    + eapply rep_update; try done.
      * by eapply rep_freed; [|apply lookup_delete_eq].
      * intros l' [= <-]. left. by rewrite Hbk.
      * intros l' Hne. cbn [remove_block hp_blocks]. apply lookup_delete_ne.
        cbn in Hne. congruence.
      * cbn [remove_block hp_avail]. rewrite (rep_avail _ _ _ Hrep).
        unfold bytes_of_cells, bucket_bytes, CELL_BYTES, sizeof_bucketItem_t. lia.
  - destruct (rep_bucket_freed _ _ _ _ _ Hrep Hb) as (l & Hbk & Hl).
    erewrite hashmapDelete_empty by done. constructor. eapply rep_update; try done.
    + by eapply rep_freed.
    + intros l' [= <-]. left. by rewrite Hbk.
    + apply (rep_avail _ _ _ Hrep).
Qed.

End refine.

Section refine_write.
Context `{!HasherOk H}.
Context (h : heap) (t : hashmap_t) (a : atable) (key value : Z).
Hypothesis Hok : atable_ok a.
Hypothesis Hrep : rep h t a.
Hypothesis Hbs : is_Some (a_buckets a).
Hypothesis Hkv : feq key value = false.

#[local] Abbreviation idx := (index_of key).

Lemma write_fresh_refines :
  a_bucket a idx = Fresh ->
  refines (hashmapWrite t key value h)
    (let bytes := bucket_bytes HASHMAP_BUCKET_INITSIZE in
     if decide (bytes <= a_avail a) then
       Ok (a_set a idx (Stored HASHMAP_BUCKET_INITSIZE [mkItem key value])
             (a_avail a - bytes))
     else Err NullDeref).
Proof.
  intros Hb. pose proof (rep_is_Some _ _ _ Hrep Hbs) as Hbs'.
  pose proof (rep_bucket_fresh _ _ _ _ Hrep Hb) as Hbk.
  pose proof (rep_avail _ _ _ Hrep) as Hav. unfold bucket_bytes. cbv zeta.
  case_decide.
  - rewrite hashmapWrite_first by (done || lia). constructor.
    eapply rep_update; try done.
    + by eapply (rep_stored _ _ (hp_next h) _ [mkItem key value] (replicate 14 (Some 0)));
        [|apply lookup_insert_eq|].
    + intros l [= <-]. right. cbn [heap_after_first hp_next]. lia.
    + intros l Hne. cbn [heap_after_first hp_blocks]. apply lookup_insert_ne.
      cbn in Hne. congruence.
    + cbn [heap_after_first hp_next]. lia.
    + cbn [heap_after_first hp_avail]. lia.
  - rewrite hashmapWrite_alloc_fails by (done || lia). constructor.
Qed.

Lemma write_stored_refines cap its :
  a_bucket a idx = Stored cap its ->
  refines (hashmapWrite t key value h)
    (if decide (is_Some (find_item key its) \/ Z.of_nat (length its) < cap)
     then Ok (a_set a idx (Stored cap (write_items key value its)) (a_avail a))
     else Err OutOfBounds).
Proof.
  intros Hb. pose proof (rep_is_Some _ _ _ Hrep Hbs) as Hbs'.
  destruct (rep_bucket_stored _ _ _ _ _ _ Hrep Hb) as (l & rest & Hbk & Hh & Hlen).
  destruct (ao_items _ Hok _ _ _ Hb) as (_ & _ & Hcap).
  assert (Hl : b_items (bucket_at t idx) = Ptr l) by (by rewrite Hbk).
  unfold write_items, overwrite_item, append_item.
  destruct (find_item key its) as [[i it]|] eqn:Hf.
  - rewrite decide_True by (left; by eexists).
    erewrite hashmapWrite_overwrite by (done || lia). constructor.
    eapply rep_update_stored; try done; [by rewrite length_insert|].
    rewrite <- Hlen, !length_app, !length_encode_items, length_insert. lia.
  - case_decide as Hroom.
    + destruct Hroom as [[? [=]]|Hroom].
      rewrite length_app, length_encode_items in Hlen.
      destruct rest as [|c1 [|c2 rest]]; cbn [length] in Hlen; try lia.
      erewrite hashmapWrite_append by (done || lia). constructor.
      eapply rep_update_stored; try done.
      rewrite length_app, length_encode_items, length_app. cbn [length]. lia.
    + assert (cap = Z.of_nat (length its)) as ->
        by (destruct (decide (Z.of_nat (length its) < cap)); [destruct Hroom; by right|lia]).
      rewrite (hashmapWrite_full t key value h Hbs' Hkv l its rest);
        [constructor|done|done|lia|done| |done].
      rewrite (rep_avail _ _ _ Hrep). apply (ao_avail _ Hok).
Qed.

Lemma write_freed_refines cap :
  a_bucket a idx = Freed cap ->
  refines (hashmapWrite t key value h) (Err DanglingPointer).
Proof.
  intros Hb. pose proof (rep_is_Some _ _ _ Hrep Hbs) as Hbs'.
  destruct (rep_bucket_freed _ _ _ _ _ Hrep Hb) as (l & Hbk & Hl).
  rewrite (hashmapWrite_dangling t key value h Hbs' Hkv l cap Hbk Hl). constructor.
Qed.

End refine_write.

Section refine_top.
Context `{!HasherOk H}.
Implicit Types (h : heap) (t : hashmap_t) (a : atable) (key value : Z).

Lemma hashmapWrite_refines h t a key value :
  atable_ok a -> rep h t a ->
  refines (hashmapWrite t key value h) (abs_write key value a).
Proof.
  intros Hok Hrep. unfold abs_write. destruct (feq key value) eqn:Hkv.
  { rewrite (hashmapWrite_equal _ _ _ Hkv). exact (hashmapDelete_refines _ _ _ _ Hok Hrep). }
  destruct (a_buckets a) as [bs|] eqn:Hbs; cycle 1.
  { rewrite hashmapWrite_null; [constructor|]. by apply (rep_null _ _ _ Hrep). }
  assert (Hsome : is_Some (a_buckets a)) by (by rewrite Hbs).
  destruct (a_bucket a (index_of key)) as [|cap its|cap] eqn:Hb.
  - exact (write_fresh_refines _ _ _ _ _ Hrep Hsome Hkv Hb).
  - exact (write_stored_refines _ _ _ _ _ Hok Hrep Hsome Hkv _ _ Hb).
  - exact (write_freed_refines _ _ _ _ _ Hrep Hsome Hkv _ Hb).
Qed.

Lemma hashmapCreate_refines h :
  heap_ok h -> refines (hashmapCreate h) (abs_create (hp_avail h)).
Proof.
  intros Hh. unfold abs_create.
  assert (Hrep : forall bs bs' avail,
            (bs = None <-> bs' = None) ->
            (forall idx, default zero_bucket (bs ≫= (.!! idx)) = zero_bucket) ->
            (forall idx, default Fresh (bs' ≫= (.!! idx)) = Fresh) ->
            rep (mkHeap (hp_blocks h) (hp_next h) avail) (mkHashmap bs 0) (mkATable bs' avail)).
  { intros bs bs' avail Hnull Hz Hf.
    assert (Hat : forall idx, bucket_at (mkHashmap bs 0) idx = zero_bucket).
    { intros idx. specialize (Hz idx). unfold bucket_at. cbn [h_buckets]. by destruct bs. }
    split; try done.
    - intros idx. rewrite Hat. specialize (Hf idx). unfold a_bucket. cbn [a_buckets].
      destruct bs'; cbn in Hf; rewrite ?Hf; by constructor.
    - intros ? ? l. by rewrite Hat.
    - intros ? l. by rewrite Hat. }
  case_decide; [|rewrite hashmapCreate_fails by lia; constructor].
  case_decide.
  - rewrite hashmapCreate_Ok by (unfold table_bytes; lia).
    replace (hp_avail h - table_bytes)
      with (hp_avail h - sizeof_hashmap_t - (HASHMAP_BUCKET_MASK + 1) * sizeof_bucket_t)
      by (unfold table_bytes; lia).
    constructor. by apply Hrep.
  - rewrite hashmapCreate_no_buckets by (unfold table_bytes; lia).
    constructor. by apply Hrep.
Qed.

End refine_top.
