(* ===== verification/Run.v ===== *)
(** * Run: sequences of operations on a table

    A client of [src/hashmap.c] creates a table and then calls
    [hashmapRead], [hashmapWrite] and [hashmapDelete] on it in some order.
    [run] is such a sequence of calls on the table in storage, [abs_run]
    the same sequence on the abstract table; what a run shows to the
    client is the values its reads return, or the error it stops with.
    [state_reachable] and [reachable] are the states a client can bring
    the table to, in storage and abstractly.  The lemmas of this file show
    that each call, and so each run, does in storage what it does
    abstractly, and that every state reachable in storage represents a
    reachable abstract state. *)

From S2P Require Import Prelude Word32 Double Hasher Heap Table Items Abstract Bucket Rep Exec Refine.

Inductive op : Type :=
| Read (key : Z)
| Write (key value : Z)
| Delete (key : Z).

#[export] Instance op_eq_dec : EqDecision op.
Proof. solve_decision. Defined.

(** The abstract states a client can reach. *)
Inductive reachable `{H : Hasher} : atable -> Prop :=
| reach_create avail a :
    abs_create avail = Ok a -> reachable a
| reach_write key value a a' :
    reachable a -> abs_write key value a = Ok a' -> reachable a'
| reach_delete key a a' :
    reachable a -> abs_delete key a = Ok a' -> reachable a'.

(** The tables and heaps a client can reach, from a heap [h0] in which
    the table is created. *)
Inductive state_reachable `{H : Hasher} : heap -> hashmap_t -> Prop :=
| sr_create h0 t h :
    heap_ok h0 -> hashmapCreate h0 = Ok (t, h) -> state_reachable h t
| sr_write key value h t h' t' :
    state_reachable h t -> hashmapWrite t key value h = Ok (t', h') ->
    state_reachable h' t'
| sr_delete key h t h' t' :
    state_reachable h t -> hashmapDelete t key h = Ok (t', h') ->
    state_reachable h' t'.

Section run.
Context {H : Hasher}.

(** One call, with the values it hands to the client. *)
Definition step (o : op) (t : hashmap_t) : M heap (hashmap_t * list Z) :=
  match o with
  | Read key => let* v := hashmapRead t key in ret (t, [v])
  | Write key value => let* t' := hashmapWrite t key value in ret (t', [])
  | Delete key => let* t' := hashmapDelete t key in ret (t', [])
  end.

Fixpoint run (ops : list op) (t : hashmap_t) : M heap (hashmap_t * list Z) :=
  match ops with
  | [] => ret (t, [])
  | o :: ops =>
      let* r := step o t in
      let* r' := run ops r.1 in
      ret (r'.1, r.2 ++ r'.2)
  end.

(** What a client that creates a table with [avail] bytes of storage at
    hand and then makes the calls [ops] sees. *)
Definition behaviour (avail : Z) (ops : list op) : result (list Z) :=
  (fun r => r.1.2) <$> (let* t := hashmapCreate in run ops t) (empty_heap avail).

Definition abs_step (o : op) (a : atable) : result (atable * list Z) :=
  match o with
  | Read key => v ← abs_read key a; Ok (a, [v])
  | Write key value => a' ← abs_write key value a; Ok (a', [])
  | Delete key => a' ← abs_delete key a; Ok (a', [])
  end.

Fixpoint abs_run (ops : list op) (a : atable) : result (atable * list Z) :=
  match ops with
  | [] => Ok (a, [])
  | o :: ops =>
      r ← abs_step o a;
      r' ← abs_run ops r.1;
      Ok (r'.1, r.2 ++ r'.2)
  end.

Definition abs_behaviour (avail : Z) (ops : list op) : result (list Z) :=
  snd <$> (abs_create avail ≫= abs_run ops).

(** The outcome of a run in storage matches that of the abstract run. *)
Inductive simulates
    : result ((hashmap_t * list Z) * heap) -> result (atable * list Z) -> Prop :=
| simulates_Ok t outs h a :
    atable_ok a -> rep h t a -> simulates (Ok ((t, outs), h)) (Ok (a, outs))
| simulates_Err e : simulates (Err e) (Err e).

End run.

Section simulation.
Context `{!HasherOk H}.
Implicit Types (h : heap) (t : hashmap_t) (a : atable) (o : op) (ops : list op).

Lemma refines_Ok_inv c a' :
  refines c (Ok a') -> exists t' h', c = Ok (t', h') /\ rep h' t' a'.
Proof. inversion 1; eauto. Qed.

Lemma refines_Ok_l t h r :
  refines (Ok (t, h)) r -> exists a, r = Ok a /\ rep h t a.
Proof. inversion 1; eauto. Qed.

Lemma refines_Err_inv c e : refines c (Err e) -> c = Err e.
Proof. by inversion 1. Qed.

Lemma refines_simulates (c : M heap hashmap_t) h r :
  refines (c h) r -> (forall a', r = Ok a' -> atable_ok a') ->
  simulates ((let* t' := c in ret (t', [])) h) (a' ← r; Ok (a', [])).
Proof.
  intros Href Hok. destruct r as [a'|e].
  - apply refines_Ok_inv in Href as (t' & h' & Hc & Hrep).
    rewrite (bind_Ok _ _ _ _ _ Hc). constructor; eauto.
  - apply refines_Err_inv in Href. rewrite (bind_Err _ _ _ _ Href). constructor.
Qed.

Lemma step_simulates o h t a :
  atable_ok a -> rep h t a -> simulates (step o t h) (abs_step o a).
Proof.
  intros Hok Hrep. destruct o as [key|key value|key]; cbn [step abs_step].
  - unfold bind. rewrite (hashmapRead_refines h t a key Hok Hrep).
    destruct (abs_read key a) as [v|e]; cbn; by constructor.
  - apply refines_simulates; [by apply hashmapWrite_refines|].
    intros a'. by apply abs_write_ok.
  - apply refines_simulates; [by apply hashmapDelete_refines|].
    intros a'. by apply abs_delete_ok.
Qed.

Lemma run_simulates ops h t a :
  atable_ok a -> rep h t a -> simulates (run ops t h) (abs_run ops a).
Proof.
  revert h t a. induction ops as [|o ops IH]; intros h t a Hok Hrep; cbn [run abs_run].
  { by constructor. }
  pose proof (step_simulates o h t a Hok Hrep) as Hs.
  inversion Hs as [t1 out h1 a1 Hok1 Hrep1 Hc Ha|e Hc Ha]; symmetry in Hc;
    [|rewrite (bind_Err _ _ _ _ Hc); constructor].
  rewrite (bind_Ok _ _ _ _ _ Hc). cbn [mbind result_bind fst snd].
  pose proof (IH h1 t1 a1 Hok1 Hrep1) as Hs2.
  inversion Hs2 as [t2 outs h2 a2 Hok2 Hrep2 Hc2 Ha2|e Hc2 Ha2]; symmetry in Hc2.
  - rewrite (bind_Ok _ _ _ _ _ Hc2). by constructor.
  - rewrite (bind_Err _ _ _ _ Hc2). constructor.
Qed.

Lemma heap_ok_empty avail : heap_ok (empty_heap avail).
Proof. by intros l cells. Qed.

Lemma client_simulates avail ops :
  simulates ((let* t := hashmapCreate in run ops t) (empty_heap avail))
            (abs_create avail ≫= abs_run ops).
Proof.
  pose proof (hashmapCreate_refines _ (heap_ok_empty avail)) as Hcr.
  cbn [empty_heap hp_avail] in Hcr.
  destruct (abs_create avail) as [a|e] eqn:Ha.
  - apply refines_Ok_inv in Hcr as (t & h & Hc & Hrep). rewrite (bind_Ok _ _ _ _ _ Hc).
    exact (run_simulates ops h t a (abs_create_ok _ _ Ha) Hrep).
  - apply refines_Err_inv in Hcr. rewrite (bind_Err _ _ _ _ Hcr). constructor.
Qed.

(** C1. What a client sees of the table in storage is what it sees of
    the abstract table: for every amount of storage and every sequence of
    reads, writes and deletions on a table just created, the functions of
    [src/hashmap.c] return the values the abstract operations return, or
    stop with the error the abstract operations stop with. *)
Theorem behaviour_refines avail ops : behaviour avail ops = abs_behaviour avail ops.
Proof. unfold behaviour, abs_behaviour. by destruct (client_simulates avail ops). Qed.

Lemma reachable_ok a : reachable a -> atable_ok a.
Proof.
  induction 1; eauto using abs_create_ok, abs_write_ok, abs_delete_ok.
Qed.

Lemma state_reachable_rep h t :
  state_reachable h t -> exists a, reachable a /\ rep h t a.
Proof.
  induction 1 as [h0 t h Hh0 Hc|key value h t h' t' _ (a & Hr & Hrep) Hc
                 |key h t h' t' _ (a & Hr & Hrep) Hc].
  - pose proof (hashmapCreate_refines _ Hh0) as Href. rewrite Hc in Href.
    apply refines_Ok_l in Href as (a & Ha & Hrep). eauto using reach_create.
  - pose proof (hashmapWrite_refines h t a key value (reachable_ok _ Hr) Hrep) as Href.
    rewrite Hc in Href.
    apply refines_Ok_l in Href as (a' & Ha & Hrep'). eauto using reach_write.
  - pose proof (hashmapDelete_refines h t a key (reachable_ok _ Hr) Hrep) as Href.
    rewrite Hc in Href.
    apply refines_Ok_l in Href as (a' & Ha & Hrep'). eauto using reach_delete.
Qed.

Lemma reachable_cap_fixed a : reachable a -> cap_fixed a.
Proof.
  induction 1 as [avail a Hc| |]; eauto using abs_write_cap_fixed, abs_delete_cap_fixed.
  intros idx cap. unfold abs_create in Hc.
  repeat case_decide; try done; injection Hc as <-; by unfold a_bucket.
Qed.

(** What is known of a state a client can reach. *)
Lemma state_reachable_inv h t :
  state_reachable h t -> exists a, atable_ok a /\ cap_fixed a /\ rep h t a.
Proof.
  intros (a & Hr & Hrep)%state_reachable_rep.
  exists a. split_and!; [by apply reachable_ok|by apply reachable_cap_fixed|done].
Qed.

Lemma write_Ok_inv h t a key value t' h' :
  atable_ok a -> rep h t a -> hashmapWrite t key value h = Ok (t', h') ->
  exists a', abs_write key value a = Ok a' /\ atable_ok a' /\ rep h' t' a'.
Proof.
  intros Hok Hrep Hc. pose proof (hashmapWrite_refines h t a key value Hok Hrep) as Href.
  rewrite Hc in Href. apply refines_Ok_l in Href as (a' & Ha & Hrep').
  eauto using abs_write_ok.
Qed.

Lemma delete_Ok_inv h t a key t' h' :
  atable_ok a -> rep h t a -> hashmapDelete t key h = Ok (t', h') ->
  exists a', abs_delete key a = Ok a' /\ atable_ok a' /\ rep h' t' a'.
Proof.
  intros Hok Hrep Hc. pose proof (hashmapDelete_refines h t a key Hok Hrep) as Href.
  rewrite Hc in Href. apply refines_Ok_l in Href as (a' & Ha & Hrep').
  eauto using abs_delete_ok.
Qed.

Lemma write_Err h t a key value e :
  atable_ok a -> rep h t a -> abs_write key value a = Err e ->
  hashmapWrite t key value h = Err e.
Proof.
  intros Hok Hrep Ha. pose proof (hashmapWrite_refines h t a key value Hok Hrep) as Href.
  rewrite Ha in Href. by apply refines_Err_inv in Href.
Qed.

(** The value a read returns is the value the abstract read returns. *)
Lemma read_value h t a key :
  atable_ok a -> rep h t a ->
  fst <$> hashmapRead t key h = abs_read key a.
Proof.
  intros Hok Hrep. rewrite (hashmapRead_refines h t a key Hok Hrep).
  by destruct (abs_read key a).
Qed.

Lemma read_heap h t key v h' :
  state_reachable h t -> hashmapRead t key h = Ok (v, h') -> h' = h.
Proof.
  intros (a & Hok & _ & Hrep)%state_reachable_inv.
  rewrite (hashmapRead_refines h t a key Hok Hrep).
  destruct (abs_read key a); [|done]. by intros [= _ <-].
Qed.

Lemma step_reachable o h t t' outs h' :
  state_reachable h t -> step o t h = Ok ((t', outs), h') -> state_reachable h' t'.
Proof.
  intros Hr Hs. destruct o as [key|key value|key]; cbn [step] in Hs;
    apply bind_Ok_inv in Hs as (x & h1 & Hc & [= <- <- <-]).
  - by rewrite (read_heap _ _ _ _ _ Hr Hc).
  - by eapply sr_write.
  - by eapply sr_delete.
Qed.

Lemma run_reachable ops h t t' outs h' :
  state_reachable h t -> run ops t h = Ok ((t', outs), h') -> state_reachable h' t'.
Proof.
  revert h t outs. induction ops as [|o ops IH]; intros h t outs Hr Hrun; cbn [run] in Hrun.
  { by injection Hrun as <- <- <-. }
  apply bind_Ok_inv in Hrun as ([t1 out1] & h1 & Hs & Hrun).
  apply bind_Ok_inv in Hrun as ([t2 out2] & h2 & Hrun & [= <- <- <-]).
  eauto using step_reachable.
Qed.

(** The state a client that starts with [avail] bytes reaches by [ops]. *)
Lemma client_reachable avail ops t outs h :
  (let* t := hashmapCreate in run ops t) (empty_heap avail) = Ok ((t, outs), h) ->
  state_reachable h t.
Proof.
  intros (t0 & h0 & Hc & Hrun)%bind_Ok_inv.
  eapply run_reachable; [|done]. eapply sr_create; [apply heap_ok_empty|done].
Qed.

End simulation.
