(* ===== verification/Examples.v ===== *)
(** * Examples: concrete tables

    Tables and heaps that a client reaches with the hash function of
    [src/hashmap.c] under the x86 shift semantics, computed by running the
    model.  The theorems of Correct and Faults are applied to them. *)

From S2P Require Import Prelude Word32 Double Hasher Hash Heap Table Items Abstract Bucket Rep Exec Refine Run.

Definition x86_hasher : Hasher := hashFunction_hasher shift_x86.

#[export] Instance x86_hasher_ok : HasherOk x86_hasher.
Proof. apply hashFunction_hasher_ok. Qed.

(** The table and the heap after the calls [ops] on a table created with
    [avail] bytes of storage at hand. *)
Definition client_state (avail : Z) (ops : list op) : option (hashmap_t * heap) :=
  match (let* t := hashmapCreate in run (H := x86_hasher) ops t) (empty_heap avail) with
  | Ok ((t, _), h) => Some (t, h)
  | Err _ => None
  end.

Definition no_state : hashmap_t * heap := (mkHashmap None 0, empty_heap 0).

(** Ten keys that select the bucket 38627. *)
Definition colliding : list Z :=
  [0x4097080000000000; 0x40c7818000000000; 0x40d5a04000000000; 0x40e088c000000000;
   0x40e1d0a000000000; 0x40e4830000000000; 0x40eb182000000000; 0x40f08bc000000000;
   0x40f378f000000000; 0x40f4959000000000].

Definition collide (i : nat) : Z := nth i colliding 0.

Definition writes (keys : list Z) : list op := (fun k => Write k d_one) <$> keys.

Definition ex_ops_one : list op := [Write d_3_14 d_2_71].
Definition ex_ops_freed : list op := [Write d_3_14 d_2_71; Delete d_3_14].
Definition ex_ops_two : list op := writes (take 2 colliding).
Definition ex_ops_two_del : list op := ex_ops_two ++ [Delete (collide 0)].
Definition ex_ops_full : list op := writes (take 8 colliding).
Definition ex_ops_nan : list op := [Write quiet_nan d_one].
Definition ex_ops_noop : list op := ex_ops_one ++ [Delete d_one].
Definition ex_ops_zero : list op := [Write pos_zero d_one].
Definition ex_ops_zero_del : list op := ex_ops_zero ++ [Write pos_zero neg_zero].

Definition ex_ops_run : list op :=
  [Write d_3_14 d_2_71; Read d_3_14; Write d_3_14 d_one; Read d_3_14;
   Delete d_3_14; Read d_3_14; Write d_3_14 d_2_71].

Definition ex_empty : hashmap_t * heap :=
  Eval vm_compute in default no_state (client_state 2000000 []).
Definition ex_one : hashmap_t * heap :=
  Eval vm_compute in default no_state (client_state 2000000 ex_ops_one).
Definition ex_freed : hashmap_t * heap :=
  Eval vm_compute in default no_state (client_state 2000000 ex_ops_freed).
Definition ex_two : hashmap_t * heap :=
  Eval vm_compute in default no_state (client_state 2000000 ex_ops_two).
Definition ex_two_del : hashmap_t * heap :=
  Eval vm_compute in default no_state (client_state 2000000 ex_ops_two_del).
Definition ex_full : hashmap_t * heap :=
  Eval vm_compute in default no_state (client_state 2000000 ex_ops_full).
Definition ex_nan : hashmap_t * heap :=
  Eval vm_compute in default no_state (client_state 2000000 ex_ops_nan).

Definition ex_noop : hashmap_t * heap :=
  Eval vm_compute in default no_state (client_state 2000000 ex_ops_noop).
Definition ex_zero : hashmap_t * heap :=
  Eval vm_compute in default no_state (client_state 2000000 ex_ops_zero).
Definition ex_zero_del : hashmap_t * heap :=
  Eval vm_compute in default no_state (client_state 2000000 ex_ops_zero_del).

Lemma client_state_reachable avail ops s :
  client_state avail ops = Some s -> state_reachable (H := x86_hasher) s.2 s.1.
Proof.
  unfold client_state.
  destruct (bind _ _ _) as [[[t outs] h]|] eqn:Hc; [|done].
  intros [= <-]. by eapply client_reachable.
Qed.

(** [reachable_by ops]: the state is the one the calls [ops] lead to. *)
Ltac reachable_by ops :=
  apply (client_state_reachable 2000000 ops); vm_compute; reflexivity.

Lemma ex_empty_reachable : state_reachable (H := x86_hasher) ex_empty.2 ex_empty.1.
Proof. reachable_by (@nil op). Qed.

Lemma ex_one_reachable : state_reachable (H := x86_hasher) ex_one.2 ex_one.1.
Proof. reachable_by ex_ops_one. Qed.

Lemma ex_freed_reachable : state_reachable (H := x86_hasher) ex_freed.2 ex_freed.1.
Proof. reachable_by ex_ops_freed. Qed.

Lemma ex_two_reachable : state_reachable (H := x86_hasher) ex_two.2 ex_two.1.
Proof. reachable_by ex_ops_two. Qed.

Lemma ex_two_del_reachable :
  state_reachable (H := x86_hasher) ex_two_del.2 ex_two_del.1.
Proof. reachable_by ex_ops_two_del. Qed.

Lemma ex_full_reachable : state_reachable (H := x86_hasher) ex_full.2 ex_full.1.
Proof. reachable_by ex_ops_full. Qed.

Lemma ex_nan_reachable : state_reachable (H := x86_hasher) ex_nan.2 ex_nan.1.
Proof. reachable_by ex_ops_nan. Qed.

Lemma ex_zero_reachable : state_reachable (H := x86_hasher) ex_zero.2 ex_zero.1.
Proof. reachable_by ex_ops_zero. Qed.

Example colliding_index :
  Forall (fun k => index_of (H := x86_hasher) k = 38627) colliding.
Proof. repeat constructor. Qed.

(** ** The refinement at a concrete run *)

Lemma behaviour_refines_witness :
  behaviour (H := x86_hasher) 2000000 ex_ops_run
  = abs_behaviour (H := x86_hasher) 2000000 ex_ops_run.
Proof. apply (behaviour_refines (H := x86_hasher) 2000000 ex_ops_run). Defined.
