(* ===== verification/Frame.v ===== *)
(** * Frame: what a call leaves alone, and what the heap holds

    Each of [hashmapRead], [hashmapWrite] and [hashmapDelete] works on the
    bucket its key selects and on the array of items of that bucket.
    This file shows it of the table and the heap themselves, not only of
    what later reads return: no other bucket and no other block changes
    ([touches]).  It follows that the heap of a client holds nothing but
    the arrays of the buckets that have items ([owned]): the storage of
    a bucket that a deletion emptied has been given back. *)

From S2P Require Import Prelude Word32 Double Hasher Heap Table Items Abstract Bucket Rep Exec Refine Run Examples.

(** The key of a call. *)
Definition op_key (o : op) : Z :=
  match o with
  | Read key | Write key _ | Delete key => key
  end.

(** The call that took the table [t] and the heap [h] to [t'] and [h']
    changed the bucket [idx] and the block of its items only, and left
    the bucket the pointer it had. *)
Record touches (idx : Z) (t : hashmap_t) (h : heap) (t' : hashmap_t) (h' : heap)
    : Prop := mkTouches {
  tc_buckets : forall idx', idx' <> idx -> bucket_at t' idx' = bucket_at t idx';
  tc_pointer : forall l,
    b_items (bucket_at t idx) = Ptr l -> b_items (bucket_at t' idx) = Ptr l;
  tc_blocks : forall l,
    b_items (bucket_at t' idx) <> Ptr l -> hp_blocks h' !! l = hp_blocks h !! l;
}.

(** Every live block is the array of items of a bucket. *)
Definition owned (h : heap) (t : hashmap_t) : Prop :=
  forall l cells, hp_blocks h !! l = Some cells ->
    exists idx, b_items (bucket_at t idx) = Ptr l.

Section frame.
Context `{!HasherOk H}.
Implicit Types (h : heap) (t : hashmap_t) (a : atable) (key value idx : Z).

Lemma touches_refl idx t h : touches idx t h t h.
Proof. by split. Qed.

Lemma touches_set_bucket idx t h b h' :
  is_Some (h_buckets t) ->
  (forall l, b_items (bucket_at t idx) = Ptr l -> b_items b = Ptr l) ->
  (forall l, b_items b <> Ptr l -> hp_blocks h' !! l = hp_blocks h !! l) ->
  touches idx t h (set_bucket t idx b) h'.
Proof.
  intros Hbs Hptr Hframe. split.
  - intros idx' Hne. by rewrite bucket_at_set_bucket, decide_False.
  - intros l. rewrite bucket_at_set_bucket, decide_True by done. apply Hptr.
  - intros l. rewrite bucket_at_set_bucket, decide_True by done. apply Hframe.
Qed.

(** The bucket keeps its pointer and the heap changes at its block. *)
Lemma touches_set_block idx t h l len n cells :
  is_Some (h_buckets t) -> b_items (bucket_at t idx) = Ptr l ->
  touches idx t h (set_bucket t idx (mkBucket (Ptr l) len n)) (set_block h l cells).
Proof.
  intros Hbs Hl. apply touches_set_bucket; [done|by intros l'; rewrite Hl|].
  intros l' Hne. apply blocks_set_block_ne. cbn in Hne. congruence.
Qed.

Lemma hashmapDelete_touches h t a key t' h' :
  atable_ok a -> rep h t a -> hashmapDelete t key h = Ok (t', h') ->
  touches (index_of key) t h t' h'.
Proof.
  intros Hok Hrep Hd. destruct (a_buckets a) as [bs|] eqn:Hbs; cycle 1.
  { by rewrite hashmapDelete_null in Hd by (by apply (rep_null _ _ _ Hrep)). }
  pose proof (rep_is_Some _ _ _ Hrep ltac:(by rewrite Hbs)) as Hsome.
  destruct (a_bucket a (index_of key)) as [|cap its|cap] eqn:Hb.
  - rewrite hashmapDelete_fresh in Hd by (done || by eapply rep_bucket_fresh).
    injection Hd as <- <-. apply touches_refl.
  - destruct (rep_bucket_stored _ _ _ _ _ _ Hrep Hb) as (l & rest & Hbk & Hh & Hlen).
    destruct (ao_items _ Hok _ _ _ Hb) as ([_ Hu _] & _ & Hcap).
    rewrite (hashmapDelete_stored t key h Hsome l _ its rest Hbk Hh) in Hd by (done || lia).
    destruct (delete_first key its rest) as [[its' rest']|]; injection Hd as <- <-.
    + apply touches_set_block; [done|by rewrite Hbk].
    + apply touches_set_bucket; [done|by intros l'; rewrite Hbk|].
      intros l' Hne. cbn [remove_block hp_blocks]. apply lookup_delete_ne.
      cbn in Hne. congruence.
  - destruct (rep_bucket_freed _ _ _ _ _ Hrep Hb) as (l & Hbk & Hl).
    rewrite (hashmapDelete_empty t key h Hsome l cap Hbk) in Hd. injection Hd as <- <-.
    apply touches_set_bucket; [done|by intros l'; rewrite Hbk|done].
Qed.

Lemma hashmapWrite_touches h t a key value t' h' :
  atable_ok a -> rep h t a -> hashmapWrite t key value h = Ok (t', h') ->
  touches (index_of key) t h t' h'.
Proof.
  intros Hok Hrep Hw. destruct (feq key value) eqn:Hkv.
  { rewrite (hashmapWrite_equal _ _ _ Hkv) in Hw. by eapply hashmapDelete_touches. }
  destruct (write_Ok_inv _ _ _ _ _ _ _ Hok Hrep Hw) as (a' & Ha & _).
  destruct (abs_write_effect _ _ _ _ Hkv Ha) as (Hbs & _).
  pose proof (rep_is_Some _ _ _ Hrep Hbs) as Hsome. unfold abs_write in Ha.
  rewrite Hkv in Ha. destruct Hbs as [bs Hbs]. rewrite Hbs in Ha.
  destruct (a_bucket a (index_of key)) as [|cap its|cap] eqn:Hb; [| |done].
  - case_decide as Hav; [|done]. rewrite <- (rep_avail _ _ _ Hrep) in Hav.
    pose proof (rep_bucket_fresh _ _ _ _ Hrep Hb) as Hbk.
    rewrite (hashmapWrite_first t key value h Hsome Hkv Hbk) in Hw by done.
    injection Hw as <- <-. apply touches_set_bucket; [done|by rewrite Hbk|].
    intros l Hne. cbn [heap_after_first hp_blocks]. apply lookup_insert_ne.
    cbn in Hne. congruence.
  - case_decide as Hroom; [|done].
    destruct (rep_bucket_stored _ _ _ _ _ _ Hrep Hb) as (l & rest & Hbk & Hh & Hlen).
    destruct (ao_items _ Hok _ _ _ Hb) as (_ & _ & Hcap).
    assert (Hl : b_items (bucket_at t (index_of key)) = Ptr l) by (by rewrite Hbk).
    destruct (find_item key its) as [[i it]|] eqn:Hf.
    + rewrite (hashmapWrite_overwrite t key value h Hsome Hkv l cap its rest i it)
        in Hw by (done || lia).
      injection Hw as <- <-. by apply touches_set_block.
    + destruct Hroom as [[? [=]]|Hroom].
      rewrite length_app, length_encode_items in Hlen.
      destruct rest as [|c1 [|c2 rest]]; cbn [length] in Hlen; try lia.
      rewrite (hashmapWrite_append t key value h Hsome Hkv l cap its c1 c2 rest)
        in Hw by (done || lia).
      injection Hw as <- <-. by apply touches_set_block.
Qed.

Lemma step_touches o h t a t' outs h' :
  atable_ok a -> rep h t a -> step o t h = Ok ((t', outs), h') ->
  touches (index_of (op_key o)) t h t' h'.
Proof.
  intros Hok Hrep Hs. destruct o as [key|key value|key]; cbn [step op_key] in *;
    apply bind_Ok_inv in Hs as (x & h1 & Hc & [= <- <- <-]).
  - rewrite (hashmapRead_refines h t a key Hok Hrep) in Hc.
    destruct (abs_read key a); [|done]. injection Hc as _ <-. apply touches_refl.
  - by eapply hashmapWrite_touches.
  - by eapply hashmapDelete_touches.
Qed.

(** *** No block is lost *)

Lemma touches_owned idx t h t' h' :
  touches idx t h t' h' -> owned h t -> owned h' t'.
Proof.
  intros [Hbk Hptr Hblocks] Hown l cells Hl.
  destruct (decide (b_items (bucket_at t' idx) = Ptr l)) as [|Hne]; [by eexists|].
  rewrite (Hblocks l Hne) in Hl. destruct (Hown l cells Hl) as [idx' Hidx'].
  exists idx'. destruct (decide (idx' = idx)) as [->|Hidx]; [|by rewrite Hbk].
  by destruct Hne; apply Hptr.
Qed.

Lemma run_owned ops : forall h t t' outs h',
  state_reachable h t -> owned h t -> run ops t h = Ok ((t', outs), h') ->
  owned h' t'.
Proof.
  induction ops as [|o ops IH]; intros h t t' outs h' Hr Hown Hrun; cbn [run] in Hrun.
  { by injection Hrun as <- <- <-. }
  apply bind_Ok_inv in Hrun as ([t1 out1] & h1 & Hs & Hrun).
  apply bind_Ok_inv in Hrun as ([t2 out2] & h2 & Hrun & [= <- <- <-]).
  destruct (state_reachable_inv _ _ Hr) as (a & Hok & _ & Hrep).
  eapply IH; [by eapply step_reachable| |done].
  eapply touches_owned; [by eapply step_touches|done].
Qed.

Lemma hashmapCreate_blocks h0 t h :
  hashmapCreate h0 = Ok (t, h) -> hp_blocks h = hp_blocks h0.
Proof.
  destruct (decide (table_bytes <= hp_avail h0)).
  { rewrite hashmapCreate_Ok by done. by intros [= <- <-]. }
  destruct (decide (sizeof_hashmap_t <= hp_avail h0)).
  - rewrite hashmapCreate_no_buckets by lia. by intros [= <- <-].
  - by rewrite hashmapCreate_fails by lia.
Qed.

(** C10. A call changes the bucket its key selects and the block of the
    items of that bucket, and nothing else: every other bucket of the
    table and every other block of the heap are as they were, and the
    bucket keeps the pointer it had. *)
Theorem step_touches_one_bucket o h t t' outs h' :
  state_reachable h t -> step o t h = Ok ((t', outs), h') ->
  let idx := index_of (op_key o) in
  (forall idx', idx' <> idx -> bucket_at t' idx' = bucket_at t idx') /\
  (forall l, b_items (bucket_at t idx) = Ptr l -> b_items (bucket_at t' idx) = Ptr l) /\
  (forall l, b_items (bucket_at t' idx) <> Ptr l ->
     hp_blocks h' !! l = hp_blocks h !! l).
Proof.
  intros (a & Hok & _ & Hrep)%state_reachable_inv Hs.
  by destruct (step_touches o h t a t' outs h' Hok Hrep Hs).
Qed.

(** C12. No block is lost.  After any sequence of calls on a table
    created in an empty heap, every live block is the array of items of a
    bucket whose count is not zero, and has room for
    [HASHMAP_BUCKET_INITSIZE] items: what [calloc] handed out and no
    bucket uses any more has been given back by [free]. *)
Theorem no_block_lost avail ops t outs h l cells :
  (let* t := hashmapCreate in run ops t) (empty_heap avail) = Ok ((t, outs), h) ->
  hp_blocks h !! l = Some cells ->
  exists idx, b_items (bucket_at t idx) = Ptr l /\
    0 < b_itemCount (bucket_at t idx) /\
    Z.of_nat (length cells) = 2 * HASHMAP_BUCKET_INITSIZE.
Proof.
  intros Hrun Hl. pose proof (client_reachable _ _ _ _ _ Hrun) as Hr.
  apply bind_Ok_inv in Hrun as (t0 & h0 & Hc & Hrun).
  assert (Hown : owned h t).
  { eapply run_owned; [eapply sr_create; [apply heap_ok_empty|done]| |done].
    intros l' cells'. by rewrite (hashmapCreate_blocks _ _ _ Hc). }
  destruct (Hown l cells Hl) as [idx Hidx]. exists idx. split; [done|].
  destruct (state_reachable_inv _ _ Hr) as (a & Hok & Hcf & Hrep).
  pose proof (rep_bucket _ _ _ Hrep idx) as Hb.
  pose proof (Hcf idx) as Hcap. pose proof (ao_items _ Hok idx) as Hitems.
  destruct Hb as [Hz|l' cap its rest Hbk Hh Hlen|l' cap Hbk Hnone].
  - by rewrite Hz in Hidx.
  - rewrite Hbk in *. cbn [b_items b_itemCount] in *. injection Hidx as ->.
    destruct (Hitems cap its eq_refl) as (_ & Hpos & _).
    unfold holds in Hh. rewrite Hh in Hl. injection Hl as <-.
    rewrite Hlen, (Hcap cap eq_refl). lia.
  - rewrite Hbk in Hidx. injection Hidx as ->. by rewrite Hnone in Hl.
Qed.

End frame.

(** ** The theorems at concrete tables *)

Lemma step_touches_one_bucket_witness :
  let idx := index_of (H := x86_hasher) d_3_14 in
  (forall idx', idx' <> idx -> bucket_at ex_one.1 idx' = bucket_at ex_empty.1 idx') /\
  (forall l, b_items (bucket_at ex_empty.1 idx) = Ptr l ->
     b_items (bucket_at ex_one.1 idx) = Ptr l) /\
  (forall l, b_items (bucket_at ex_one.1 idx) <> Ptr l ->
     hp_blocks ex_one.2 !! l = hp_blocks ex_empty.2 !! l).
Proof.
  apply (step_touches_one_bucket (H := x86_hasher) (Write d_3_14 d_2_71)
           ex_empty.2 ex_empty.1 ex_one.1 [] ex_one.2);
    [apply ex_empty_reachable|vm_compute; reflexivity].
Defined.

Lemma no_block_lost_witness :
  exists idx, b_items (bucket_at ex_one.1 idx) = Ptr 1 /\
    0 < b_itemCount (bucket_at ex_one.1 idx) /\
    Z.of_nat (length (first_block d_3_14 d_2_71)) = 2 * HASHMAP_BUCKET_INITSIZE.
Proof.
  apply (no_block_lost (H := x86_hasher) 2000000 ex_ops_one ex_one.1 [] ex_one.2 1
           (first_block d_3_14 d_2_71)); vm_compute; reflexivity.
Defined.
