(* ===== verification/MapSpec.v ===== *)
(** * MapSpec: the table as a finite map

    The specification describes the table as a map from keys to values
    in which a key that is absent reads as itself.  [map_run] is a
    sequence of calls on such a map, by the equality of bit patterns.
    On ordinary keys, which are neither NaNs nor zeros, the [==] of C is
    that equality, and a run of the functions of [src/hashmap.c] that
    returns shows the client what the run on the map shows. *)

From S2P Require Import Prelude Word32 Double Hasher Heap Table Items Abstract Bucket Rep Exec Refine Run Examples.

(** A key on which [==] is the equality of bit patterns. *)
Definition ordinary (key : Z) : Prop :=
  is_double key /\ is_nan key = false /\ is_zero key = false.

#[export] Instance ordinary_dec key : Decision (ordinary key).
Proof. unfold ordinary. apply _. Defined.

Definition op_ordinary (o : op) : Prop :=
  match o with
  | Read key | Delete key => ordinary key
  | Write key value => ordinary key /\ is_double value
  end.

#[export] Instance op_ordinary_dec o : Decision (op_ordinary o).
Proof. destruct o; apply _. Defined.

(** One call on the map, with the values it hands to the client. *)
Definition map_step (o : op) (m : gmap Z Z) : gmap Z Z * list Z :=
  match o with
  | Read key => (m, [default key (m !! key)])
  | Write key value =>
      (if decide (key = value) then delete key m else <[key := value]> m, [])
  | Delete key => (delete key m, [])
  end.

Fixpoint map_run (ops : list op) (m : gmap Z Z) : gmap Z Z * list Z :=
  match ops with
  | [] => (m, [])
  | o :: ops =>
      let r := map_step o m in
      let r' := map_run ops r.1 in
      (r'.1, r.2 ++ r'.2)
  end.

Section map_spec.
Context `{!HasherOk H}.
Implicit Types (a : atable) (m : gmap Z Z) (key value : Z).

(** The abstract table [a] reads as the map [m] on ordinary keys. *)
Definition agrees (a : atable) (m : gmap Z Z) : Prop :=
  forall key v, ordinary key -> abs_read key a = Ok v -> v = default key (m !! key).

Lemma ordinary_feq key value :
  ordinary key -> is_double value -> feq key value = true <-> key = value.
Proof.
  intros (Hk & Hnan & Hz) Hv. rewrite feq_true_iff, (same_fields_iff key value) by done.
  split.
  - intros (_ & _ & [[Hz' _]|?]); [congruence|done].
  - intros <-. split_and!; [done|done|by right].
Qed.

Lemma ordinary_feq_false key key' :
  ordinary key -> ordinary key' -> key <> key' -> feq key key' = false.
Proof.
  intros Hk (Hk' & _) Hne. destruct (feq key key') eqn:E; [|done].
  by apply ordinary_feq in E.
Qed.

Lemma agrees_delete a a' m key :
  atable_ok a -> agrees a m -> ordinary key -> abs_delete key a = Ok a' ->
  agrees a' (delete key m).
Proof.
  intros Hok Hag Hk Ha key' v Hk' Hread. destruct (decide (key = key')) as [<-|Hne].
  - rewrite (abs_read_delete_same a Hok key a' Ha) in Hread.
    rewrite lookup_delete_eq. by injection Hread.
  - rewrite (abs_read_delete_other a Hok key key' a' (ordinary_feq_false _ _ Hk Hk' Hne) Ha)
      in Hread.
    rewrite lookup_delete_ne by done. by apply Hag.
Qed.

Lemma agrees_write a a' m key value :
  agrees a m -> ordinary key -> feq key value = false ->
  abs_write key value a = Ok a' -> agrees a' (<[key := value]> m).
Proof.
  intros Hag Hk Hkv Ha key' v Hk' Hread. destruct (decide (key = key')) as [<-|Hne].
  - rewrite (abs_read_write_same _ _ _ _ Hkv Ha) in Hread. destruct Hk as (_ & Hnan & _).
    rewrite Hnan in Hread. rewrite lookup_insert_eq. by injection Hread.
  - rewrite (abs_read_write_other _ _ _ _ _ Hkv (ordinary_feq_false _ _ Hk Hk' Hne) Ha)
      in Hread.
    rewrite lookup_insert_ne by done. by apply Hag.
Qed.

Lemma step_agrees o a a' out m :
  atable_ok a -> agrees a m -> op_ordinary o -> abs_step o a = Ok (a', out) ->
  out = (map_step o m).2 /\ agrees a' (map_step o m).1.
Proof.
  intros Hok Hag Ho Hs. destruct o as [key|key value|key]; cbn [abs_step map_step] in *.
  - destruct (abs_read key a) as [v|] eqn:Hr; [|done]. injection Hs as <- <-.
    split; [|done]. cbn. f_equal. by apply Hag.
  - destruct Ho as [Hk Hv]. destruct (abs_write key value a) as [a1|] eqn:Ha; [|done].
    injection Hs as <- <-. split; [done|]. cbn [fst]. case_decide as E.
    + unfold abs_write in Ha. rewrite (proj2 (ordinary_feq _ _ Hk Hv) E) in Ha.
      by eapply agrees_delete.
    + eapply agrees_write; try done.
      destruct (feq key value) eqn:F; [|done]. by apply ordinary_feq in F.
  - destruct (abs_delete key a) as [a1|] eqn:Ha; [|done]. injection Hs as <- <-.
    split; [done|]. by eapply agrees_delete.
Qed.

Lemma abs_step_ok o a a' out :
  atable_ok a -> abs_step o a = Ok (a', out) -> atable_ok a'.
Proof.
  intros Hok Hs. destruct o as [key|key value|key]; cbn [abs_step] in Hs.
  - destruct (abs_read key a); [|done]. by injection Hs as <- <-.
  - destruct (abs_write key value a) eqn:Ha; [|done]. injection Hs as <- <-.
    by eapply abs_write_ok.
  - destruct (abs_delete key a) eqn:Ha; [|done]. injection Hs as <- <-.
    by eapply abs_delete_ok.
Qed.

Lemma run_agrees ops a a' outs m :
  atable_ok a -> agrees a m -> Forall op_ordinary ops ->
  abs_run ops a = Ok (a', outs) -> outs = (map_run ops m).2.
Proof.
  revert a m outs. induction ops as [|o ops IH]; intros a m outs Hok Hag Hops Hrun;
    cbn [abs_run map_run] in *.
  { by injection Hrun as <- <-. }
  apply Forall_cons in Hops as [Ho Hops].
  destruct (abs_step o a) as [[a1 out1]|] eqn:Hs; [|done]. cbn [mbind result_bind fst snd] in Hrun.
  destruct (abs_run ops a1) as [[a2 outs2]|] eqn:Hr; [|done]. injection Hrun as <- <-.
  destruct (step_agrees _ _ _ _ m Hok Hag Ho Hs) as [-> Hag1]. cbn [snd]. f_equal.
  exact (IH a1 _ outs2 (abs_step_ok _ _ _ _ Hok Hs) Hag1 Hops Hr).
Qed.

Lemma agrees_create avail a : abs_create avail = Ok a -> agrees a ∅.
Proof.
  intros Hc key v _. unfold abs_create in Hc.
  repeat case_decide; try done; injection Hc as <-; intros [= <-]. done.
Qed.

(** C2. On ordinary keys the table is a finite map.  For every
    sequence of reads, writes and deletions whose keys are neither NaNs
    nor zeros, on a table just created: when the run returns, the values
    read are those read from a map that starts empty, in which a write
    of a value other than the key stores it, a write of the key itself
    and a deletion remove the key, and an absent key reads as itself. *)
Theorem behaviour_map avail ops outs :
  Forall op_ordinary ops -> behaviour avail ops = Ok outs ->
  outs = (map_run ops ∅).2.
Proof.
  intros Hops. unfold behaviour. pose proof (client_simulates avail ops) as Hs.
  inversion Hs as [t outs' h a' Hok' Hrep' Hc Ha|e Hc Ha]; [|done].
  intros [= <-]. destruct (abs_create avail) as [a|] eqn:Hcr; [|done].
  symmetry in Ha.
  exact (run_agrees ops a a' outs' ∅ (abs_create_ok _ _ Hcr) (agrees_create _ _ Hcr) Hops Ha).
Qed.

End map_spec.

Definition ex_ops_map : list op :=
  [Write d_3_14 d_2_71; Read d_3_14; Write d_one d_3_14; Write d_3_14 d_one;
   Read d_3_14; Read d_one; Write d_one d_one; Read d_one; Delete d_3_14; Read d_3_14].

Lemma behaviour_map_witness :
  [d_2_71; d_one; d_3_14; d_one; d_3_14] = (map_run ex_ops_map ∅).2.
Proof.
  apply (behaviour_map (H := x86_hasher) 2000000 ex_ops_map);
    [apply (bool_decide_unpack _); vm_compute; exact I|vm_compute; reflexivity].
Defined.
