(* ===== verification/Clients.v ===== *)
(** * Clients: runs in which every call returns

    [hashmapWrite] stops with a fault on a bucket that is full and on a
    bucket that a deletion has emptied, so a client is served only as
    long as it avoids both.  This file gives a condition on the calls
    alone, whatever the hash: the client first stores at most
    [HASHMAP_BUCKET_INITSIZE] items, through writes and reads, and then
    only reads and removes.  For such a run, on a table created with
    enough storage, every call returns, and on ordinary keys it returns
    what the finite map of MapSpec returns. *)

From S2P Require Import Prelude Word32 Double Hasher Heap Table Items Abstract Bucket Rep Exec Refine Run Examples MapSpec.

(** A call that stores an item: a write of a value that does not compare
    equal to the key. *)
Definition stores (o : op) : bool :=
  match o with
  | Write key value => negb (feq key value)
  | _ => false
  end.

(** A call that goes through [hashmapDelete]. *)
Definition removes (o : op) : bool :=
  match o with
  | Read _ => false
  | Write key value => feq key value
  | Delete _ => true
  end.

(** The number of calls of [ops] that store. *)
Fixpoint store_count (ops : list op) : Z :=
  match ops with
  | [] => 0
  | o :: ops => (if stores o then 1 else 0) + store_count ops
  end.

(** The abstract tables of the growing phase, after at most [n] stores:
    no bucket has been emptied and none holds more than [n] items. *)
Record grown `{H : Hasher} (n : Z) (a : atable) : Prop := mkGrown {
  gr_ok : atable_ok a;
  gr_cap : cap_fixed a;
  gr_buckets : is_Some (a_buckets a);
  gr_live : forall idx cap, a_bucket a idx <> Freed cap;
  gr_count : forall idx, Z.of_nat (length (items_of (a_bucket a idx))) <= n;
}.

(** The example of the specification: [3.14] is written with [2.71] and
    read, then deleted and read again. *)
Definition ex_grow : list op := [Write d_3_14 d_2_71; Read d_3_14].
Definition ex_shrink : list op := [Delete d_3_14; Read d_3_14].

(** Arithmetic on the sizes of the blocks. *)
Ltac room_lia :=
  unfold bucket_bytes, sizeof_bucketItem_t, HASHMAP_BUCKET_INITSIZE in *; lia.

Section clients.
Context `{!HasherOk H}.
Implicit Types (a : atable) (o : op) (ops : list op) (key value n : Z).

Lemma store_count_nonneg ops : 0 <= store_count ops.
Proof.
  induction ops as [|o ops IH]; cbn [store_count]; [done|]. destruct (stores o); lia.
Qed.

Lemma abs_run_app ops1 ops2 a :
  abs_run (ops1 ++ ops2) a
  = r1 ← abs_run ops1 a; r2 ← abs_run ops2 r1.1; Ok (r2.1, r1.2 ++ r2.2).
Proof.
  revert a. induction ops1 as [|o ops1 IH]; intros a; cbn [app abs_run].
  { cbn. by destruct (abs_run ops2 a) as [[]|]. }
  destruct (abs_step o a) as [[a1 out1]|]; [|done]. cbn [mbind result_bind fst snd].
  rewrite IH. destruct (abs_run ops1 a1) as [[a2 outs2]|]; [|done].
  cbn [mbind result_bind fst snd].
  destruct (abs_run ops2 a2) as [[a3 outs3]|]; [|done]. cbn. by rewrite app_assoc.
Qed.

(** *** The growing phase *)

Lemma abs_write_room n a key value :
  grown n a -> feq key value = false -> n < HASHMAP_BUCKET_INITSIZE ->
  bucket_bytes HASHMAP_BUCKET_INITSIZE <= a_avail a ->
  exists a', abs_write key value a = Ok a' /\
    a_avail a - bucket_bytes HASHMAP_BUCKET_INITSIZE <= a_avail a'.
Proof.
  intros [Hok Hcf [bs Hbs] Hlive Hcount] Hkv Hn Hav. unfold abs_write.
  rewrite Hkv, Hbs. pose proof (Hcount (index_of key)) as Hc.
  pose proof (Hcf (index_of key)) as Hcap. pose proof (Hlive (index_of key)) as Hl.
  destruct (a_bucket a (index_of key)) as [|cap its|cap]; [| |by destruct (Hl cap)].
  - rewrite decide_True by done. eexists. split; [done|]. cbn [a_set a_avail]. lia.
  - rewrite (Hcap cap eq_refl) in *. cbn [items_of] in Hc.
    rewrite decide_True by (right; lia). eexists. split; [done|].
    cbn [a_set a_avail]. room_lia.
Qed.

Lemma abs_write_grown n a key value a' :
  grown n a -> feq key value = false -> abs_write key value a = Ok a' ->
  grown (n + 1) a'.
Proof.
  intros [Hok Hcf Hbs Hlive Hcount] Hkv Ha.
  destruct (abs_write_effect _ _ _ _ Hkv Ha) as (_ & Hbs' & Hother & Hits).
  assert (Hlen : forall idx,
            (length (items_of (a_bucket a' idx)) <= S (length (items_of (a_bucket a idx))))%nat /\
            (idx = index_of key -> (0 < length (items_of (a_bucket a' idx)))%nat)).
  { intros idx. destruct (decide (idx = index_of key)) as [->|Hne].
    - rewrite Hits, length_write_items.
      destruct (find_item _ _) as [[i it]|] eqn:Hf; split; try lia.
      apply find_item_Some in Hf as (Hi%lookup_lt_Some & _). lia.
    - rewrite (Hother idx Hne). split; [lia|done]. }
  split; eauto using abs_write_ok, abs_write_cap_fixed.
  - intros idx cap Hb. destruct (decide (idx = index_of key)) as [->|Hne].
    + destruct (Hlen (index_of key)) as [_ Hpos]. rewrite Hb in Hpos.
      specialize (Hpos eq_refl). cbn in Hpos. lia.
    + rewrite (Hother idx Hne) in Hb. by destruct (Hlive idx cap).
  - intros idx. destruct (Hlen idx) as [Hle _]. specialize (Hcount idx). lia.
Qed.

Lemma grown_mono n n' a : grown n a -> n <= n' -> grown n' a.
Proof.
  intros [Hok Hcf Hbs Hlive Hcount] Hle. split; try done.
  intros idx. specialize (Hcount idx). lia.
Qed.

Lemma abs_run_grow ops : forall n a,
  grown n a -> Forall (fun o => removes o = false) ops ->
  n + store_count ops <= HASHMAP_BUCKET_INITSIZE ->
  bucket_bytes HASHMAP_BUCKET_INITSIZE * store_count ops <= a_avail a ->
  exists a' outs, abs_run ops a = Ok (a', outs) /\
    atable_ok a' /\ is_Some (a_buckets a').
Proof.
  induction ops as [|o ops IH]; intros n a Hg Hops Hn Hav; cbn [abs_run store_count] in *.
  { exists a, []. split_and!; [done|apply Hg..]. }
  apply Forall_cons in Hops as [Ho Hops]. pose proof (store_count_nonneg ops) as Hnn.
  destruct o as [key|key value|key]; cbn [removes stores abs_step] in *; [| |done].
  - rewrite abs_read_Ok by apply Hg. cbn [mbind result_bind fst snd].
    destruct (IH n a Hg Hops ltac:(lia) ltac:(lia)) as (a' & outs & -> & Hok & Hbs).
    by eexists _, _.
  - rewrite Ho in *. cbn [negb] in *.
    destruct (abs_write_room n a key value Hg Ho) as (a1 & Ha & Hav1);
      [lia|room_lia|].
    rewrite Ha. cbn [mbind result_bind fst snd].
    destruct (IH (n + 1) a1 (abs_write_grown _ _ _ _ _ Hg Ho Ha) Hops)
      as (a' & outs & -> & Hok & Hbs); [lia|room_lia|].
    by eexists _, _.
Qed.

(** *** The shrinking phase *)

Lemma abs_delete_returns key a :
  is_Some (a_buckets a) -> exists a', abs_delete key a = Ok a'.
Proof.
  intros [bs Hbs]. unfold abs_delete. rewrite Hbs.
  destruct (a_bucket a (index_of key)) as [|cap its|cap];
    [|destruct (remove_first key its)|]; by eexists.
Qed.

Lemma abs_run_shrink ops : forall a,
  atable_ok a -> is_Some (a_buckets a) -> Forall (fun o => stores o = false) ops ->
  exists a' outs, abs_run ops a = Ok (a', outs).
Proof.
  induction ops as [|o ops IH]; intros a Hok Hbs Hops; cbn [abs_run].
  { by eexists _, _. }
  apply Forall_cons in Hops as [Ho Hops].
  assert (exists a1 out, abs_step o a = Ok (a1, out) /\ atable_ok a1 /\ is_Some (a_buckets a1))
    as (a1 & out & -> & Hok1 & Hbs1).
  { destruct o as [key|key value|key]; cbn [stores abs_step] in *.
    - rewrite abs_read_Ok by done. by eexists _, _.
    - apply negb_false_iff in Ho. unfold abs_write. rewrite Ho.
      destruct (abs_delete_returns key a Hbs) as [a1 Ha]. rewrite Ha.
      destruct (abs_delete_effect _ _ _ Ha) as (_ & ? & _).
      eexists _, _. eauto using abs_delete_ok.
    - destruct (abs_delete_returns key a Hbs) as [a1 Ha]. rewrite Ha.
      destruct (abs_delete_effect _ _ _ Ha) as (_ & ? & _).
      eexists _, _. eauto using abs_delete_ok. }
  cbn [mbind result_bind fst snd].
  destruct (IH a1 Hok1 Hbs1 Hops) as (a' & outs & ->). by eexists _, _.
Qed.

(** *** Runs that grow, then shrink *)

Lemma abs_create_grown avail :
  table_bytes <= avail ->
  exists a, abs_create avail = Ok a /\ grown 0 a /\ a_avail a = avail - table_bytes.
Proof.
  intros Hav. assert (Hc : abs_create avail
            = Ok (mkATable (Some ∅) (avail - table_bytes))).
  { unfold abs_create, table_bytes, sizeof_hashmap_t, sizeof_bucket_t,
      HASHMAP_BUCKET_MASK in *. rewrite !decide_True by lia. do 2 f_equal. lia. }
  eexists. split; [done|]. split; [|done].
  split; [by eapply abs_create_ok|by intros idx cap|by eexists|by intros idx cap|].
  intros idx. unfold a_bucket. cbn [a_buckets]. by rewrite lookup_empty.
Qed.

Lemma abs_run_grow_shrink avail grow shrink :
  Forall (fun o => removes o = false) grow ->
  Forall (fun o => stores o = false) shrink ->
  store_count grow <= HASHMAP_BUCKET_INITSIZE ->
  table_bytes + bucket_bytes HASHMAP_BUCKET_INITSIZE * store_count grow <= avail ->
  exists a a' outs, abs_create avail = Ok a /\ abs_run (grow ++ shrink) a = Ok (a', outs).
Proof.
  intros Hgrow Hshrink Hn Hav. pose proof (store_count_nonneg grow) as Hnn.
  destruct (abs_create_grown avail) as (a & Hc & Hg & Hav0);
    [room_lia|].
  destruct (abs_run_grow grow 0 a Hg Hgrow) as (a1 & outs1 & Hr1 & Hok1 & Hbs1); [lia..|].
  destruct (abs_run_shrink shrink a1 Hok1 Hbs1 Hshrink) as (a2 & outs2 & Hr2).
  exists a, a2, (outs1 ++ outs2). split; [done|].
  rewrite abs_run_app, Hr1. cbn [mbind result_bind fst snd]. by rewrite Hr2.
Qed.

(** C3. A client that stores at most [HASHMAP_BUCKET_INITSIZE] items
    and stores nothing once it has called [hashmapDelete] is served: on a
    table created with storage for the table and for one block of items
    per store, every call returns.  When the keys are ordinary, the
    values read are those of the finite map. *)
Theorem grow_then_shrink_returns avail grow shrink :
  Forall (fun o => removes o = false) grow ->
  Forall (fun o => stores o = false) shrink ->
  store_count grow <= HASHMAP_BUCKET_INITSIZE ->
  table_bytes + bucket_bytes HASHMAP_BUCKET_INITSIZE * store_count grow <= avail ->
  exists outs, behaviour avail (grow ++ shrink) = Ok outs /\
    (Forall op_ordinary (grow ++ shrink) -> outs = (map_run (grow ++ shrink) ∅).2).
Proof.
  intros Hgrow Hshrink Hn Hav.
  destruct (abs_run_grow_shrink avail grow shrink Hgrow Hshrink Hn Hav)
    as (a & a' & outs & Hc & Hrun).
  exists outs. pose proof (client_simulates avail (grow ++ shrink)) as Hs.
  rewrite Hc in Hs. cbn [mbind result_bind] in Hs. rewrite Hrun in Hs.
  inversion Hs as [t outs' h a'' Hok' Hrep' Hcon Habs|]; subst. split.
  - unfold behaviour. by rewrite <- Hcon.
  - intros Hops.
    exact (run_agrees _ a a' outs ∅ (abs_create_ok _ _ Hc) (agrees_create _ _ Hc) Hops Hrun).
Qed.

End clients.

Lemma grow_then_shrink_returns_witness :
  behaviour (H := x86_hasher) 2000000 (ex_grow ++ ex_shrink)
  = Ok (map_run (ex_grow ++ ex_shrink) ∅).2.
Proof.
  destruct (grow_then_shrink_returns (H := x86_hasher) 2000000 ex_grow ex_shrink)
    as (outs & -> & Hmap);
    [apply (bool_decide_unpack _); vm_compute; exact I
    |apply (bool_decide_unpack _); vm_compute; exact I
    |vm_compute; discriminate|vm_compute; discriminate|].
  f_equal. apply Hmap, (bool_decide_unpack _). vm_compute. exact I.
Defined.
