(* ===== verification/Correct.v ===== *)
(** * Correct: what a client of the table can rely on

    The theorems of this file are about the functions of Table alone, on
    the tables and heaps a client can reach ([state_reachable]): what
    [hashmapRead] returns after [hashmapWrite] and [hashmapDelete], for
    the key concerned and for the others; that a read neither fails nor
    changes anything; and what stays true of every bucket.  They follow
    from the refinement of the abstract table (Refine, Run) and its laws
    (Abstract). *)

From S2P Require Import Prelude Word32 Double Hasher Hash Heap Table Items Abstract Bucket Rep Exec Refine Run Examples.

Section correct.
Context `{!HasherOk H}.
Implicit Types (h : heap) (t : hashmap_t) (a : atable) (key value : Z).

(** C4. After [hashmapWrite(key, value)] has returned, with
    [key != value], [hashmapRead(key)] returns [value]; for a key that is
    a NaN it returns the key, as no stored key compares equal to it. *)
Theorem read_after_write h t key value t' h' :
  state_reachable h t -> feq key value = false ->
  hashmapWrite t key value h = Ok (t', h') ->
  hashmapRead t' key h' = Ok (if is_nan key then key else value, h').
Proof.
  intros (a & Hok & _ & Hrep)%state_reachable_inv Hkv Hw.
  destruct (write_Ok_inv _ _ _ _ _ _ _ Hok Hrep Hw) as (a' & Ha & Hok' & Hrep').
  rewrite (hashmapRead_refines h' t' a' key Hok' Hrep').
  by rewrite (abs_read_write_same _ _ _ _ Hkv Ha).
Qed.

(** C8. [hashmapWrite(key, value)] changes the value of no other key:
    a key that does not compare equal to [key] reads as before. *)
Theorem read_other_after_write h t key value key' t' h' :
  state_reachable h t -> feq key value = false -> feq key key' = false ->
  hashmapWrite t key value h = Ok (t', h') ->
  fst <$> hashmapRead t' key' h' = fst <$> hashmapRead t key' h.
Proof.
  intros (a & Hok & _ & Hrep)%state_reachable_inv Hkv Hne Hw.
  destruct (write_Ok_inv _ _ _ _ _ _ _ Hok Hrep Hw) as (a' & Ha & Hok' & Hrep').
  rewrite (read_value h' t' a' key' Hok' Hrep'), (read_value h t a key' Hok Hrep).
  exact (abs_read_write_other _ _ _ _ _ Hkv Hne Ha).
Qed.

(** C7. After [hashmapDelete(key)] has returned, [hashmapRead(key)]
    returns the key: the key is absent. *)
Theorem read_after_delete h t key t' h' :
  state_reachable h t -> hashmapDelete t key h = Ok (t', h') ->
  hashmapRead t' key h' = Ok (key, h').
Proof.
  intros (a & Hok & _ & Hrep)%state_reachable_inv Hd.
  destruct (delete_Ok_inv _ _ _ _ _ _ Hok Hrep Hd) as (a' & Ha & Hok' & Hrep').
  rewrite (hashmapRead_refines h' t' a' key Hok' Hrep').
  by rewrite (abs_read_delete_same a Hok key a' Ha).
Qed.

(** C9. [hashmapDelete(key)] changes the value of no other key. *)
Theorem read_other_after_delete h t key key' t' h' :
  state_reachable h t -> feq key key' = false ->
  hashmapDelete t key h = Ok (t', h') ->
  fst <$> hashmapRead t' key' h' = fst <$> hashmapRead t key' h.
Proof.
  intros (a & Hok & _ & Hrep)%state_reachable_inv Hne Hd.
  destruct (delete_Ok_inv _ _ _ _ _ _ Hok Hrep Hd) as (a' & Ha & Hok' & Hrep').
  rewrite (read_value h' t' a' key' Hok' Hrep'), (read_value h t a key' Hok Hrep).
  exact (abs_read_delete_other a Hok _ _ _ Hne Ha).
Qed.

(** C13. On a table that has its bucket array, [hashmapRead] returns a
    value and leaves the heap as it was: it reads inside live blocks only,
    and its loop ends within the fuel it is given. *)
Theorem read_safe h t key :
  state_reachable h t -> is_Some (h_buckets t) ->
  exists v, hashmapRead t key h = Ok (v, h).
Proof.
  intros (a & Hok & _ & Hrep)%state_reachable_inv Hbs.
  rewrite (hashmapRead_refines h t a key Hok Hrep).
  rewrite abs_read_Ok by (by eapply rep_is_Some_inv). by eexists.
Qed.

(** C22. A value that [hashmapRead(key)] returns and that compares equal
    to [key] is [key] itself, bit for bit: stored values never equal their
    keys, so the echo of the key always means that the key is absent. *)
Theorem read_echo h t key v h' :
  state_reachable h t -> hashmapRead t key h = Ok (v, h') ->
  feq v key = true -> v = key.
Proof.
  intros (a & Hok & _ & Hrep)%state_reachable_inv.
  rewrite (hashmapRead_refines h t a key Hok Hrep). unfold abs_read.
  destruct (a_buckets a) eqn:Hbs; [|done]. intros [= <- <-] Hv.
  destruct (a_bucket a (index_of key)) as [|cap its|cap] eqn:Hb; try done.
  cbn [items_of] in *. destruct (ao_items _ Hok _ _ _ Hb) as ([_ _ Hval] & _).
  unfold find_value. by rewrite (find_value_echo key its Hval Hv).
Qed.

Lemma refines_is_Ok c a' : refines c (Ok a') -> is_Ok c.
Proof. by intros (t' & h' & -> & _)%refines_Ok_inv. Qed.

(** C17. [hashmapDelete] always returns on a table that has its bucket
    array: its loop ends within its fuel and stays inside the block. *)
Theorem delete_returns h t key :
  state_reachable h t -> is_Some (h_buckets t) -> is_Ok (hashmapDelete t key h).
Proof.
  intros (a & Hok & _ & Hrep)%state_reachable_inv Hbs.
  pose proof (hashmapDelete_refines h t a key Hok Hrep) as Href.
  destruct (rep_is_Some_inv _ _ _ Hrep Hbs) as [bs Ha]. unfold abs_delete in Href.
  rewrite Ha in Href. destruct (a_bucket a (index_of key)) as [|cap its|cap];
    [|destruct (remove_first key its)|]; exact (refines_is_Ok _ _ Href).
Qed.

(** C16. [hashmapWrite(key, value)], with [key != value], returns when
    the bucket of [key] is untouched and the allocator has storage for
    [HASHMAP_BUCKET_INITSIZE] items, when the bucket holds items and has
    room, and when it holds [key] already. *)
Theorem write_returns h t key value :
  state_reachable h t -> is_Some (h_buckets t) -> feq key value = false ->
  let b := bucket_at t (index_of key) in
  (b = zero_bucket /\ HASHMAP_BUCKET_INITSIZE * sizeof_bucketItem_t <= hp_avail h) \/
  (0 < b_itemCount b < HASHMAP_BUCKET_INITSIZE) \/
  (0 < b_itemCount b /\ hashmapRead t key h <> Ok (key, h)) ->
  is_Ok (hashmapWrite t key value h).
Proof.
  intros (a & Hok & Hcf & Hrep)%state_reachable_inv Hbs Hkv. cbv zeta. intros Hcase.
  pose proof (hashmapWrite_refines h t a key value Hok Hrep) as Href.
  destruct (rep_is_Some_inv _ _ _ Hrep Hbs) as [bs Ha]. unfold abs_write in Href.
  rewrite Hkv, Ha in Href.
  rewrite (bucket_count h t a _ Hok Hcf Hrep) in Hcase.
  rewrite (hashmapRead_refines h t a key Hok Hrep), abs_read_Ok in Hcase by (by rewrite Ha).
  pose proof (bucket_shape h t a (index_of key) Hok Hcf Hrep) as Hshape.
  destruct (a_bucket a (index_of key)) as [|cap its|cap]; cbn [items_of length] in Hcase.
  - rewrite decide_True in Href; [exact (refines_is_Ok _ _ Href)|].
    rewrite <- (rep_avail _ _ _ Hrep). unfold bucket_bytes.
    destruct Hcase as [[_ ?]|[?|[? _]]]; lia.
  - destruct Hshape as (l & rest & Hbk & _ & -> & _).
    rewrite decide_True in Href; [exact (refines_is_Ok _ _ Href)|].
    destruct Hcase as [[Hz _]|[?|[_ Hread]]]; [by rewrite Hbk in Hz|right; lia|left].
    destruct (find_item key its) eqn:Hf; [done|]. destruct Hread.
    unfold find_value. by rewrite Hf.
  - destruct Hshape as (l & Hbk & _).
    destruct Hcase as [[Hz _]|[?|[? _]]]; [by rewrite Hbk in Hz|lia..].
Qed.

End correct.

Section spec_properties.
Context `{!HasherOk H}.
Implicit Types (h : heap) (t : hashmap_t) (a : atable) (key value : Z).

(** C21. On a table just created, with storage for the table and its
    bucket array, every key reads as itself: no key is present. *)
Theorem read_after_create h0 t h key :
  heap_ok h0 -> table_bytes <= hp_avail h0 ->
  hashmapCreate h0 = Ok (t, h) -> hashmapRead t key h = Ok (key, h).
Proof.
  intros Hh0 Hav Hc. rewrite (hashmapCreate_Ok h0 Hav) in Hc. injection Hc as <- <-.
  by apply (hashmapRead_spec _ key _ Fresh); [|constructor|].
Qed.

(** C19. [hashmapWrite(key, value)] with [key == value] is
    [hashmapDelete(key)]: after it has returned, the key reads as itself.
    The test is the [==] of C on doubles, so it also holds of the two
    zeros, whose bit patterns differ. *)
Theorem write_equal_deletes h t key value t' h' :
  state_reachable h t -> feq key value = true ->
  hashmapWrite t key value h = Ok (t', h') ->
  hashmapDelete t key h = Ok (t', h') /\ hashmapRead t' key h' = Ok (key, h').
Proof.
  intros Hr Hkv Hw. rewrite (hashmapWrite_equal _ _ _ Hkv) in Hw. split; [done|].
  destruct (state_reachable_inv _ _ Hr) as (a & Hok & _ & Hrep).
  destruct (delete_Ok_inv _ _ _ _ _ _ Hok Hrep Hw) as (a' & Ha & Hok' & Hrep').
  rewrite (hashmapRead_refines h' t' a' key Hok' Hrep').
  by rewrite (abs_read_delete_same a Hok key a' Ha).
Qed.

(** C18. Writing a key that is present replaces its value and adds no
    item: the write returns, the key reads as the new value, and the count
    of the bucket is what it was. *)
Theorem overwrite_in_place h t key value :
  state_reachable h t -> is_Some (h_buckets t) -> feq key value = false ->
  hashmapRead t key h <> Ok (key, h) ->
  exists t' h', hashmapWrite t key value h = Ok (t', h') /\
    hashmapRead t' key h' = Ok (value, h') /\
    b_itemCount (bucket_at t' (index_of key)) = b_itemCount (bucket_at t (index_of key)).
Proof.
  intros (a & Hok & Hcf & Hrep)%state_reachable_inv Hbs Hkv Hread.
  pose proof (rep_is_Some_inv _ _ _ Hrep Hbs) as Hbs'.
  rewrite (hashmapRead_refines h t a key Hok Hrep), abs_read_Ok in Hread by done.
  destruct (find_item key (items_of (a_bucket a (index_of key)))) as [[i it]|] eqn:Hf;
    [|destruct Hread; unfold find_value; by rewrite Hf].
  assert (exists a', abs_write key value a = Ok a') as [a' Ha].
  { unfold abs_write. destruct Hbs' as [bs ->]. rewrite Hkv.
    destruct (a_bucket a (index_of key)) as [|cap its|cap]; try done.
    cbn [items_of] in Hf. rewrite decide_True by (left; by rewrite Hf). by eexists. }
  pose proof (hashmapWrite_refines h t a key value Hok Hrep) as Href. rewrite Ha in Href.
  apply refines_Ok_inv in Href as (t' & h' & Hw & Hrep'). exists t', h'.
  pose proof (abs_write_ok _ _ _ _ Hok Ha) as Hok'.
  pose proof (abs_write_cap_fixed _ _ _ _ Hcf Ha) as Hcf'.
  pose proof (abs_write_effect _ _ _ _ Hkv Ha) as (_ & _ & _ & Hits).
  apply find_item_Some in Hf as Hm. destruct Hm as (_ & Hm & _). unfold matches in Hm.
  split_and!; [done| |].
  - rewrite (hashmapRead_refines h' t' a' key Hok' Hrep').
    rewrite (abs_read_write_same _ _ _ _ Hkv Ha).
    destruct (is_nan key) eqn:Hnan; [by rewrite feq_nan_r in Hm|done].
  - rewrite (bucket_count h' t' a' _ Hok' Hcf' Hrep'), (bucket_count h t a _ Hok Hcf Hrep).
    by rewrite Hits, length_write_items, Hf.
Qed.

(** C20. Deleting a key that is absent changes nothing: the heap is as
    it was and every bucket is as it was. *)
Theorem delete_absent_noop h t key t' h' :
  state_reachable h t -> hashmapRead t key h = Ok (key, h) ->
  hashmapDelete t key h = Ok (t', h') ->
  h' = h /\ forall idx, bucket_at t' idx = bucket_at t idx.
Proof.
  intros (a & Hok & Hcf & Hrep)%state_reachable_inv Hread Hd.
  rewrite (hashmapRead_refines h t a key Hok Hrep) in Hread. unfold abs_read in Hread.
  destruct (a_buckets a) eqn:Hbs; [|done].
  pose proof (rep_is_Some _ _ _ Hrep ltac:(by rewrite Hbs)) as Hsome.
  pose proof (bucket_shape h t a (index_of key) Hok Hcf Hrep) as Hshape.
  assert (Hset : forall b, bucket_at t (index_of key) = b ->
            forall idx, bucket_at (set_bucket t (index_of key) b) idx = bucket_at t idx).
  { intros b <- idx. rewrite bucket_at_set_bucket by done. by case_decide; subst. }
  destruct (a_bucket a (index_of key)) as [|cap its|cap] eqn:Hb.
  - rewrite hashmapDelete_fresh in Hd by done. by injection Hd as <- <-.
  - destruct Hshape as (l & rest & Hbk & Hh & -> & _).
    destruct (ao_items _ Hok _ _ _ Hb) as ([_ Hu Hval] & _ & Hcap).
    cbn [items_of] in Hread. injection Hread as Hfv.
    rewrite (hashmapDelete_stored t key h Hsome l _ its rest Hbk Hh) in Hd by (done || lia).
    unfold delete_first in Hd. rewrite (find_value_key_absent key its Hval Hfv) in Hd.
    injection Hd as <- <-. split; [|by apply Hset].
    apply set_block_id, Hh.
  - destruct Hshape as (l & Hbk & _).
    rewrite (hashmapDelete_empty t key h Hsome l cap Hbk) in Hd. injection Hd as <- <-.
    split; [done|by apply Hset].
Qed.

End spec_properties.

(** ** The theorems at concrete tables *)

Lemma read_after_write_witness :
  hashmapRead (H := x86_hasher) ex_one.1 d_3_14 ex_one.2 = Ok (d_2_71, ex_one.2).
Proof.
  apply (read_after_write (H := x86_hasher) ex_empty.2 ex_empty.1 d_3_14 d_2_71);
    [apply ex_empty_reachable|reflexivity|vm_compute; reflexivity].
Defined.

Lemma read_other_after_write_witness :
  fst <$> hashmapRead (H := x86_hasher) ex_one.1 d_one ex_one.2
  = fst <$> hashmapRead (H := x86_hasher) ex_empty.1 d_one ex_empty.2.
Proof.
  apply (read_other_after_write (H := x86_hasher) ex_empty.2 ex_empty.1 d_3_14 d_2_71);
    [apply ex_empty_reachable|reflexivity|reflexivity|vm_compute; reflexivity].
Defined.

Lemma read_after_delete_witness :
  hashmapRead (H := x86_hasher) ex_freed.1 d_3_14 ex_freed.2 = Ok (d_3_14, ex_freed.2).
Proof.
  apply (read_after_delete (H := x86_hasher) ex_one.2 ex_one.1 d_3_14);
    [apply ex_one_reachable|vm_compute; reflexivity].
Defined.

Lemma read_other_after_delete_witness :
  fst <$> hashmapRead (H := x86_hasher) ex_two_del.1 (collide 1) ex_two_del.2
  = fst <$> hashmapRead (H := x86_hasher) ex_two.1 (collide 1) ex_two.2.
Proof.
  apply (read_other_after_delete (H := x86_hasher) ex_two.2 ex_two.1 (collide 0));
    [apply ex_two_reachable|reflexivity|vm_compute; reflexivity].
Defined.

Lemma read_safe_witness :
  exists v, hashmapRead (H := x86_hasher) ex_one.1 d_3_14 ex_one.2 = Ok (v, ex_one.2).
Proof.
  apply (read_safe (H := x86_hasher) ex_one.2 ex_one.1 d_3_14);
    [apply ex_one_reachable|vm_compute; by eexists].
Defined.

Lemma read_echo_witness :
  hashmapRead (H := x86_hasher) ex_one.1 d_one ex_one.2 = Ok (d_one, ex_one.2) /\
  d_one = d_one.
Proof.
  assert (Hread : hashmapRead (H := x86_hasher) ex_one.1 d_one ex_one.2
                  = Ok (d_one, ex_one.2)) by (vm_compute; reflexivity).
  split; [exact Hread|].
  apply (read_echo (H := x86_hasher) ex_one.2 ex_one.1 d_one d_one ex_one.2);
    [apply ex_one_reachable|exact Hread|reflexivity].
Defined.

Lemma delete_returns_witness :
  is_Ok (hashmapDelete (H := x86_hasher) ex_one.1 d_3_14 ex_one.2).
Proof.
  apply (delete_returns (H := x86_hasher) ex_one.2 ex_one.1 d_3_14);
    [apply ex_one_reachable|vm_compute; by eexists].
Defined.

Lemma write_returns_witness :
  is_Ok (hashmapWrite (H := x86_hasher) ex_empty.1 d_3_14 d_2_71 ex_empty.2).
Proof.
  apply (write_returns (H := x86_hasher) ex_empty.2 ex_empty.1 d_3_14 d_2_71);
    [apply ex_empty_reachable|vm_compute; by eexists|reflexivity|].
  left. split; [vm_compute; reflexivity|vm_compute; discriminate].
Defined.

Lemma read_after_create_witness :
  hashmapRead (H := x86_hasher) ex_empty.1 d_one ex_empty.2 = Ok (d_one, ex_empty.2).
Proof.
  apply (read_after_create (H := x86_hasher) (empty_heap 2000000) ex_empty.1 ex_empty.2 d_one);
    [apply heap_ok_empty|vm_compute; discriminate|vm_compute; reflexivity].
Defined.

Lemma write_equal_deletes_witness :
  pos_zero <> neg_zero /\
  hashmapDelete (H := x86_hasher) ex_zero.1 pos_zero ex_zero.2 = Ok ex_zero_del /\
  hashmapRead (H := x86_hasher) ex_zero_del.1 pos_zero ex_zero_del.2
  = Ok (pos_zero, ex_zero_del.2).
Proof.
  split; [discriminate|].
  apply (write_equal_deletes (H := x86_hasher) ex_zero.2 ex_zero.1 pos_zero neg_zero);
    [apply ex_zero_reachable|reflexivity|vm_compute; reflexivity].
Defined.

Lemma overwrite_in_place_witness :
  exists t' h', hashmapWrite (H := x86_hasher) ex_one.1 d_3_14 d_one ex_one.2 = Ok (t', h') /\
    hashmapRead (H := x86_hasher) t' d_3_14 h' = Ok (d_one, h') /\
    b_itemCount (bucket_at t' (index_of (H := x86_hasher) d_3_14))
    = b_itemCount (bucket_at ex_one.1 (index_of (H := x86_hasher) d_3_14)).
Proof.
  apply (overwrite_in_place (H := x86_hasher) ex_one.2 ex_one.1 d_3_14 d_one);
    [apply ex_one_reachable|vm_compute; by eexists|reflexivity|vm_compute; discriminate].
Defined.

Lemma delete_absent_noop_witness :
  ex_noop.2 = ex_one.2 /\ forall idx, bucket_at ex_noop.1 idx = bucket_at ex_one.1 idx.
Proof.
  apply (delete_absent_noop (H := x86_hasher) ex_one.2 ex_one.1 d_one);
    [apply ex_one_reachable|vm_compute; reflexivity..].
Defined.
