(* ===== verification/Faults.v ===== *)
(** * Faults: where the functions of the table stop with an error

    The model stops an operation at the first step that C leaves
    undefined.  The theorems of this file say when that happens on a table
    a client can reach: a write to a bucket that is full, a write to a
    bucket that a deletion has emptied, a table created without enough
    storage.  They also state what stays true of every bucket, which is
    what rules the other faults out. *)

From S2P Require Import Prelude Word32 Double Hasher Hash Heap Table Items Abstract Bucket Rep Exec Refine Run Examples.

Section faults.
Context `{!HasherOk H}.
Implicit Types (h : heap) (t : hashmap_t) (a : atable) (key value : Z).

(** C5. A bucket never grows.  When the bucket of [key] holds
    [HASHMAP_BUCKET_INITSIZE] items and [key] is not among them, which
    [hashmapRead] shows by returning the key, [hashmapWrite] stops with an
    access out of bounds: [realloc] is given [length * 2] bytes, not
    items, so the block that held eight items now holds one, and the new
    item is stored at index eight. *)
Theorem write_full_out_of_bounds h t key value :
  state_reachable h t ->
  b_itemCount (bucket_at t (index_of key)) = HASHMAP_BUCKET_INITSIZE ->
  hashmapRead t key h = Ok (key, h) -> feq key value = false ->
  hashmapWrite t key value h = Err OutOfBounds.
Proof.
  intros (a & Hok & Hcf & Hrep)%state_reachable_inv Hcount Hread Hkv.
  apply (write_Err h t a key value _ Hok Hrep). unfold abs_write. rewrite Hkv.
  rewrite (hashmapRead_refines h t a key Hok Hrep) in Hread. unfold abs_read in Hread.
  pose proof (bucket_shape h t a (index_of key) Hok Hcf Hrep) as Hshape.
  destruct (a_buckets a); [|done].
  destruct (a_bucket a (index_of key)) as [|cap its|cap] eqn:Hb.
  - by rewrite Hshape in Hcount.
  - destruct Hshape as (l & rest & Hbk & _ & -> & _). rewrite Hbk in Hcount.
    cbn [b_itemCount items_of] in *. destruct (ao_items _ Hok _ _ _ Hb) as ([_ _ Hval] & _).
    injection Hread as Hfv. rewrite (find_value_key_absent key its Hval Hfv).
    rewrite decide_False; [done|]. intros [[? [=]]|?]. lia.
  - destruct Hshape as (l & Hbk & _). by rewrite Hbk in Hcount.
Qed.

(** C6. A bucket that a deletion has emptied cannot be written again.
    [hashmapDelete] frees the items when the count reaches zero and leaves
    the pointer as it was; the next [hashmapWrite] to the bucket finds the
    pointer non-null and uses the freed block. *)
Theorem write_after_free h t key value :
  state_reachable h t ->
  b_items (bucket_at t (index_of key)) <> NULL ->
  b_itemCount (bucket_at t (index_of key)) = 0 -> feq key value = false ->
  hashmapWrite t key value h = Err DanglingPointer.
Proof.
  intros (a & Hok & Hcf & Hrep)%state_reachable_inv Hptr Hcount Hkv.
  apply (write_Err h t a key value _ Hok Hrep). unfold abs_write. rewrite Hkv.
  pose proof (bucket_shape h t a (index_of key) Hok Hcf Hrep) as Hshape.
  destruct (a_buckets a) eqn:Hbs;
    [|by rewrite (a_bucket_null _ _ Hbs) in Hshape; rewrite Hshape in Hptr].
  destruct (a_bucket a (index_of key)) as [|cap its|cap] eqn:Hb; [| |done].
  - by rewrite Hshape in Hptr.
  - destruct Hshape as (l & rest & Hbk & _ & _ & Hlen & _). rewrite Hbk in Hcount.
    cbn [b_itemCount] in Hcount. lia.
Qed.

(** C11. What every bucket of a reachable table looks like: it is the
    all-zero bucket, or it has a pointer, the length
    [HASHMAP_BUCKET_INITSIZE] and a count between zero and that length,
    and its block is live exactly when the count is not zero. *)
Theorem bucket_well_formed h t idx :
  state_reachable h t ->
  let b := bucket_at t idx in
  b = zero_bucket \/
  exists l, b_items b = Ptr l /\ b_length b = HASHMAP_BUCKET_INITSIZE /\
    0 <= b_itemCount b <= HASHMAP_BUCKET_INITSIZE /\
    (b_itemCount b = 0 <-> hp_blocks h !! l = None).
Proof.
  intros (a & Hok & Hcf & Hrep)%state_reachable_inv. cbv zeta.
  pose proof (bucket_shape h t a idx Hok Hcf Hrep) as Hshape.
  destruct (a_bucket a idx) as [|cap its|cap]; [by left|right..].
  - destruct Hshape as (l & rest & -> & Hh & -> & Hlen & Hle). exists l.
    cbn [b_items b_length b_itemCount]. split_and!; [done|done|lia|lia|].
    rewrite Hh. split; [lia|done].
  - destruct Hshape as (l & -> & Hl & ->). exists l.
    cbn [b_items b_length b_itemCount]. by split_and!.
Qed.

(** C28. [hashmap->itemCount] is never updated: it is zero in every
    table a client can reach, whatever was written. *)
Theorem itemCount_stays_zero h t :
  state_reachable h t -> h_itemCount t = 0.
Proof. intros (a & _ & _ & Hrep)%state_reachable_inv. apply (rep_count _ _ _ Hrep). Qed.

(** C23. Deleting the only item of a bucket frees the block of the
    bucket and leaves the pointer to it in place, with count zero. *)
Theorem delete_last_frees h t key v t' h' :
  state_reachable h t ->
  b_itemCount (bucket_at t (index_of key)) = 1 ->
  hashmapRead t key h = Ok (v, h) -> v <> key ->
  hashmapDelete t key h = Ok (t', h') ->
  exists l, b_items (bucket_at t (index_of key)) = Ptr l /\
    bucket_at t' (index_of key) = mkBucket (Ptr l) HASHMAP_BUCKET_INITSIZE 0 /\
    hp_blocks h' !! l = None.
Proof.
  intros (a & Hok & Hcf & Hrep)%state_reachable_inv Hcount Hread Hv Hd.
  rewrite (hashmapRead_refines h t a key Hok Hrep) in Hread. unfold abs_read in Hread.
  pose proof (bucket_shape h t a (index_of key) Hok Hcf Hrep) as Hshape.
  destruct (a_buckets a) eqn:Hbs; [|done].
  pose proof (rep_is_Some _ _ _ Hrep ltac:(by rewrite Hbs)) as Hsome.
  destruct (a_bucket a (index_of key)) as [|cap its|cap] eqn:Hb.
  - by rewrite Hshape in Hcount.
  - destruct Hshape as (l & rest & Hbk & Hh & -> & _). rewrite Hbk in Hcount |- *.
    cbn [b_itemCount b_items items_of] in *. injection Hread as Hfv.
    destruct (ao_items _ Hok _ _ _ Hb) as ([_ Hu _] & _).
    rewrite (hashmapDelete_stored t key h Hsome l _ its rest Hbk Hh) in Hd by (done || lia).
    destruct its as [|it [|]]; cbn [length] in Hcount; try lia.
    rewrite find_value_singleton in Hfv.
    unfold delete_first in Hd. rewrite find_item_cons in Hd.
    destruct (feq (it_key it) key); [|done]. cbn in Hd. injection Hd as <- <-.
    exists l. rewrite bucket_at_set_bucket, decide_True by done.
    split_and!; [done..|]. apply lookup_delete_eq.
  - destruct Hshape as (l & Hbk & _). by rewrite Hbk in Hcount.
Qed.

(** C24. A key that is a NaN is never found: [hashmapRead] returns it
    as it came, whatever was written under it. *)
Theorem nan_key_not_found h t key :
  state_reachable h t -> is_Some (h_buckets t) -> is_nan key = true ->
  hashmapRead t key h = Ok (key, h).
Proof.
  intros (a & Hok & _ & Hrep)%state_reachable_inv Hbs Hnan.
  rewrite (hashmapRead_refines h t a key Hok Hrep).
  rewrite abs_read_Ok by (by eapply rep_is_Some_inv).
  cbn. by rewrite find_value_nan.
Qed.

(** C25. Every [hashmapWrite] under a key that is a NaN that returns has
    added an item to the bucket: the scan finds no match, so writes under
    the same NaN pile up until the bucket is full. *)
Theorem nan_write_appends h t key value t' h' :
  state_reachable h t -> is_nan key = true ->
  hashmapWrite t key value h = Ok (t', h') ->
  b_itemCount (bucket_at t' (index_of key))
  = b_itemCount (bucket_at t (index_of key)) + 1.
Proof.
  intros (a & Hok & Hcf & Hrep)%state_reachable_inv Hnan Hw.
  destruct (write_Ok_inv _ _ _ _ _ _ _ Hok Hrep Hw) as (a' & Ha & Hok' & Hrep').
  pose proof (abs_write_effect key value a a' (feq_nan_l _ _ Hnan) Ha)
    as (Hbs & Hbs' & _ & Hits).
  pose proof (abs_write_cap_fixed _ _ _ _ Hcf Ha) as Hcf'.
  rewrite (bucket_count h t a _ Hok Hcf Hrep), (bucket_count h' t' a' _ Hok' Hcf' Hrep').
  rewrite Hits, length_write_items. rewrite find_item_nan by done. lia.
Qed.

(** C26. The bucket is selected by the hash of the bytes of the key and
    the item by [==]: a [hashmapWrite] under [key], whether it stores or
    removes, leaves every key that selects another bucket reading as
    before, also a key that compares equal to [key].  With the hash of
    the program the two zeros are such keys: what is written under
    [+0.0] is not found under [-0.0]. *)
Theorem write_unseen_in_other_bucket h t key value key' t' h' :
  state_reachable h t -> index_of key <> index_of key' ->
  hashmapWrite t key value h = Ok (t', h') ->
  fst <$> hashmapRead t' key' h' = fst <$> hashmapRead t key' h.
Proof.
  intros (a & Hok & _ & Hrep)%state_reachable_inv Hidx Hw.
  destruct (write_Ok_inv _ _ _ _ _ _ _ Hok Hrep Hw) as (a' & Ha & Hok' & Hrep').
  rewrite (read_value h' t' a' key' Hok' Hrep'), (read_value h t a key' Hok Hrep).
  destruct (abs_write_other_buckets _ _ _ _ Ha) as (Hbs & Hbs' & Hother).
  apply abs_read_same_bucket; [done..|]. apply Hother. congruence.
Qed.

End faults.

Section no_storage.
Context `{!HasherOk H}.

Lemma step_null o t h : h_buckets t = None -> step o t h = Err NullDeref.
Proof.
  intros Hbs. destruct o; cbn [step]; apply bind_Err;
    auto using hashmapRead_null, hashmapWrite_null, hashmapDelete_null.
Qed.

(** C27. A table created with less storage at hand than the table and
    its bucket array take is unusable: [hashmapCreate] does not check what
    [calloc] returns, and the first call on the table, whatever it is,
    goes through a null pointer. *)
Theorem create_without_storage avail o ops :
  avail < table_bytes -> behaviour avail (o :: ops) = Err NullDeref.
Proof.
  intros Hav. unfold behaviour. cbn [run].
  destruct (decide (sizeof_hashmap_t <= avail)).
  - rewrite (bind_Ok _ _ _ _ _ (hashmapCreate_no_buckets (empty_heap avail) ltac:(cbn; lia))).
    rewrite (bind_Err _ _ _ NullDeref); [done|]. by apply step_null.
  - rewrite (bind_Err _ _ _ NullDeref); [done|]. apply hashmapCreate_fails. cbn. lia.
Qed.

End no_storage.

Section iso.
#[local] Instance iso_hasher : Hasher := hashFunction_hasher shift_iso.

(** C14. Under the shift semantics of ISO C no call of [hashmapRead],
    [hashmapWrite] or [hashmapDelete] has a defined result: the hash of
    every key shifts a 32-bit value by 32 bits in its first round. *)
Theorem iso_every_call_undefined t key value h :
  hashmapRead t key h = Err UndefinedShift /\
  hashmapWrite t key value h = Err UndefinedShift /\
  hashmapDelete t key h = Err UndefinedShift.
Proof.
  pose proof (hashFunction_iso_undefined key) as Hh.
  split_and!; [by apply hashmapRead_hasher_fails|by apply hashmapWrite_hasher_fails
              |by apply hashmapDelete_hasher_fails].
Qed.

End iso.

(** ** The theorems at concrete tables *)

Lemma write_full_out_of_bounds_witness :
  b_itemCount (bucket_at ex_full.1 (index_of (H := x86_hasher) (collide 8))) = 8 /\
  hashmapWrite (H := x86_hasher) ex_full.1 (collide 8) d_one ex_full.2 = Err OutOfBounds.
Proof.
  split; [vm_compute; reflexivity|].
  apply (write_full_out_of_bounds (H := x86_hasher) ex_full.2 ex_full.1 (collide 8) d_one);
    [apply ex_full_reachable|vm_compute; reflexivity..].
Defined.

Lemma write_after_free_witness :
  hashmapWrite (H := x86_hasher) ex_freed.1 d_3_14 d_2_71 ex_freed.2
  = Err DanglingPointer.
Proof.
  apply (write_after_free (H := x86_hasher) ex_freed.2 ex_freed.1 d_3_14 d_2_71);
    [apply ex_freed_reachable|vm_compute; discriminate|vm_compute; reflexivity..].
Defined.

Lemma bucket_well_formed_witness :
  let b := bucket_at ex_full.1 38627 in
  b = zero_bucket \/
  exists l, b_items b = Ptr l /\ b_length b = HASHMAP_BUCKET_INITSIZE /\
    0 <= b_itemCount b <= HASHMAP_BUCKET_INITSIZE /\
    (b_itemCount b = 0 <-> hp_blocks ex_full.2 !! l = None).
Proof.
  apply (bucket_well_formed (H := x86_hasher) ex_full.2 ex_full.1 38627).
  apply ex_full_reachable.
Defined.

Lemma itemCount_stays_zero_witness : h_itemCount ex_full.1 = 0.
Proof.
  apply (itemCount_stays_zero (H := x86_hasher) ex_full.2 ex_full.1).
  apply ex_full_reachable.
Defined.

Lemma delete_last_frees_witness :
  exists l, b_items (bucket_at ex_one.1 (index_of (H := x86_hasher) d_3_14)) = Ptr l /\
    bucket_at ex_freed.1 (index_of (H := x86_hasher) d_3_14)
    = mkBucket (Ptr l) HASHMAP_BUCKET_INITSIZE 0 /\
    hp_blocks ex_freed.2 !! l = None.
Proof.
  apply (delete_last_frees (H := x86_hasher) ex_one.2 ex_one.1 d_3_14 d_2_71);
    [apply ex_one_reachable|vm_compute; reflexivity..|vm_compute; discriminate
    |vm_compute; reflexivity].
Defined.

Lemma nan_key_not_found_witness :
  hashmapRead (H := x86_hasher) ex_nan.1 quiet_nan ex_nan.2 = Ok (quiet_nan, ex_nan.2).
Proof.
  apply (nan_key_not_found (H := x86_hasher) ex_nan.2 ex_nan.1 quiet_nan);
    [apply ex_nan_reachable|vm_compute; by eexists|reflexivity].
Defined.

Lemma nan_write_appends_witness :
  b_itemCount (bucket_at ex_nan.1 (index_of (H := x86_hasher) quiet_nan))
  = b_itemCount (bucket_at ex_empty.1 (index_of (H := x86_hasher) quiet_nan)) + 1.
Proof.
  apply (nan_write_appends (H := x86_hasher) ex_empty.2 ex_empty.1 quiet_nan d_one
           ex_nan.1 ex_nan.2);
    [apply ex_empty_reachable|reflexivity|vm_compute; reflexivity].
Defined.

Lemma create_without_storage_witness :
  behaviour (H := x86_hasher) 1000000 [Read d_one] = Err NullDeref.
Proof.
  apply (create_without_storage (H := x86_hasher) 1000000 (Read d_one) []).
  vm_compute. reflexivity.
Defined.

Lemma write_unseen_in_other_bucket_witness :
  feq pos_zero neg_zero = true /\
  fst <$> hashmapRead (H := x86_hasher) ex_zero.1 neg_zero ex_zero.2
  = fst <$> hashmapRead (H := x86_hasher) ex_empty.1 neg_zero ex_empty.2.
Proof.
  split; [reflexivity|].
  apply (write_unseen_in_other_bucket (H := x86_hasher) ex_empty.2 ex_empty.1
           pos_zero d_one neg_zero);
    [apply ex_empty_reachable|vm_compute; discriminate|vm_compute; reflexivity].
Defined.
